(** * NotSteam catalog engine: Convex mutations and queries

    A shallow embedding of the Convex functions of the NotSteam game
    catalog: the ingest mutations [addGame], [upsertAliases] and
    [updateGame], the query handlers [getGameById],
    [getGameByNormalizedName], [searchGamesByName], the listings by
    developer, publisher, franchise, platform, genre, tag, decade and
    year, and the HTTP action [ingestNdjson], together with the tables
    of [convex/schema.ts] they read and write.

    Conventions of the embedding.
    - A JavaScript string is a [string]: a sequence of code units below
      256 (the Latin-1 range).
    - A JavaScript number is an integer of [Z]: a timestamp and a page
      size as they are, a field of an entity with [NaN] as an extra
      element ([number]).  On the safe integers (below 2^53 in
      absolute value) the floating-point operations the handlers use
      ([/ 10], [Math.floor], [* 10], [Math.min], [Math.max]) are the
      operations of [Z]; past them the code rounds, so every statement
      on the arithmetic of a decade is made of safe integers
      ([safe_integer], [safe_number], [safe_years]).  Fractional
      values, which only rating and playtime_hours are meant to hold,
      are copied by the handlers and never computed with; they are not
      represented.
    - An argument validated by [v.optional(v.union(T, v.null()))] is an
      [arg T]: absent (undefined), null, or a value.
    - The database is a record of tables; a table is the list of its
      rows in creation order, which is the order in which an index
      range with an equality on its key returns them.  Document ids are
      drawn from a counter of the store.  To a handler an id is a
      string ([id_text]); [games_id] is the validator [v.id("games")],
      which admits the strings that are the text of an id.
    - A handler is a computation in a state and exception monad over
      the store.  Two exceptions are raised: the one of [unique()] when
      more than one row matches, and the one of [ctx.db.patch] when the
      patched document fails the schema, which for the documents
      [updateGame] builds is the case exactly when parent_game is a
      string that is no id of games.  A call that throws is rolled
      back: it leaves no store.  The documents [addGame] and
      [upsertAliases] insert pass the schema by their types.
      Validation of the arguments is done by the platform before the
      handler runs and is not part of the embedding of a handler; the
      HTTP action, which passes parsed text to the mutations and
      catches what they throw, is embedded with the validators of
      their arguments.
    - Full-text search, pagination, [JSON.parse] and the clock are
      parameters of the handlers that use them. *)

From Stdlib Require Import List ZArith String Ascii Bool Arith Lia DecimalString.
Import ListNotations.

Local Open Scope string_scope.
Local Open Scope list_scope.

(** ** JavaScript values *)

Inductive number : Type :=
| NaN
| Num (z : Z).

Inductive arg (A : Type) : Type :=
| Absent
| Null
| Val (a : A).

Arguments Absent {A}.
Arguments Null {A}.
Arguments Val {A} a.

(** [x ?? d]: the nullish coalescing operator with a possibly undefined
    right operand. *)
Definition coalesce {A : Type} (x : arg A) (d : option A) : option A :=
  match x with
  | Val a => Some a
  | Absent | Null => d
  end.

Notation "x ?? d" := (coalesce x d) (at level 45, right associativity).

(** [x ?? d] with a right operand that is never nullish. *)
Definition coalesce_req {A : Type} (x : arg A) (d : A) : A :=
  match x with
  | Val a => a
  | Absent | Null => d
  end.

Notation "x ??! d" := (coalesce_req x d) (at level 45, right associativity).

(** An argument validated by [v.optional(T)]: never null. *)
Definition of_optional {A : Type} (x : option A) : arg A :=
  match x with
  | Some a => Val a
  | None => Absent
  end.

(** [x != null] *)
Definition not_nullish {A : Type} (x : arg A) : bool :=
  match x with
  | Val _ => true
  | Absent | Null => false
  end.

(** ** Normalizer (ingest module, lines 4-12) *)

Definition is_white_space (c : ascii) : bool :=
  let n := nat_of_ascii c in
  ((n =? 9) || (n =? 10) || (n =? 11) || (n =? 12) || (n =? 13)
   || (n =? 32) || (n =? 160))%nat.

Fixpoint trim_start (s : string) : string :=
  match s with
  | EmptyString => EmptyString
  | String c s' => if is_white_space c then trim_start s' else s
  end.

Fixpoint string_rev_append (s acc : string) : string :=
  match s with
  | EmptyString => acc
  | String c s' => string_rev_append s' (String c acc)
  end.

Definition string_rev (s : string) : string := string_rev_append s EmptyString.

Definition trim_end (s : string) : string := string_rev (trim_start (string_rev s)).

(** [String.prototype.trim] *)
Definition trim (s : string) : string := trim_end (trim_start s).

Definition lower_char (c : ascii) : ascii :=
  let n := nat_of_ascii c in
  if (((65 <=? n) && (n <=? 90))
      || ((192 <=? n) && (n <=? 222) && negb (n =? 215)))%nat
  then ascii_of_nat (n + 32)
  else c.

(** [String.prototype.toLowerCase] *)
Fixpoint toLowerCase (s : string) : string :=
  match s with
  | EmptyString => EmptyString
  | String c s' => String (lower_char c) (toLowerCase s')
  end.

Definition normalizeString (value : arg string) : option string :=
  match value with
  | Absent | Null => None
  | Val s => Some (toLowerCase (trim s))
  end.

(** [Number.isSafeInteger]: the integers on which the arithmetic of a
    JavaScript number is the arithmetic of integers. *)
Definition safe_integer (z : Z) : Prop := (Z.abs z < 2 ^ 53)%Z.

Definition safe_number (n : option number) : Prop :=
  match n with
  | Some (Num z) => safe_integer z
  | Some NaN | None => True
  end.

(** [computeDecade] (lines 9-12).  [Math.floor(year / 10) * 10] is
    [y / 10 * 10] on a safe integer; past them the code rounds, and
    what is proved of the arithmetic of a decade below is proved of
    safe integers only. *)
Definition computeDecade (year : option number) : option number :=
  match year with
  | None => None
  | Some NaN => None
  | Some (Num y) => Some (Num (y / 10 * 10))
  end.

(** ** The schema (convex/schema.ts) *)

Definition Id : Type := nat.

(** A document id is a string at run time: the id [i] of the counter is
    the numeral of [i].  [games_id raw] is the id that the string [raw]
    is, when it is one: what [v.id("games")] accepts.  A value of
    [v.union(v.id("games"), v.string())] is any string; only the schema
    of the games table, which has no [v.string()] for parent_game,
    tells an id from a name. *)
Definition id_text (i : Id) : string := NilZero.string_of_uint (Nat.to_uint i).

Definition games_id (raw : string) : option Id :=
  match NilZero.uint_of_string raw with
  | Some d => if String.eqb (id_text (Nat.of_uint d)) raw then Some (Nat.of_uint d) else None
  | None => None
  end.

Module Game.
Record t : Type := mk {
    _id : Id;
    display_name : string;
    normalized_name : string;
    aliases : option (list string);
    summary : string;
    franchise : option string;
    developer : option string;
    publisher : option string;
    release_year : option number;
    release_decade : option number;
    age_rating : option string;
    setting : option string;
    perspective : option string;
    world_type : option string;
    price_model : option string;
    story_focus : option string;
    playtime_hours : option number;
    rating : option number;
    has_microtransactions : option bool;
    is_vr : option bool;
    has_mods : option bool;
    requires_online : option bool;
    cross_platform : option bool;
    is_remake_or_remaster : option bool;
    is_dlc : option bool;
    procedurally_generated : option bool;
    parent_game : option Id;
    genre : option (list string);
    platforms : option (list string);
    tags : option (list string);
    multiplayer_type : option (list string);
    input_methods : option (list string);
    createdAt : Z;
    updatedAt : Z
  }.
End Game.

(** The five attribute tables have one shape; [value] is the column
    named platform, genre, tag, mode or input. *)
Inductive join_table : Type :=
| game_platforms
| game_genres
| game_tags
| game_multiplayer
| game_inputs.

Definition join_table_eqb (a b : join_table) : bool :=
  match a, b with
  | game_platforms, game_platforms
  | game_genres, game_genres
  | game_tags, game_tags
  | game_multiplayer, game_multiplayer
  | game_inputs, game_inputs => true
  | _, _ => false
  end.

Module Join.
Record t : Type := mk {
    _id : Id;
    gameId : Id;
    value : string;
    release_year : option number;
    release_decade : option number
  }.
End Join.

Module Alias.
Record t : Type := mk {
    _id : Id;
    gameId : Id;
    alias : string;
    notes : option string
  }.
End Alias.

Record store : Type := mkStore {
  next_id : Id;
  games : list Game.t;
  joins : join_table -> list Join.t;
  game_aliases : list Alias.t
}.

Definition empty_store : store :=
  {| next_id := 0; games := []; joins := fun _ => []; game_aliases := [] |}.

Definition set_joins (s : store) (tbl : join_table) (rows : list Join.t) : store :=
  {| next_id := next_id s;
     games := games s;
     joins := fun t => if join_table_eqb t tbl then rows else joins s t;
     game_aliases := game_aliases s |}.

(** ** The handler monad *)

Inductive error : Type :=
| NotUnique
| SchemaViolation.

Inductive result (A : Type) : Type :=
| Ok (a : A)
| Throw (e : error).

Arguments Ok {A} a.
Arguments Throw {A} e.

Definition M (A : Type) : Type := store -> result (A * store).

Definition ret {A : Type} (a : A) : M A := fun s => Ok (a, s).

Definition bind {A B : Type} (m : M A) (k : A -> M B) : M B :=
  fun s =>
    match m s with
    | Ok (a, s') => k a s'
    | Throw e => Throw e
    end.

Definition throw {A : Type} (e : error) : M A := fun _ => Throw e.

Declare Scope handler_scope.
Delimit Scope handler_scope with handler.
Notation "x <- m ;; k" := (bind m (fun x => k))
  (at level 61, m at next level, right associativity) : handler_scope.
Notation "m ;; k" := (bind m (fun _ => k))
  (at level 61, right associativity) : handler_scope.

Local Open Scope handler_scope.

(** [for (const x of xs) { await body(x) }] *)
Fixpoint for_of {A : Type} (xs : list A) (body : A -> M unit) : M unit :=
  match xs with
  | [] => ret tt
  | x :: xs' => body x ;; for_of xs' body
  end.

(** [if (c) { await m }] *)
Definition when (c : bool) (m : M unit) : M unit :=
  if c then m else ret tt.

(** A [for ... of] loop that updates a local variable. *)
Fixpoint for_of_acc {A B : Type} (xs : list A) (acc : B) (body : B -> A -> M B) : M B :=
  match xs with
  | [] => ret acc
  | x :: xs' => acc' <- body acc x ;; for_of_acc xs' acc' body
  end.

(** ** Database primitives *)

(** [.unique()]: null on no row, the row on one, an exception on more. *)
Definition unique {A : Type} (rows : list A) : M (option A) :=
  match rows with
  | [] => ret None
  | [r] => ret (Some r)
  | _ :: _ :: _ => throw NotUnique
  end.

(** [ctx.db.query("games").withIndex("by_normalized_name", q => q.eq(..., name))] *)
Definition by_normalized_name (name : string) (s : store) : list Game.t :=
  filter (fun g => String.eqb (Game.normalized_name g) name) (games s).

(** [ctx.db.query(table).withIndex("by_game", q => q.eq("gameId", id))] *)
Definition join_by_game (tbl : join_table) (id : Id) (s : store) : list Join.t :=
  filter (fun r => Nat.eqb (Join.gameId r) id) (joins s tbl).

Definition alias_by_game (id : Id) (s : store) : list Alias.t :=
  filter (fun r => Nat.eqb (Alias.gameId r) id) (game_aliases s).

(** [ctx.db.query("game_aliases").withIndex("by_alias", q => q.eq("alias", a))] *)
Definition by_alias (a : string) (s : store) : list Alias.t :=
  filter (fun r => String.eqb (Alias.alias r) a) (game_aliases s).

Definition query {A : Type} (q : store -> A) : M A := fun s => Ok (q s, s).

(** [ctx.db.get(id)] on the games table. *)
Definition get_game (id : Id) (s : store) : option Game.t :=
  find (fun g => Nat.eqb (Game._id g) id) (games s).

Definition db_get (id : Id) : M (option Game.t) := query (get_game id).

(** [ctx.db.insert("games", doc)] *)
Definition insert_game (doc : Id -> Game.t) : M Id :=
  fun s =>
    let i := next_id s in
    Ok (i, {| next_id := S i;
              games := games s ++ [doc i];
              joins := joins s;
              game_aliases := game_aliases s |}).

(** [ctx.db.insert(table, doc)] on an attribute table. *)
Definition insert_join (tbl : join_table) (doc : Id -> Join.t) : M Id :=
  fun s =>
    let i := next_id s in
    Ok (i, {| next_id := S i;
              games := games s;
              joins := fun t =>
                if join_table_eqb t tbl then joins s t ++ [doc i] else joins s t;
              game_aliases := game_aliases s |}).

(** [ctx.db.insert("game_aliases", doc)] *)
Definition insert_alias (doc : Id -> Alias.t) : M Id :=
  fun s =>
    let i := next_id s in
    Ok (i, {| next_id := S i;
              games := games s;
              joins := joins s;
              game_aliases := game_aliases s ++ [doc i] |}).

(** The rows of games after [ctx.db.patch(id, fields)]; [fields] gives
    the document after the patch from the one before, or nothing when
    the patched document does not fit the schema of the table. *)
Fixpoint patch_rows (id : Id) (fields : Game.t -> option Game.t) (rows : list Game.t)
  : option (list Game.t) :=
  match rows with
  | [] => Some []
  | g :: rows' =>
      if Nat.eqb (Game._id g) id
      then match fields g, patch_rows id fields rows' with
           | Some g', Some patched => Some (g' :: patched)
           | _, _ => None
           end
      else option_map (cons g) (patch_rows id fields rows')
  end.

(** [ctx.db.patch(id, fields)] on the games table: the platform checks
    the patched document against the schema and throws when it does not
    fit. *)
Definition patch_game (id : Id) (fields : Game.t -> option Game.t) : M unit :=
  fun s =>
    match patch_rows id fields (games s) with
    | Some rows =>
        Ok (tt, {| next_id := next_id s;
                   games := rows;
                   joins := joins s;
                   game_aliases := game_aliases s |})
    | None => Throw SchemaViolation
    end.

(** [ctx.db.delete(id)] for a row of an attribute table. *)
Definition delete_join (tbl : join_table) (id : Id) : M unit :=
  fun s =>
    Ok (tt, set_joins s tbl
              (filter (fun r => negb (Nat.eqb (Join._id r) id)) (joins s tbl))).

(** [ctx.db.delete(id)] for a row of the alias table. *)
Definition delete_alias (id : Id) : M unit :=
  fun s =>
    Ok (tt, {| next_id := next_id s;
               games := games s;
               joins := joins s;
               game_aliases :=
                 filter (fun r => negb (Nat.eqb (Alias._id r) id)) (game_aliases s) |}).

(** ** addGame (ingest module, lines 14-190) *)

Module AddArgs.
Record t : Type := mk {
    display_name : string;
    normalized_name : arg string;
    summary : string;
    release_year : arg number;
    developer : arg string;
    publisher : arg string;
    franchise : arg string;
    genre : arg (list string);
    platforms : arg (list string);
    age_rating : arg string;
    setting : arg string;
    perspective : arg string;
    world_type : arg string;
    multiplayer_type : arg (list string);
    input_methods : arg (list string);
    story_focus : arg string;
    playtime_hours : arg number;
    tags : arg (list string);
    rating : arg number;
    price_model : arg string;
    has_microtransactions : arg bool;
    is_vr : arg bool;
    has_mods : arg bool;
    requires_online : arg bool;
    cross_platform : arg bool;
    is_remake_or_remaster : arg bool;
    is_dlc : arg bool;
    parent_game : arg string;
    procedurally_generated : arg bool;
    aliases : arg (list string)
  }.
End AddArgs.

Module AddResult.
Record t : Type := mk { _id : Id; inserted : bool }.
End AddResult.

(** [safeInsertMany] of [addGame] and of [updateGame]: one row per value.
    The elements of a validated array are strings, never undefined. *)
Definition safeInsertMany (gameId : Id) (releaseYear releaseDecade : option number)
    (table : join_table) (values : option (list string)) : M unit :=
  match values with
  | None | Some [] => ret tt
  | Some ((_ :: _) as vs) =>
      for_of vs (fun raw =>
        insert_join table (fun i =>
          {| Join._id := i;
             Join.gameId := gameId;
             Join.value := raw;
             Join.release_year := releaseYear;
             Join.release_decade := releaseDecade |}) ;;
        ret tt)
  end.

(** The key of the idempotency lookup (line 54). *)
Definition addGame_normalizedName (args : AddArgs.t) : string :=
  AddArgs.normalized_name args ??! AddArgs.display_name args.

(** The document inserted into games (lines 99-133), with the identity
    [i] the store assigns to it. *)
Definition addGame_document (now : Z) (args : AddArgs.t) (normalizedName : string)
    (releaseYear releaseDecade : option number) (parentGameId : option Id)
    (i : Id) : Game.t :=
  {| Game._id := i;
     Game.display_name := AddArgs.display_name args;
     Game.normalized_name := normalizedName;
     Game.aliases := None;
     Game.summary := AddArgs.summary args;
     Game.franchise := AddArgs.franchise args ?? None;
     Game.developer := AddArgs.developer args ?? None;
     Game.publisher := AddArgs.publisher args ?? None;
     Game.release_year := releaseYear;
     Game.release_decade := releaseDecade;
     Game.age_rating := AddArgs.age_rating args ?? None;
     Game.setting := AddArgs.setting args ?? None;
     Game.perspective := AddArgs.perspective args ?? None;
     Game.world_type := AddArgs.world_type args ?? None;
     Game.price_model := AddArgs.price_model args ?? None;
     Game.story_focus := AddArgs.story_focus args ?? None;
     Game.playtime_hours := AddArgs.playtime_hours args ?? None;
     Game.rating := AddArgs.rating args ?? None;
     Game.has_microtransactions := AddArgs.has_microtransactions args ?? None;
     Game.is_vr := AddArgs.is_vr args ?? None;
     Game.has_mods := AddArgs.has_mods args ?? None;
     Game.requires_online := AddArgs.requires_online args ?? None;
     Game.cross_platform := AddArgs.cross_platform args ?? None;
     Game.is_remake_or_remaster := AddArgs.is_remake_or_remaster args ?? None;
     Game.is_dlc := AddArgs.is_dlc args ?? None;
     Game.procedurally_generated := AddArgs.procedurally_generated args ?? None;
     Game.parent_game := parentGameId;
     Game.genre := AddArgs.genre args ?? None;
     Game.platforms := AddArgs.platforms args ?? None;
     Game.tags := AddArgs.tags args ?? None;
     Game.multiplayer_type := AddArgs.multiplayer_type args ?? None;
     Game.input_methods := AddArgs.input_methods args ?? None;
     Game.createdAt := now;
     Game.updatedAt := now |}.

(** The handler (lines 50-189).  A parent_game that is not nullish is a
    string at run time, a document id included, so the branch of lines
    84-92 is taken for it: the string is looked up as a normalized_name.
    The branch of lines 93-94 is taken for no argument the validator
    lets through. *)
Definition addGame (now : Z) (args : AddArgs.t) : M AddResult.t :=
  let releaseYear := AddArgs.release_year args ?? None in
  let releaseDecade := computeDecade releaseYear in
  let normalizedName := addGame_normalizedName args in
  existing <- (rows <- query (by_normalized_name normalizedName) ;; unique rows) ;;
  match existing with
  | Some existing =>
      let aliases := AddArgs.aliases args ?? None in
      match aliases with
      | Some ((_ :: _) as al) =>
          for_of al (fun a =>
            match normalizeString (Val a) with
            | None | Some EmptyString => ret tt
            | Some aliasNorm =>
                insert_alias (fun i =>
                  {| Alias._id := i;
                     Alias.gameId := Game._id existing;
                     Alias.alias := aliasNorm;
                     Alias.notes := None |}) ;;
                ret tt
            end)
      | _ => ret tt
      end ;;
      ret {| AddResult._id := Game._id existing; AddResult.inserted := false |}
  | None =>
      parentGameId <-
        match AddArgs.parent_game args with
        | Val parentRaw =>
            parent <- (rows <- query (by_normalized_name parentRaw) ;; unique rows) ;;
            ret (option_map Game._id parent)
        | Absent | Null => ret None
        end ;;
      gameId <- insert_game
        (addGame_document now args normalizedName releaseYear releaseDecade parentGameId) ;;
      safeInsertMany gameId releaseYear releaseDecade
        game_platforms (AddArgs.platforms args ?? None) ;;
      safeInsertMany gameId releaseYear releaseDecade
        game_genres (AddArgs.genre args ?? None) ;;
      safeInsertMany gameId releaseYear releaseDecade
        game_tags (AddArgs.tags args ?? None) ;;
      safeInsertMany gameId releaseYear releaseDecade
        game_multiplayer (AddArgs.multiplayer_type args ?? None) ;;
      safeInsertMany gameId releaseYear releaseDecade
        game_inputs (AddArgs.input_methods args ?? None) ;;
      let aliases := AddArgs.aliases args ?? None in
      match aliases with
      | Some ((_ :: _) as al) =>
          for_of al (fun a =>
            match normalizeString (Val a) with
            | None | Some EmptyString => ret tt
            | Some aliasNorm =>
                insert_alias (fun i =>
                  {| Alias._id := i;
                     Alias.gameId := gameId;
                     Alias.alias := aliasNorm;
                     Alias.notes := None |}) ;;
                ret tt
            end)
      | _ => ret tt
      end ;;
      ret {| AddResult._id := gameId; AddResult.inserted := true |}
  end.

(** ** updateGame (ingest module, lines 252-436) *)

Module UpdateArgs.
Record t : Type := mk {
    id : Id;
    display_name : option string;
    normalized_name : arg string;
    summary : option string;
    release_year : arg number;
    developer : arg string;
    publisher : arg string;
    franchise : arg string;
    genre : arg (list string);
    platforms : arg (list string);
    age_rating : arg string;
    setting : arg string;
    perspective : arg string;
    world_type : arg string;
    multiplayer_type : arg (list string);
    input_methods : arg (list string);
    story_focus : arg string;
    playtime_hours : arg number;
    tags : arg (list string);
    rating : arg number;
    price_model : arg string;
    has_microtransactions : arg bool;
    is_vr : arg bool;
    has_mods : arg bool;
    requires_online : arg bool;
    cross_platform : arg bool;
    is_remake_or_remaster : arg bool;
    is_dlc : arg bool;
    parent_game : arg string;
    procedurally_generated : arg bool;
    aliases : arg (list string)
  }.
End UpdateArgs.

Module UpdateResult.
Record t : Type := mk { _id : Id; updated : bool }.
End UpdateResult.

(** [clearJoin] (lines 345-361) at one of the five attribute tables. *)
Definition clearJoin (id : Id) (table : join_table) : M unit :=
  rows <- query (fun s => firstn 1000 (join_by_game table id s)) ;;
  for_of rows (fun r => delete_join table (Join._id r)).

(** [clearJoin] at the table game_aliases, whose rows have another shape. *)
Definition clearJoin_game_aliases (id : Id) : M unit :=
  rows <- query (fun s => firstn 1000 (alias_by_game id s)) ;;
  for_of rows (fun r => delete_alias (Alias._id r)).

(** [args.parent_game ?? existing.parent_game] as a value of the schema
    of games, [v.union(v.id("games"), v.null())]: a string that is no
    id of games has none. *)
Definition schema_parent (parent : arg string) (stored : option Id) : option (option Id) :=
  match parent with
  | Val raw => option_map Some (games_id raw)
  | Absent | Null => Some stored
  end.

(** The document written by [ctx.db.patch] (lines 301-342), with the
    parent the schema admits: every field of the patch object, and the
    fields it leaves out taken from the stored document [old]. *)
Definition updateGame_document (now : Z) (args : UpdateArgs.t) (existing : Game.t)
    (releaseYear releaseDecade : option number) (normalizedName : string)
    (parent : option Id) (old : Game.t) : Game.t :=
  {| Game._id := Game._id old;
     Game.display_name :=
       of_optional (UpdateArgs.display_name args) ??! Game.display_name existing;
     Game.normalized_name := normalizedName;
     Game.aliases := Game.aliases old;
     Game.summary := of_optional (UpdateArgs.summary args) ??! Game.summary existing;
     Game.franchise := UpdateArgs.franchise args ?? Game.franchise existing;
     Game.developer := UpdateArgs.developer args ?? Game.developer existing;
     Game.publisher := UpdateArgs.publisher args ?? Game.publisher existing;
     Game.release_year := releaseYear;
     Game.release_decade := releaseDecade;
     Game.age_rating := UpdateArgs.age_rating args ?? Game.age_rating existing;
     Game.setting := UpdateArgs.setting args ?? Game.setting existing;
     Game.perspective := UpdateArgs.perspective args ?? Game.perspective existing;
     Game.world_type := UpdateArgs.world_type args ?? Game.world_type existing;
     Game.price_model := UpdateArgs.price_model args ?? Game.price_model existing;
     Game.story_focus := UpdateArgs.story_focus args ?? Game.story_focus existing;
     Game.playtime_hours :=
       UpdateArgs.playtime_hours args ?? Game.playtime_hours existing;
     Game.rating := UpdateArgs.rating args ?? Game.rating existing;
     Game.has_microtransactions :=
       UpdateArgs.has_microtransactions args ?? Game.has_microtransactions existing;
     Game.is_vr := UpdateArgs.is_vr args ?? Game.is_vr existing;
     Game.has_mods := UpdateArgs.has_mods args ?? Game.has_mods existing;
     Game.requires_online :=
       UpdateArgs.requires_online args ?? Game.requires_online existing;
     Game.cross_platform :=
       UpdateArgs.cross_platform args ?? Game.cross_platform existing;
     Game.is_remake_or_remaster :=
       UpdateArgs.is_remake_or_remaster args ?? Game.is_remake_or_remaster existing;
     Game.is_dlc := UpdateArgs.is_dlc args ?? Game.is_dlc existing;
     Game.procedurally_generated :=
       UpdateArgs.procedurally_generated args ?? Game.procedurally_generated existing;
     Game.parent_game := parent;
     Game.genre := UpdateArgs.genre args ?? Game.genre existing;
     Game.platforms := UpdateArgs.platforms args ?? Game.platforms existing;
     Game.tags := UpdateArgs.tags args ?? Game.tags existing;
     Game.multiplayer_type :=
       UpdateArgs.multiplayer_type args ?? Game.multiplayer_type existing;
     Game.input_methods :=
       UpdateArgs.input_methods args ?? Game.input_methods existing;
     Game.createdAt := Game.createdAt old;
     Game.updatedAt := now |}.

(** The patched document, when the schema admits it. *)
Definition updateGame_patch (now : Z) (args : UpdateArgs.t) (existing : Game.t)
    (releaseYear releaseDecade : option number) (normalizedName : string)
    (old : Game.t) : option Game.t :=
  option_map
    (fun parent =>
       updateGame_document now args existing releaseYear releaseDecade normalizedName
         parent old)
    (schema_parent (UpdateArgs.parent_game args) (Game.parent_game existing)).

Definition updateGame (now : Z) (args : UpdateArgs.t) : M UpdateResult.t :=
  let id := UpdateArgs.id args in
  existing <- db_get id ;;
  match existing with
  | None => ret {| UpdateResult._id := id; UpdateResult.updated := false |}
  | Some existing =>
      let releaseYear := UpdateArgs.release_year args ?? Game.release_year existing in
      let releaseDecade := computeDecade releaseYear in
      let normalizedName :=
        UpdateArgs.normalized_name args
          ??! of_optional (UpdateArgs.display_name args)
          ??! Game.normalized_name existing in
      patch_game id
        (updateGame_patch now args existing releaseYear releaseDecade normalizedName) ;;
      when (not_nullish (UpdateArgs.platforms args))
        (clearJoin id game_platforms ;;
         safeInsertMany id releaseYear releaseDecade
           game_platforms (UpdateArgs.platforms args ?? None)) ;;
      when (not_nullish (UpdateArgs.genre args))
        (clearJoin id game_genres ;;
         safeInsertMany id releaseYear releaseDecade
           game_genres (UpdateArgs.genre args ?? None)) ;;
      when (not_nullish (UpdateArgs.tags args))
        (clearJoin id game_tags ;;
         safeInsertMany id releaseYear releaseDecade
           game_tags (UpdateArgs.tags args ?? None)) ;;
      when (not_nullish (UpdateArgs.multiplayer_type args))
        (clearJoin id game_multiplayer ;;
         safeInsertMany id releaseYear releaseDecade
           game_multiplayer (UpdateArgs.multiplayer_type args ?? None)) ;;
      when (not_nullish (UpdateArgs.input_methods args))
        (clearJoin id game_inputs ;;
         safeInsertMany id releaseYear releaseDecade
           game_inputs (UpdateArgs.input_methods args ?? None)) ;;
      when (not_nullish (UpdateArgs.aliases args))
        (clearJoin_game_aliases id ;;
         let aliases := UpdateArgs.aliases args ?? None in
         match aliases with
         | Some ((_ :: _) as al) =>
             for_of al (fun a =>
               match normalizeString (Val a) with
               | None | Some EmptyString => ret tt
               | Some aliasNorm =>
                   insert_alias (fun i =>
                     {| Alias._id := i;
                        Alias.gameId := id;
                        Alias.alias := aliasNorm;
                        Alias.notes := None |}) ;;
                   ret tt
               end)
         | _ => ret tt
         end) ;;
      ret {| UpdateResult._id := id; UpdateResult.updated := true |}
  end.

(** ** Full-text search and pagination

    The ranking of a search index and the encoding of pagination
    cursors belong to the platform.  The handlers are parameterised
    over them: [full_text ix q rows] is the ranked list of the rows
    that the search index [ix] matches for the query [q], and
    [paginate rows n c] is the page of at most [n] rows that follows
    the cursor [c] in the index range [rows]. *)

Record search_index : Type := { searchField : Game.t -> option string }.

Definition search_display_name : search_index :=
  {| searchField := fun g => Some (Game.display_name g) |}.
Definition search_normalized_name : search_index :=
  {| searchField := fun g => Some (Game.normalized_name g) |}.
Definition search_summary : search_index :=
  {| searchField := fun g => Some (Game.summary g) |}.
Definition search_developer : search_index :=
  {| searchField := Game.developer |}.
Definition search_publisher : search_index :=
  {| searchField := Game.publisher |}.

Module Page.
Record t : Type := mk {
    page : list Game.t;
    isDone : bool;
    continueCursor : option string
  }.
End Page.

Module UpsertArgs.
Record t : Type := mk {
    title : string;
    aliases : list string;
    notes : arg string
  }.
End UpsertArgs.

Module UpsertResult.
Record t : Type := mk { _id : option Id; upserted : nat }.
End UpsertResult.

(** [Math.max(1, Math.min(limit ?? dflt, cap))] *)
Definition clamp_limit (limit : option Z) (dflt cap : Z) : nat :=
  Z.to_nat (Z.max 1 (Z.min (match limit with Some n => n | None => dflt end) cap)).

(** The filter of [searchGamesByName] (lines 43-50); [seen] holds the
    keys of the object of the same name. *)
Fixpoint filter_unseen (seen : list Id) (rows : list Game.t) : list Game.t :=
  match rows with
  | [] => []
  | g :: rows' =>
      if existsb (Nat.eqb (Game._id g)) seen
      then filter_unseen seen rows'
      else g :: filter_unseen (Game._id g :: seen) rows'
  end.

(** The index range [withIndex(ix, q => q.eq(field, key))] on games,
    for an optional string field. *)
Definition by_field (field : Game.t -> option string) (key : string) (s : store)
  : list Game.t :=
  filter (fun g => match field g with
                   | Some x => String.eqb x key
                   | None => false
                   end) (games s).

Section Handlers.

Variable full_text : search_index -> string -> list Game.t -> list Game.t.
Variable paginate : list Game.t -> nat -> option string -> Page.t.

(** *** upsertAliases (ingest module, lines 192-250) *)

Definition upsertAliases (args : UpsertArgs.t) : M UpsertResult.t :=
  let title := UpsertArgs.title args in
  let normalizedCandidate := normalizeString (Val title) in
  game <- (rows <- query (by_normalized_name title) ;; unique rows) ;;
  game <-
    match game, normalizedCandidate with
    | None, Some ((String _ _) as candidate) =>
        if negb (String.eqb candidate title)
        then rows <- query (by_normalized_name candidate) ;; unique rows
        else ret game
    | _, _ => ret game
    end ;;
  game <-
    match game with
    | None =>
        hits <- query (fun s => firstn 1 (full_text search_display_name title (games s))) ;;
        ret (nth_error hits 0)
    | Some _ => ret game
    end ;;
  match game with
  | None => ret {| UpsertResult._id := None; UpsertResult.upserted := 0 |}
  | Some game =>
      upserted <-
        for_of_acc (UpsertArgs.aliases args) 0 (fun upserted a =>
          match normalizeString (Val a) with
          | None | Some EmptyString => ret upserted
          | Some aliasNorm =>
              existingForAlias <- query (fun s => firstn 50 (by_alias aliasNorm s)) ;;
              let already :=
                existsb (fun row => Nat.eqb (Alias.gameId row) (Game._id game))
                        existingForAlias in
              if already then ret upserted
              else
                insert_alias (fun i =>
                  {| Alias._id := i;
                     Alias.gameId := Game._id game;
                     Alias.alias := aliasNorm;
                     Alias.notes := UpsertArgs.notes args ?? None |}) ;;
                ret (upserted + 1)
          end) ;;
      ret {| UpsertResult._id := Some (Game._id game);
             UpsertResult.upserted := upserted |}
  end.

(** *** Queries (query module) *)

(** [searchGamesByName] (lines 23-53) *)
Definition searchGamesByName (q : string) (limit : option Z) (s : store)
  : list Game.t :=
  let limit := clamp_limit limit 20 50 in
  let byDisplay := firstn limit (full_text search_display_name q (games s)) in
  let byNormalized := firstn limit (full_text search_normalized_name q (games s)) in
  let merged := filter_unseen [] (byDisplay ++ byNormalized) in
  firstn limit merged.

(** [listGamesByDeveloper] (lines 89-114) *)
Definition listGamesByDeveloper (developer : string) (cursor : option string)
    (limit : option Z) (s : store) : Page.t :=
  let limit := clamp_limit limit 25 100 in
  let page :=
    paginate (by_field Game.developer developer s) limit cursor in
  if Nat.eqb (List.length (Page.page page)) 0 then
    let hits :=
      firstn limit (full_text search_developer developer (games s)) in
    {| Page.page := hits; Page.isDone := true; Page.continueCursor := None |}
  else page.

(** [listGamesByPublisher] (lines 116-139) *)
Definition listGamesByPublisher (publisher : string) (cursor : option string)
    (limit : option Z) (s : store) : Page.t :=
  let limit := clamp_limit limit 25 100 in
  let page :=
    paginate (by_field Game.publisher publisher s) limit cursor in
  if Nat.eqb (List.length (Page.page page)) 0 then
    let hits :=
      firstn limit (full_text search_publisher publisher (games s)) in
    {| Page.page := hits; Page.isDone := true; Page.continueCursor := None |}
  else page.

(** [listGamesByFranchise] (lines 263-288) *)
Definition listGamesByFranchise (franchise : string) (cursor : option string)
    (limit : option Z) (s : store) : Page.t :=
  let limit := clamp_limit limit 25 100 in
  let page :=
    paginate (by_field Game.franchise franchise s) limit cursor in
  if Nat.eqb (List.length (Page.page page)) 0 then
    let hits :=
      firstn limit (full_text search_display_name franchise (games s)) in
    {| Page.page := hits; Page.isDone := true; Page.continueCursor := None |}
  else page.

End Handlers.

(** ** Sample documents, stores and platform behaviours *)

(** [{display_name, summary, franchise, tags, aliases}]: every other
    optional field left out. *)
Definition doc_of (display_name : string) (franchise : arg string)
    (tags aliases : arg (list string)) : AddArgs.t :=
  {| AddArgs.display_name := display_name;
     AddArgs.normalized_name := Absent;
     AddArgs.summary := "A game.";
     AddArgs.release_year := Absent;
     AddArgs.developer := Absent;
     AddArgs.publisher := Absent;
     AddArgs.franchise := franchise;
     AddArgs.genre := Absent;
     AddArgs.platforms := Absent;
     AddArgs.age_rating := Absent;
     AddArgs.setting := Absent;
     AddArgs.perspective := Absent;
     AddArgs.world_type := Absent;
     AddArgs.multiplayer_type := Absent;
     AddArgs.input_methods := Absent;
     AddArgs.story_focus := Absent;
     AddArgs.playtime_hours := Absent;
     AddArgs.tags := tags;
     AddArgs.rating := Absent;
     AddArgs.price_model := Absent;
     AddArgs.has_microtransactions := Absent;
     AddArgs.is_vr := Absent;
     AddArgs.has_mods := Absent;
     AddArgs.requires_online := Absent;
     AddArgs.cross_platform := Absent;
     AddArgs.is_remake_or_remaster := Absent;
     AddArgs.is_dlc := Absent;
     AddArgs.parent_game := Absent;
     AddArgs.procedurally_generated := Absent;
     AddArgs.aliases := aliases |}.

(** [{id, display_name, release_year, tags, aliases}]: an update that
    leaves every other field out. *)
Definition update_of (id : Id) (display_name : option string)
    (release_year : arg number) (tags aliases : arg (list string)) : UpdateArgs.t :=
  {| UpdateArgs.id := id;
     UpdateArgs.display_name := display_name;
     UpdateArgs.normalized_name := Absent;
     UpdateArgs.summary := None;
     UpdateArgs.release_year := release_year;
     UpdateArgs.developer := Absent;
     UpdateArgs.publisher := Absent;
     UpdateArgs.franchise := Absent;
     UpdateArgs.genre := Absent;
     UpdateArgs.platforms := Absent;
     UpdateArgs.age_rating := Absent;
     UpdateArgs.setting := Absent;
     UpdateArgs.perspective := Absent;
     UpdateArgs.world_type := Absent;
     UpdateArgs.multiplayer_type := Absent;
     UpdateArgs.input_methods := Absent;
     UpdateArgs.story_focus := Absent;
     UpdateArgs.playtime_hours := Absent;
     UpdateArgs.tags := tags;
     UpdateArgs.rating := Absent;
     UpdateArgs.price_model := Absent;
     UpdateArgs.has_microtransactions := Absent;
     UpdateArgs.is_vr := Absent;
     UpdateArgs.has_mods := Absent;
     UpdateArgs.requires_online := Absent;
     UpdateArgs.cross_platform := Absent;
     UpdateArgs.is_remake_or_remaster := Absent;
     UpdateArgs.is_dlc := Absent;
     UpdateArgs.parent_game := Absent;
     UpdateArgs.procedurally_generated := Absent;
     UpdateArgs.aliases := aliases |}.

(** The state a handler leaves: the one it returns with, or the one it
    started from when it throws (the transaction is rolled back). *)
Definition state_after {A : Type} (r : result (A * store)) (s : store) : store :=
  match r with
  | Ok (_, s') => s'
  | Throw _ => s
  end.

Definition portal2 : AddArgs.t := doc_of "Portal 2" Absent Absent Absent.

(** One entity, "Portal 2", with identity 0. *)
Definition store_portal2 : store :=
  state_after (addGame 1000 portal2 empty_store) empty_store.

Definition portal2_row : Game.t :=
  addGame_document 1000 portal2 "Portal 2" None None None 0.

(** "Portal 2" ingested with the alias "P2". *)
Definition portal2_p2 : AddArgs.t := doc_of "Portal 2" Absent Absent (Val ["P2"]).

(** "Portal 2" ingested with the tags rpg and indie. *)
Definition portal2_rpg_indie : AddArgs.t :=
  doc_of "Portal 2" Absent (Val ["rpg"; "indie"]) Absent.

Definition store_rpg_indie : store :=
  state_after (addGame 1000 portal2_rpg_indie empty_store) empty_store.

Definition rpg_indie_row : Game.t :=
  addGame_document 1000 portal2_rpg_indie "Portal 2" None None None 0.

(** "Portal 2" ingested with 1001 tags. *)
Definition portal2_tagged : AddArgs.t :=
  doc_of "Portal 2" Absent (Val (repeat "rpg" 1001)) Absent.

Definition store_tagged : store :=
  state_after (addGame 1000 portal2_tagged empty_store) empty_store.

Definition tagged_row : Game.t :=
  addGame_document 1000 portal2_tagged "Portal 2" None None None 0.

(** [{id: 0, tags: ["roguelike"]}] *)
Definition retag : UpdateArgs.t := update_of 0 None Absent (Val ["roguelike"]) Absent.

(** "Portal 2" of the franchise "Aperture Science", then "Aperture Tag"
    of no franchise. *)
Definition store_aperture : store :=
  let s1 :=
    state_after
      (addGame 1000 (doc_of "Portal 2" (Val "Aperture Science") Absent Absent) empty_store)
      empty_store in
  state_after (addGame 1001 (doc_of "Aperture Tag" Absent Absent Absent) s1) s1.

(** A search that matches the rows whose search field starts with the
    query, letter case apart, in table order. *)
Definition prefix_search (ix : search_index) (q : string) (rows : list Game.t)
  : list Game.t :=
  filter (fun g => match searchField ix g with
                   | Some x => prefix (toLowerCase q) (toLowerCase x)
                   | None => false
                   end) rows.

(** A paginator that serves an index range as one page of at most [n]
    rows and an empty page after any cursor. *)
Definition one_page (rows : list Game.t) (n : nat) (cursor : option string) : Page.t :=
  match cursor with
  | None =>
      {| Page.page := firstn n rows;
         Page.isDone := Nat.leb (List.length rows) n;
         Page.continueCursor := Some "end" |}
  | Some _ =>
      {| Page.page := []; Page.isDone := true; Page.continueCursor := Some "end" |}
  end.

(** ** Vocabulary of the specifications *)

(** A handler returns from [s], with a result and a final state that
    satisfy [Q]. *)
Definition returns {A : Type} (m : M A) (s : store) (Q : A -> store -> Prop) : Prop :=
  exists a s', m s = Ok (a, s') /\ Q a s'.

(** If a handler returns from [s], its result and final state satisfy
    [Q]; it may throw. *)
Definition partial {A : Type} (m : M A) (s : store) (Q : A -> store -> Prop) : Prop :=
  match m s with
  | Ok (a, s') => Q a s'
  | Throw _ => True
  end.

(** The rows that [safeInsertMany] appends, with ids from [base] on. *)
Fixpoint new_join_rows (base gameId : Id) (releaseYear releaseDecade : option number)
    (vs : list string) : list Join.t :=
  match vs with
  | [] => []
  | v :: vs' =>
      {| Join._id := base;
         Join.gameId := gameId;
         Join.value := v;
         Join.release_year := releaseYear;
         Join.release_decade := releaseDecade |}
      :: new_join_rows (S base) gameId releaseYear releaseDecade vs'
  end.

(** The aliases of an array that an alias loop inserts: normalized, the
    empty ones skipped. *)
Definition normalized_aliases (al : list string) : list string :=
  filter (fun a => match a with EmptyString => false | String _ _ => true end)
         (map (fun a => toLowerCase (trim a)) al).

Fixpoint new_alias_rows (base gameId : Id) (notes : option string) (al : list string)
  : list Alias.t :=
  match al with
  | [] => []
  | a :: al' =>
      {| Alias._id := base; Alias.gameId := gameId; Alias.alias := a; Alias.notes := notes |}
      :: new_alias_rows (S base) gameId notes al'
  end.

(** [l] without the first [n] of its elements that satisfy [p]. *)
Fixpoint drop_first {A : Type} (n : nat) (p : A -> bool) (l : list A) : list A :=
  match l with
  | [] => []
  | x :: l' =>
      if p x
      then match n with
           | 0 => x :: l'
           | S n' => drop_first n' p l'
           end
      else x :: drop_first n p l'
  end.

(** The rows left in a table when the rows with the ids of [deleted]
    are deleted from it. *)
Definition without_ids {A : Type} (id : A -> Id) (deleted rows : list A) : list A :=
  filter (fun r => negb (existsb (Nat.eqb (id r)) (map id deleted))) rows.

(** The argument of [updateGame] that carries the array mirrored in an
    attribute table (lines 385-416). *)
Definition attribute_arg (tbl : join_table) (args : UpdateArgs.t) : arg (list string) :=
  match tbl with
  | game_platforms => UpdateArgs.platforms args
  | game_genres => UpdateArgs.genre args
  | game_tags => UpdateArgs.tags args
  | game_multiplayer => UpdateArgs.multiplayer_type args
  | game_inputs => UpdateArgs.input_methods args
  end.

(** What a join row says, its identity apart. *)
Definition join_payload (r : Join.t) : Id * string * option number * option number :=
  (Join.gameId r, Join.value r, Join.release_year r, Join.release_decade r).

Definition alias_payload (r : Alias.t) : Id * string * option string :=
  (Alias.gameId r, Alias.alias r, Alias.notes r).

(** The scalar attributes of an entity, as one family of fields with
    values in a sum of their types. *)
Inductive value : Type :=
| VString (s : string)
| VNumber (n : number)
| VBool (b : bool).

Inductive scalar_field : Type :=
| f_display_name | f_normalized_name | f_summary
| f_franchise | f_developer | f_publisher
| f_release_year | f_release_decade
| f_age_rating | f_setting | f_perspective | f_world_type
| f_price_model | f_story_focus
| f_playtime_hours | f_rating
| f_has_microtransactions | f_is_vr | f_has_mods | f_requires_online
| f_cross_platform | f_is_remake_or_remaster | f_is_dlc
| f_procedurally_generated
| f_parent_game.

Definition arg_map {A B : Type} (f : A -> B) (x : arg A) : arg B :=
  match x with
  | Absent => Absent
  | Null => Null
  | Val a => Val (f a)
  end.

(** The stored value of a scalar field of an entity. *)
Definition stored (f : scalar_field) (g : Game.t) : option value :=
  match f with
  | f_display_name => Some (VString (Game.display_name g))
  | f_normalized_name => Some (VString (Game.normalized_name g))
  | f_summary => Some (VString (Game.summary g))
  | f_franchise => option_map VString (Game.franchise g)
  | f_developer => option_map VString (Game.developer g)
  | f_publisher => option_map VString (Game.publisher g)
  | f_release_year => option_map VNumber (Game.release_year g)
  | f_release_decade => option_map VNumber (Game.release_decade g)
  | f_age_rating => option_map VString (Game.age_rating g)
  | f_setting => option_map VString (Game.setting g)
  | f_perspective => option_map VString (Game.perspective g)
  | f_world_type => option_map VString (Game.world_type g)
  | f_price_model => option_map VString (Game.price_model g)
  | f_story_focus => option_map VString (Game.story_focus g)
  | f_playtime_hours => option_map VNumber (Game.playtime_hours g)
  | f_rating => option_map VNumber (Game.rating g)
  | f_has_microtransactions => option_map VBool (Game.has_microtransactions g)
  | f_is_vr => option_map VBool (Game.is_vr g)
  | f_has_mods => option_map VBool (Game.has_mods g)
  | f_requires_online => option_map VBool (Game.requires_online g)
  | f_cross_platform => option_map VBool (Game.cross_platform g)
  | f_is_remake_or_remaster => option_map VBool (Game.is_remake_or_remaster g)
  | f_is_dlc => option_map VBool (Game.is_dlc g)
  | f_procedurally_generated => option_map VBool (Game.procedurally_generated g)
  | f_parent_game => option_map (fun i => VString (id_text i)) (Game.parent_game g)
  end.

(** The value an update payload carries for a scalar field.  The
    validator of [updateGame] has no release_decade argument. *)
Definition incoming (f : scalar_field) (args : UpdateArgs.t) : arg value :=
  match f with
  | f_display_name => arg_map VString (of_optional (UpdateArgs.display_name args))
  | f_normalized_name => arg_map VString (UpdateArgs.normalized_name args)
  | f_summary => arg_map VString (of_optional (UpdateArgs.summary args))
  | f_franchise => arg_map VString (UpdateArgs.franchise args)
  | f_developer => arg_map VString (UpdateArgs.developer args)
  | f_publisher => arg_map VString (UpdateArgs.publisher args)
  | f_release_year => arg_map VNumber (UpdateArgs.release_year args)
  | f_release_decade => Absent
  | f_age_rating => arg_map VString (UpdateArgs.age_rating args)
  | f_setting => arg_map VString (UpdateArgs.setting args)
  | f_perspective => arg_map VString (UpdateArgs.perspective args)
  | f_world_type => arg_map VString (UpdateArgs.world_type args)
  | f_price_model => arg_map VString (UpdateArgs.price_model args)
  | f_story_focus => arg_map VString (UpdateArgs.story_focus args)
  | f_playtime_hours => arg_map VNumber (UpdateArgs.playtime_hours args)
  | f_rating => arg_map VNumber (UpdateArgs.rating args)
  | f_has_microtransactions => arg_map VBool (UpdateArgs.has_microtransactions args)
  | f_is_vr => arg_map VBool (UpdateArgs.is_vr args)
  | f_has_mods => arg_map VBool (UpdateArgs.has_mods args)
  | f_requires_online => arg_map VBool (UpdateArgs.requires_online args)
  | f_cross_platform => arg_map VBool (UpdateArgs.cross_platform args)
  | f_is_remake_or_remaster => arg_map VBool (UpdateArgs.is_remake_or_remaster args)
  | f_is_dlc => arg_map VBool (UpdateArgs.is_dlc args)
  | f_procedurally_generated => arg_map VBool (UpdateArgs.procedurally_generated args)
  | f_parent_game => arg_map VString (UpdateArgs.parent_game args)
  end.

(** A field whose stored value is computed by [updateGame] rather than
    taken by [incoming ?? existing]. *)
Definition derived_field (f : scalar_field) : bool :=
  match f with
  | f_normalized_name | f_release_decade => true
  | _ => false
  end.

(** The decade of a year, as the data model defines it. *)
Definition decade_of (year : option number) (decade : option number) : Prop :=
  match year with
  | Some (Num y) =>
      exists d : Z, decade = Some (Num d) /\ (d mod 10 = 0)%Z /\ (d <= y < d + 10)%Z
  | Some NaN | None => decade = None
  end.

(** No two rows of a table share an identity. *)
Definition distinct_ids {A : Type} (id : A -> Id) (rows : list A) : Prop :=
  NoDup (map id rows).

(** The effect of a handler that touches one attribute table: [f] maps
    the rows of the table before to the rows after, [n] ids are drawn. *)
Definition join_effect (tbl : join_table) (f : list Join.t -> list Join.t) (n : nat)
    (s s' : store) : Prop :=
  next_id s' = next_id s + n
  /\ games s' = games s
  /\ game_aliases s' = game_aliases s
  /\ forall t, joins s' t = if join_table_eqb t tbl then f (joins s t) else joins s t.

(** The effect of a handler that touches the alias table only. *)
Definition alias_effect (f : list Alias.t -> list Alias.t) (n : nat)
    (s s' : store) : Prop :=
  next_id s' = next_id s + n
  /\ games s' = games s
  /\ joins s' = joins s
  /\ game_aliases s' = f (game_aliases s).

(** The rows of an attribute table after the block of [updateGame] that
    reconciles it with the argument [v] (lines 385-416): the first 1000
    rows of the entity deleted and one row per value appended when [v]
    is an array, the table as it was otherwise. *)
Definition reconcile_rows (id : Id) (releaseYear releaseDecade : option number)
    (v : arg (list string)) (base : Id) (rows : list Join.t) : list Join.t :=
  match v with
  | Val vs =>
      without_ids Join._id
        (firstn 1000 (filter (fun r => Nat.eqb (Join.gameId r) id) rows)) rows
      ++ new_join_rows base id releaseYear releaseDecade vs
  | Absent | Null => rows
  end.

(** The same for the alias table (lines 417-432). *)
Definition reconcile_aliases (id : Id) (v : arg (list string)) (base : Id)
    (rows : list Alias.t) : list Alias.t :=
  match v with
  | Val al =>
      without_ids Alias._id
        (firstn 1000 (filter (fun r => Nat.eqb (Alias.gameId r) id) rows)) rows
      ++ new_alias_rows base id None (normalized_aliases al)
  | Absent | Null => rows
  end.

(** The values [updateGame] resolves before it patches (lines 293-299). *)
Definition resolved_year (args : UpdateArgs.t) (existing : Game.t) : option number :=
  UpdateArgs.release_year args ?? Game.release_year existing.

Definition resolved_name (args : UpdateArgs.t) (existing : Game.t) : string :=
  UpdateArgs.normalized_name args
    ??! of_optional (UpdateArgs.display_name args)
    ??! Game.normalized_name existing.

(** The parent an update stores: the id that the argument is, or the
    stored parent when the argument is absent or null. *)
Definition resolved_parent_id (args : UpdateArgs.t) (existing : Game.t) : option Id :=
  match UpdateArgs.parent_game args with
  | Val raw => games_id raw
  | Absent | Null => Game.parent_game existing
  end.

(** The schema of games admits the parent of the update: it is absent,
    null, or the id of a document of games.  [updateGame] throws on any
    other string. *)
Definition parent_admitted (args : UpdateArgs.t) : Prop :=
  match UpdateArgs.parent_game args with
  | Val raw => games_id raw <> None
  | Absent | Null => True
  end.

(** The entity [old] after the patch of an update that read [existing]. *)
Definition updated_game (now : Z) (args : UpdateArgs.t) (existing old : Game.t) : Game.t :=
  updateGame_document now args existing
    (resolved_year args existing)
    (computeDecade (resolved_year args existing))
    (resolved_name args existing)
    (resolved_parent_id args existing)
    old.

(** The argument of [addGame] that carries the array mirrored in an
    attribute table (lines 158-174). *)
Definition add_attribute_arg (tbl : join_table) (args : AddArgs.t) : arg (list string) :=
  match tbl with
  | game_platforms => AddArgs.platforms args
  | game_genres => AddArgs.genre args
  | game_tags => AddArgs.tags args
  | game_multiplayer => AddArgs.multiplayer_type args
  | game_inputs => AddArgs.input_methods args
  end.

(** An array argument as the list of its elements, empty when it is
    absent or null. *)
Definition elements {A : Type} (v : arg (list A)) : list A :=
  match v with
  | Val l => l
  | Absent | Null => []
  end.

(** What [addGame] does when no entity has the key: a new entity, its
    join rows and its aliases. *)
Definition addGame_inserts (now : Z) (args : AddArgs.t) (s : store)
    (r : AddResult.t) (s' : store) : Prop :=
  let key := addGame_normalizedName args in
  let ry := AddArgs.release_year args ?? None in
  let rd := computeDecade ry in
  by_normalized_name key s = []
  /\ r = {| AddResult._id := next_id s; AddResult.inserted := true |}
  /\ (exists parent,
        games s' = games s ++ [addGame_document now args key ry rd parent (next_id s)])
  /\ (forall tbl, exists base,
        next_id s < base
        /\ joins s' tbl
           = joins s tbl
             ++ new_join_rows base (next_id s) ry rd (elements (add_attribute_arg tbl args)))
  /\ (exists base,
        next_id s < base
        /\ game_aliases s'
           = game_aliases s
             ++ new_alias_rows base (next_id s) None
                  (normalized_aliases (elements (AddArgs.aliases args))))
  /\ next_id s < next_id s'.

(** What [addGame] does when one entity [g] has the key: nothing but
    attaching the aliases to [g]. *)
Definition addGame_skips (args : AddArgs.t) (s : store)
    (r : AddResult.t) (s' : store) : Prop :=
  exists g,
    by_normalized_name (addGame_normalizedName args) s = [g]
    /\ r = {| AddResult._id := Game._id g; AddResult.inserted := false |}
    /\ games s' = games s
    /\ joins s' = joins s
    /\ game_aliases s'
       = game_aliases s
         ++ new_alias_rows (next_id s) (Game._id g) None
              (normalized_aliases (elements (AddArgs.aliases args)))
    /\ next_id s <= next_id s'.

(** The page a listing with fallback answers with: the page of the
    exact index when it has a row, the search hits as a terminal page
    otherwise. *)
Definition fallback_page (exact : Page.t) (hits : list Game.t) : Page.t :=
  match Page.page exact with
  | [] => {| Page.page := hits; Page.isDone := true; Page.continueCursor := None |}
  | _ :: _ => exact
  end.

(** The rows of a list without the later occurrences of an identity. *)
Fixpoint first_occurrences (rows : list Game.t) : list Game.t :=
  match rows with
  | [] => []
  | g :: rows' =>
      g :: filter (fun h => negb (Nat.eqb (Game._id h) (Game._id g)))
                  (first_occurrences rows')
  end.

(** [g] has the identity of a row of [rows]. *)
Definition has_id (rows : list Game.t) (g : Game.t) : bool :=
  existsb (Nat.eqb (Game._id g)) (map Game._id rows).

(** The invariant of the data model: no two entities share a
    normalized_name. *)
Definition unique_names (s : store) : Prop :=
  NoDup (map Game.normalized_name (games s)).

(** The identities of a table are distinct and drawn from the counter. *)
Definition table_ok {A : Type} (id : A -> Id) (n : Id) (rows : list A) : Prop :=
  (forall r, In r rows -> id r < n) /\ distinct_ids id rows.

Definition well_formed (s : store) : Prop :=
  table_ok Game._id (next_id s) (games s)
  /\ (forall t, table_ok Join._id (next_id s) (joins s t))
  /\ table_ok Alias._id (next_id s) (game_aliases s).

(** The stores the mutations build from the empty one. *)
Inductive reachable : store -> Prop :=
| reachable_empty : reachable empty_store
| reachable_addGame now args s r s' :
    reachable s -> addGame now args s = Ok (r, s') -> reachable s'
| reachable_updateGame now args s r s' :
    reachable s -> updateGame now args s = Ok (r, s') -> reachable s'
| reachable_upsertAliases full_text args s r s' :
    reachable s -> upsertAliases full_text args s = Ok (r, s') -> reachable s'.

(** A handler keeps an invariant of the store, when it returns. *)
Definition preserves {A : Type} (I : store -> Prop) (m : M A) : Prop :=
  forall s, I s -> partial m s (fun _ s' => I s').

(** ** Point lookups and attribute listings (query module) *)

(** [getGameById] (lines 4-9) *)
Definition getGameById (id : Id) (s : store) : option Game.t := get_game id s.

(** [getGameByNormalizedName] (lines 11-21) *)
Definition getGameByNormalizedName (normalized_name : string) : M (option Game.t) :=
  rows <- query (by_normalized_name normalized_name) ;; unique rows.

Module JoinPage.
Record t : Type := mk {
    page : list Join.t;
    isDone : bool;
    continueCursor : option string
  }.
End JoinPage.

(** The index ranges [by_platform], [by_genre], [by_tag] (an equality
    on the value) and [by_platform_decade], [by_genre_decade],
    [by_tag_decade] (an equality on the value and on the decade). *)
Definition by_value (tbl : join_table) (value : string) (s : store) : list Join.t :=
  filter (fun r => String.eqb (Join.value r) value) (joins s tbl).

Definition number_is (decade : Z) (stored_decade : option number) : bool :=
  match stored_decade with
  | Some (Num d) => Z.eqb d decade
  | Some NaN | None => false
  end.

Definition by_value_decade (tbl : join_table) (value : string) (decade : Z) (s : store)
  : list Join.t :=
  filter (fun r => String.eqb (Join.value r) value
                   && number_is decade (Join.release_decade r))
         (joins s tbl).

(** The index ranges [by_release_decade] and [by_release_year] of games. *)
Definition by_release_decade (decade : Z) (s : store) : list Game.t :=
  filter (fun g => number_is decade (Game.release_decade g)) (games s).

Definition by_release_year (year : Z) (s : store) : list Game.t :=
  filter (fun g => number_is year (Game.release_year g)) (games s).

(** [games.filter(Boolean)] after [page.map(r => ctx.db.get(r.gameId))]. *)
Fixpoint dereference (rows : list Join.t) (s : store) : list Game.t :=
  match rows with
  | [] => []
  | r :: rows' =>
      match get_game (Join.gameId r) s with
      | Some g => g :: dereference rows' s
      | None => dereference rows' s
      end
  end.

Section Listings.

Variable paginate : list Game.t -> nat -> option string -> Page.t.
Variable paginate_join : list Join.t -> nat -> option string -> JoinPage.t.

(** The body shared by [listGamesByPlatform], [listGamesByGenre] and
    [listGamesByTag]. *)
Definition list_by_attribute (tbl : join_table) (value : string) (decade : option Z)
    (cursor : option string) (limit : option Z) (s : store) : Page.t :=
  let limit := clamp_limit limit 25 100 in
  let q :=
    match decade with
    | Some d => by_value_decade tbl value d s
    | None => by_value tbl value s
    end in
  let page := paginate_join q limit cursor in
  let games := dereference (JoinPage.page page) s in
  {| Page.page := games;
     Page.isDone := JoinPage.isDone page;
     Page.continueCursor := JoinPage.continueCursor page |}.

(** [listGamesByPlatform] (lines 141-164) *)
Definition listGamesByPlatform (platform : string) (decade : option Z)
    (cursor : option string) (limit : option Z) (s : store) : Page.t :=
  list_by_attribute game_platforms platform decade cursor limit s.

(** [listGamesByGenre] (lines 166-189) *)
Definition listGamesByGenre (genre : string) (decade : option Z)
    (cursor : option string) (limit : option Z) (s : store) : Page.t :=
  list_by_attribute game_genres genre decade cursor limit s.

(** [listGamesByTag] (lines 191-214) *)
Definition listGamesByTag (tag : string) (decade : option Z)
    (cursor : option string) (limit : option Z) (s : store) : Page.t :=
  list_by_attribute game_tags tag decade cursor limit s.

(** [listGamesByDecade] (lines 55-71) *)
Definition listGamesByDecade (decade : Z) (cursor : option string) (limit : option Z)
    (s : store) : Page.t :=
  let limit := clamp_limit limit 25 100 in
  paginate (by_release_decade decade s) limit cursor.

(** [listGamesByYear] (lines 73-87) *)
Definition listGamesByYear (year : Z) (cursor : option string) (limit : option Z)
    (s : store) : Page.t :=
  let limit := clamp_limit limit 25 100 in
  paginate (by_release_year year s) limit cursor.

End Listings.

(** A paginator serves rows of the range it is given, at most [n] of
    them, in the order of the range. *)
Fixpoint sublist {A : Type} (l1 l2 : list A) : Prop :=
  match l1, l2 with
  | [], _ => True
  | _ :: _, [] => False
  | x :: l1', y :: l2' => (x = y /\ sublist l1' l2') \/ sublist l1 l2'
  end.

Definition pages_of_range (paginate : list Game.t -> nat -> option string -> Page.t)
  : Prop :=
  forall rows n cursor,
    sublist (Page.page (paginate rows n cursor)) rows
    /\ List.length (Page.page (paginate rows n cursor)) <= n.

Definition join_pages_of_range
    (paginate_join : list Join.t -> nat -> option string -> JoinPage.t) : Prop :=
  forall rows n cursor,
    sublist (JoinPage.page (paginate_join rows n cursor)) rows
    /\ List.length (JoinPage.page (paginate_join rows n cursor)) <= n.

(** A join paginator like [one_page]. *)
Definition one_join_page (rows : list Join.t) (n : nat) (cursor : option string)
  : JoinPage.t :=
  match cursor with
  | None =>
      {| JoinPage.page := firstn n rows;
         JoinPage.isDone := Nat.leb (List.length rows) n;
         JoinPage.continueCursor := Some "end" |}
  | Some _ =>
      {| JoinPage.page := []; JoinPage.isDone := true;
         JoinPage.continueCursor := Some "end" |}
  end.

(** ** More vocabulary *)

(** The parent [addGame] stores (lines 82-97): the entity named by the
    string, be it a name or an id. *)
Definition resolved_parent (args : AddArgs.t) (s : store) : option Id :=
  match AddArgs.parent_game args with
  | Val parentRaw => option_map Game._id (hd_error (by_normalized_name parentRaw s))
  | Absent | Null => None
  end.

(** Every entity holds the decade of its year. *)
Definition decades_consistent (s : store) : Prop :=
  (forall g, In g (games s) ->
     Game.release_decade g = computeDecade (Game.release_year g))
  /\ (forall tbl r, In r (joins s tbl) ->
       Join.release_decade r = computeDecade (Join.release_year r)).

(** "Portal 2: Peer Review", a child of "Portal 2" given by name, and
    the same with a name in another letter case. *)
Definition peer_review (parent : string) : AddArgs.t :=
  {| AddArgs.display_name := "Portal 2: Peer Review";
     AddArgs.normalized_name := Val "portal 2: peer review";
     AddArgs.summary := "A level pack.";
     AddArgs.release_year := Val (Num 2011);
     AddArgs.developer := Val "Valve";
     AddArgs.publisher := Null;
     AddArgs.franchise := Absent;
     AddArgs.genre := Val ["puzzle"];
     AddArgs.platforms := Val ["PC"; "PS3"];
     AddArgs.age_rating := Absent;
     AddArgs.setting := Absent;
     AddArgs.perspective := Absent;
     AddArgs.world_type := Absent;
     AddArgs.multiplayer_type := Absent;
     AddArgs.input_methods := Absent;
     AddArgs.story_focus := Absent;
     AddArgs.playtime_hours := Absent;
     AddArgs.tags := Absent;
     AddArgs.rating := Absent;
     AddArgs.price_model := Absent;
     AddArgs.has_microtransactions := Absent;
     AddArgs.is_vr := Val false;
     AddArgs.has_mods := Absent;
     AddArgs.requires_online := Absent;
     AddArgs.cross_platform := Absent;
     AddArgs.is_remake_or_remaster := Absent;
     AddArgs.is_dlc := Val true;
     AddArgs.parent_game := Val parent;
     AddArgs.procedurally_generated := Absent;
     AddArgs.aliases := Absent |}.

(** "Portal 2" and its level pack. *)
Definition store_peer_review : store :=
  state_after (addGame 1500 (peer_review "Portal 2") store_portal2) store_portal2.

(** "Portal 2" and its level pack, after an update that gives the level
    pack the display_name "Portal 2" and no normalized_name. *)
Definition store_clash : store :=
  state_after
    (updateGame 2500 (update_of 1 (Some "Portal 2") Absent Absent Absent) store_peer_review)
    store_peer_review.

(** An update payload in which every field is absent or null. *)
Definition supplies_nothing (args : UpdateArgs.t) : Prop :=
  (forall f, not_nullish (incoming f args) = false)
  /\ (forall tbl, not_nullish (attribute_arg tbl args) = false)
  /\ not_nullish (UpdateArgs.aliases args) = false.

(** ** Vocabulary for [upsertAliases] *)

(** The rows of a games table under a normalized_name. *)
Definition named (name : string) (rows : list Game.t) : list Game.t :=
  filter (fun g => String.eqb (Game.normalized_name g) name) rows.

(** The entity a title stands for in [upsertAliases] (lines 203-225),
    read from the rows of games: the one row named by the title as
    given; with no such row, the one row named by the normalized title,
    when that is not empty and is not the title itself; with neither,
    the first hit of the display_name search.  Two rows under a name
    that is looked up make the call throw. *)
Definition title_target
    (full_text : search_index -> string -> list Game.t -> list Game.t)
    (title : string) (rows : list Game.t) : result (option Game.t) :=
  match named title rows with
  | [g] => Ok (Some g)
  | _ :: _ :: _ => Throw NotUnique
  | [] =>
      let candidate := toLowerCase (trim title) in
      let second :=
        if String.eqb candidate EmptyString || String.eqb candidate title
        then []
        else named candidate rows in
      match second with
      | [g] => Ok (Some g)
      | _ :: _ :: _ => Throw NotUnique
      | [] => Ok (hd_error (full_text search_display_name title rows))
      end
  end.

(** The body of the loop of [upsertAliases] (lines 231-247), for the
    entity the title resolved to. *)
Definition upsert_alias (args : UpsertArgs.t) (game : Game.t) (upserted : nat)
    (a : string) : M nat :=
  match normalizeString (Val a) with
  | None | Some EmptyString => ret upserted
  | Some aliasNorm =>
      existingForAlias <- query (fun s => firstn 50 (by_alias aliasNorm s)) ;;
      let already :=
        existsb (fun row => Nat.eqb (Alias.gameId row) (Game._id game))
                existingForAlias in
      if already then ret upserted
      else
        insert_alias (fun i =>
          {| Alias._id := i;
             Alias.gameId := Game._id game;
             Alias.alias := aliasNorm;
             Alias.notes := UpsertArgs.notes args ?? None |}) ;;
        ret (upserted + 1)
  end.

(** What identifies an alias row for the lookups: the entity and the
    alias. *)
Definition alias_key (r : Alias.t) : Id * string := (Alias.gameId r, Alias.alias r).

(** An alias row of [id] for the alias [a]. *)
Definition has_alias (id : Id) (a : string) (rows : list Alias.t) : Prop :=
  exists r, In r rows /\ Alias.gameId r = id /\ Alias.alias r = a.

(** [{title: "Portal 2", aliases: ["P2", " p2 ", "  "], notes: "fan name"}] *)
Definition p2_aliases : UpsertArgs.t :=
  {| UpsertArgs.title := "Portal 2";
     UpsertArgs.aliases := ["P2"; " p2 "; "  "];
     UpsertArgs.notes := Val "fan name" |}.

(** ** Vocabulary for the listings *)

(** Every row of an attribute table refers to a stored entity. *)
Definition references_ok (s : store) : Prop :=
  forall tbl r, In r (joins s tbl) ->
    exists g, In g (games s) /\ Game._id g = Join.gameId r.

(** Without a cursor, a paginator serves the first [n] rows of the
    range. *)
Definition first_page_in_order
    (paginate_join : list Join.t -> nat -> option string -> JoinPage.t) : Prop :=
  forall rows n, JoinPage.page (paginate_join rows n None) = firstn n rows.

(** ** The HTTP action [ingestNdjson] (http module, lines 5-57) *)

(** A value [JSON.parse] returns.  The numbers are the integers, as
    everywhere in the embedding; an object is the list of its
    properties, each key once. *)
#[warnings="-register-all"]
Inductive json : Type :=
| JNull
| JBool (b : bool)
| JNumber (n : Z)
| JString (s : string)
| JArray (items : list json)
| JObject (fields : list (string * json)).

(** [obj.key] for one of the keys the action reads; [None] is
    undefined. *)
Definition property (obj : json) (key : string) : option json :=
  match obj with
  | JObject fields =>
      option_map snd (find (fun kv => String.eqb (fst kv) key) fields)
  | JNull | JBool _ | JNumber _ | JString _ | JArray _ => None
  end.

(** The truth value of [x] in a condition. *)
Definition truthy (x : option json) : bool :=
  match x with
  | None | Some JNull => false
  | Some (JBool b) => b
  | Some (JNumber n) => negb (Z.eqb n 0)
  | Some (JString s) => negb (String.eqb s EmptyString)
  | Some (JArray _) | Some (JObject _) => true
  end.

(** [typeof x === "object"] *)
Definition typeof_object (x : option json) : bool :=
  match x with
  | Some JNull | Some (JArray _) | Some (JObject _) => true
  | _ => false
  end.

(** [typeof x === "string"] *)
Definition typeof_string (x : option json) : bool :=
  match x with
  | Some (JString _) => true
  | _ => false
  end.

(** [Array.isArray(x)] *)
Definition isArray (x : option json) : bool :=
  match x with
  | Some (JArray _) => true
  | _ => false
  end.

(** The condition of lines 28-34: the object looks like an alias
    object. *)
Definition alias_shaped (obj : json) : bool :=
  truthy (Some obj)
  && typeof_object (Some obj)
  && truthy (property obj "title")
  && typeof_string (property obj "title")
  && isArray (property obj "aliases").

(** *** The argument validators of the two mutations

    [ctx.runMutation] checks the argument against the [args] of the
    mutation and throws when it does not fit.  A validator gives the
    validated value, or [None] for the exception. *)

Definition v_string (x : json) : option string :=
  match x with
  | JString s => Some s
  | _ => None
  end.

Definition v_float64 (x : json) : option number :=
  match x with
  | JNumber n => Some (Num n)
  | _ => None
  end.

Definition v_boolean (x : json) : option bool :=
  match x with
  | JBool b => Some b
  | _ => None
  end.

(** [v.array(v.string())], on the elements of an array *)
Fixpoint v_strings (items : list json) : option (list string) :=
  match items with
  | [] => Some []
  | JString s :: items' => option_map (cons s) (v_strings items')
  | _ :: _ => None
  end.

Definition v_array_string (x : json) : option (list string) :=
  match x with
  | JArray items => v_strings items
  | _ => None
  end.

(** [v.union(v.id("games"), v.string())] on a parsed value: any
    string. *)
Definition v_parent (x : json) : option string := v_string x.

(** A required field. *)
Definition required {A : Type} (T : json -> option A) (x : option json) : option A :=
  match x with
  | Some y => T y
  | None => None
  end.

(** [v.optional(v.union(T, v.null()))] *)
Definition optional_or_null {A : Type} (T : json -> option A) (x : option json)
  : option (arg A) :=
  match x with
  | None => Some Absent
  | Some JNull => Some Null
  | Some y => option_map Val (T y)
  end.

Notation "'check' x := m 'in' k" :=
  (match m with
   | Some x => k
   | None => None
   end)
  (at level 10, x name, m at level 100, k at level 200).

(** The fields of the [args] of [addGame] (ingest module, lines 15-49). *)
Definition addGame_fields : list string :=
  [ "display_name"; "normalized_name"; "summary"; "release_year"; "developer";
    "publisher"; "franchise"; "genre"; "platforms"; "age_rating"; "setting";
    "perspective"; "world_type"; "multiplayer_type"; "input_methods";
    "story_focus"; "playtime_hours"; "tags"; "rating"; "price_model";
    "has_microtransactions"; "is_vr"; "has_mods"; "requires_online";
    "cross_platform"; "is_remake_or_remaster"; "is_dlc"; "parent_game";
    "procedurally_generated"; "aliases" ].

(** The argument of [addGame] for a parsed value: an object with no
    field beyond those of [args], each of the declared type. *)
Definition addGame_args (obj : json) : option AddArgs.t :=
  match obj with
  | JObject fields =>
      if forallb (fun kv => existsb (String.eqb (fst kv)) addGame_fields) fields
      then
        let opt {A : Type} (T : json -> option A) (key : string) :=
          optional_or_null T (property obj key) in
        check display_name := required v_string (property obj "display_name") in
        check normalized_name := opt v_string "normalized_name" in
        check summary := required v_string (property obj "summary") in
        check release_year := opt v_float64 "release_year" in
        check developer := opt v_string "developer" in
        check publisher := opt v_string "publisher" in
        check franchise := opt v_string "franchise" in
        check genre := opt v_array_string "genre" in
        check platforms := opt v_array_string "platforms" in
        check age_rating := opt v_string "age_rating" in
        check setting := opt v_string "setting" in
        check perspective := opt v_string "perspective" in
        check world_type := opt v_string "world_type" in
        check multiplayer_type := opt v_array_string "multiplayer_type" in
        check input_methods := opt v_array_string "input_methods" in
        check story_focus := opt v_string "story_focus" in
        check playtime_hours := opt v_float64 "playtime_hours" in
        check tags := opt v_array_string "tags" in
        check rating := opt v_float64 "rating" in
        check price_model := opt v_string "price_model" in
        check has_microtransactions := opt v_boolean "has_microtransactions" in
        check is_vr := opt v_boolean "is_vr" in
        check has_mods := opt v_boolean "has_mods" in
        check requires_online := opt v_boolean "requires_online" in
        check cross_platform := opt v_boolean "cross_platform" in
        check is_remake_or_remaster := opt v_boolean "is_remake_or_remaster" in
        check is_dlc := opt v_boolean "is_dlc" in
        check parent_game := opt v_parent "parent_game" in
        check procedurally_generated := opt v_boolean "procedurally_generated" in
        check aliases := opt v_array_string "aliases" in
        Some {| AddArgs.display_name := display_name;
                AddArgs.normalized_name := normalized_name;
                AddArgs.summary := summary;
                AddArgs.release_year := release_year;
                AddArgs.developer := developer;
                AddArgs.publisher := publisher;
                AddArgs.franchise := franchise;
                AddArgs.genre := genre;
                AddArgs.platforms := platforms;
                AddArgs.age_rating := age_rating;
                AddArgs.setting := setting;
                AddArgs.perspective := perspective;
                AddArgs.world_type := world_type;
                AddArgs.multiplayer_type := multiplayer_type;
                AddArgs.input_methods := input_methods;
                AddArgs.story_focus := story_focus;
                AddArgs.playtime_hours := playtime_hours;
                AddArgs.tags := tags;
                AddArgs.rating := rating;
                AddArgs.price_model := price_model;
                AddArgs.has_microtransactions := has_microtransactions;
                AddArgs.is_vr := is_vr;
                AddArgs.has_mods := has_mods;
                AddArgs.requires_online := requires_online;
                AddArgs.cross_platform := cross_platform;
                AddArgs.is_remake_or_remaster := is_remake_or_remaster;
                AddArgs.is_dlc := is_dlc;
                AddArgs.parent_game := parent_game;
                AddArgs.procedurally_generated := procedurally_generated;
                AddArgs.aliases := aliases |}
      else None
  | JNull | JBool _ | JNumber _ | JString _ | JArray _ => None
  end.

(** The argument [{title: obj.title, aliases: obj.aliases, notes:
    obj.notes ?? undefined}] of [upsertAliases] (lines 35-39), checked
    against its [args] (ingest module, lines 193-198); a property that
    is undefined is left out of the argument. *)
Definition upsertAliases_args (obj : json) : option UpsertArgs.t :=
  let notes :=
    match property obj "notes" with
    | None | Some JNull => None
    | Some x => Some x
    end in
  check title := required v_string (property obj "title") in
  check aliases := required v_array_string (property obj "aliases") in
  check notes := optional_or_null v_string notes in
  Some {| UpsertArgs.title := title;
          UpsertArgs.aliases := aliases;
          UpsertArgs.notes := notes |}.

(** *** Request, response and the text of the body *)

Module Request.
Record t : Type := mk {
    method : string;
    content_type : option string;
    text : string
  }.
End Request.

(** The body of a response: a text, or [JSON.stringify({inserted,
    skipped})]. *)
Inductive body : Type :=
| Plain (text : string)
| Counts (inserted skipped : nat).

Module Response.
Record t : Type := mk {
    body_of : body;
    status : nat;
    headers : list (string * string)
  }.
End Response.

(** [s.includes(sub)] *)
Fixpoint includes (s sub : string) : bool :=
  prefix sub s
  || match s with
     | EmptyString => false
     | String _ s' => includes s' sub
     end.

Definition LF : ascii := ascii_of_nat 10.
Definition CR : ascii := ascii_of_nat 13.

(** [text.split(/\r?\n/)]: a carriage return is part of the separator
    when a line feed follows it. *)
Fixpoint split_lines (text : string) : list string :=
  match text with
  | EmptyString => [EmptyString]
  | String c rest =>
      if Ascii.eqb c LF then EmptyString :: split_lines rest
      else if Ascii.eqb c CR && prefix (String LF EmptyString) rest
      then split_lines rest
      else
        match split_lines rest with
        | line :: lines => String c line :: lines
        | [] => [String c EmptyString]
        end
  end.

(** [text.split(/\r?\n/).filter((l) => l.trim().length > 0)] *)
Definition nonblank_lines (text : string) : list string :=
  filter (fun l => Nat.ltb 0 (String.length (trim l))) (split_lines text).

(** The local variables of the loop and the database, between two
    lines. *)
Module Progress.
Record t : Type := mk {
    inserted : nat;
    skipped : nat;
    db : store
  }.
End Progress.

Section Http.

Variable JSON_parse : string -> option json.
Variable full_text : search_index -> string -> list Game.t -> list Game.t.
(** [Date.now()] in the mutation run for the line at a position. *)
Variable clock : nat -> Z.

(** The body of the loop (lines 24-50) for the line at position [k].
    A mutation is a transaction: when it throws, the database is as
    before; the [catch] leaves the counters as they are. *)
Definition ingest_line (k : nat) (line : string) (st : Progress.t) : Progress.t :=
  let count (hit : bool) (s' : store) :=
    if hit
    then {| Progress.inserted := Progress.inserted st + 1;
            Progress.skipped := Progress.skipped st;
            Progress.db := s' |}
    else {| Progress.inserted := Progress.inserted st;
            Progress.skipped := Progress.skipped st + 1;
            Progress.db := s' |} in
  match JSON_parse line with
  | None => st
  | Some obj =>
      if alias_shaped obj then
        match upsertAliases_args obj with
        | None => st
        | Some args =>
            match upsertAliases full_text args (Progress.db st) with
            | Ok (res, s') => count (Nat.ltb 0 (UpsertResult.upserted res)) s'
            | Throw _ => st
            end
        end
      else
        match addGame_args obj with
        | None => st
        | Some args =>
            match addGame (clock k) args (Progress.db st) with
            | Ok (res, s') => count (AddResult.inserted res) s'
            | Throw _ => st
            end
        end
  end.

Fixpoint ingest_lines (k : nat) (lines : list string) (st : Progress.t) : Progress.t :=
  match lines with
  | [] => st
  | line :: lines' => ingest_lines (S k) lines' (ingest_line k line st)
  end.

Definition ingestNdjson (request : Request.t) (s : store) : Response.t * store :=
  if negb (String.eqb (Request.method request) "POST") then
    ({| Response.body_of := Plain "Method Not Allowed";
        Response.status := 405;
        Response.headers := [] |}, s)
  else
    let contentType :=
      match Request.content_type request with
      | Some c => c
      | None => EmptyString
      end in
    if negb (includes contentType "application/x-ndjson")
       && negb (includes contentType "application/jsonl")
    then
      ({| Response.body_of := Plain "Unsupported Media Type";
          Response.status := 415;
          Response.headers := [] |}, s)
    else
      let lines := nonblank_lines (Request.text request) in
      let st :=
        ingest_lines 0 lines
          {| Progress.inserted := 0; Progress.skipped := 0; Progress.db := s |} in
      ({| Response.body_of := Counts (Progress.inserted st) (Progress.skipped st);
          Response.status := 200;
          Response.headers := [("content-type", "application/json")] |},
       Progress.db st).

End Http.

(** A line that is a game object, a line that is an alias object, and
    a parser that knows these two lines. *)
Definition quoted (s : string) : string :=
  String (ascii_of_nat 34) (append s (String (ascii_of_nat 34) EmptyString)).

Definition portal2_line : string :=
  append "{" (append (quoted "display_name") (append ":" (append (quoted "Portal 2")
    (append "," (append (quoted "summary") (append ":" (append (quoted "A game.") "}"))))))).

Definition p2_line : string :=
  append "{" (append (quoted "title") (append ":" (append (quoted "Portal 2")
    (append "," (append (quoted "aliases") (append ":[" (append (quoted "P2") "]}"))))))).

Definition two_lines_parse (line : string) : option json :=
  if String.eqb line portal2_line
  then Some (JObject [("display_name", JString "Portal 2"); ("summary", JString "A game.")])
  else if String.eqb line p2_line
  then Some (JObject [("title", JString "Portal 2"); ("aliases", JArray [JString "P2"])])
  else None.

(** [POST] of the game line, a blank line, the alias line and a line
    that is not JSON, as [application/x-ndjson; charset=utf-8]. *)
Definition post_portal2 : Request.t :=
  {| Request.method := "POST";
     Request.content_type := Some "application/x-ndjson; charset=utf-8";
     Request.text :=
       append portal2_line
         (String CR (String LF (append "  " (String LF (append p2_line
            (String LF "not json")))))) |}.

(** The key of a game line is taken, or its parent name is shared: what
    keeps [addGame] from inserting. *)
Definition settled (args : AddArgs.t) (s : store) : Prop :=
  by_normalized_name (addGame_normalizedName args) s <> []
  \/ exists parentRaw,
       AddArgs.parent_game args = Val parentRaw
       /\ 2 <= List.length (by_normalized_name parentRaw s).

(** The game lines of a body are settled in [s]. *)
Definition lines_settled (JSON_parse : string -> option json) (lines : list string)
    (s : store) : Prop :=
  forall line obj args,
    In line lines ->
    JSON_parse line = Some obj ->
    alias_shaped obj = false ->
    addGame_args obj = Some args ->
    settled args s.

(** The tables of [s'] are those of [s] with rows appended. *)
Definition extends (s s' : store) : Prop :=
  (exists rows, games s' = games s ++ rows)
  /\ (forall tbl, exists rows, joins s' tbl = joins s tbl ++ rows)
  /\ (exists rows, game_aliases s' = game_aliases s ++ rows).

(** The line parses to an object that is routed to [upsertAliases]. *)
Definition is_alias_line (JSON_parse : string -> option json) (line : string) : bool :=
  match JSON_parse line with
  | Some obj => alias_shaped obj
  | None => false
  end.

(** The request is let through to the loop (lines 6-16). *)
Definition accepted (request : Request.t) : bool :=
  String.eqb (Request.method request) "POST"
  && match Request.content_type request with
     | Some c => includes c "application/x-ndjson" || includes c "application/jsonl"
     | None => false
     end.

(** Every stored release_year is a safe integer, or no number. *)
Definition safe_years (s : store) : Prop :=
  forall g, In g (games s) -> safe_number (Game.release_year g).

(** ** Handler rules *)

Lemma returns_ret {A : Type} (a : A) (s : store) (Q : A -> store -> Prop) :
  Q a s -> returns (ret a) s Q.
Proof. intros H. exists a, s. split; [reflexivity | exact H]. Qed.

Lemma returns_bind {A B : Type} (m : M A) (k : A -> M B) (s : store)
    (P : A -> store -> Prop) (Q : B -> store -> Prop) :
  returns m s P ->
  (forall a s1, P a s1 -> returns (k a) s1 Q) ->
  returns (bind m k) s Q.
Proof.
  intros (a & s1 & Hm & HP) Hk.
  destruct (Hk a s1 HP) as (b & s2 & Hk2 & HQ).
  exists b, s2. split; [| exact HQ].
  unfold bind. rewrite Hm. exact Hk2.
Qed.

Lemma returns_mono {A : Type} (m : M A) (s : store) (P Q : A -> store -> Prop) :
  returns m s P -> (forall a s', P a s' -> Q a s') -> returns m s Q.
Proof.
  intros (a & s' & Hm & HP) HPQ. exists a, s'. split; [exact Hm | apply HPQ, HP].
Qed.

Lemma returns_query {A : Type} (q : store -> A) (s : store) (Q : A -> store -> Prop) :
  Q (q s) s -> returns (query q) s Q.
Proof. intros H. exists (q s), s. split; [reflexivity | exact H]. Qed.

Lemma returns_det {A : Type} (m : M A) (s : store) (Q : A -> store -> Prop) a s' :
  returns m s Q -> m s = Ok (a, s') -> Q a s'.
Proof.
  intros (a0 & s0 & Hm & HQ) E. rewrite Hm in E. injection E as -> ->. exact HQ.
Qed.

Lemma returns_partial {A : Type} (m : M A) (s : store) (Q : A -> store -> Prop) :
  returns m s Q -> partial m s Q.
Proof. intros (a & s' & Hm & HQ). unfold partial. rewrite Hm. exact HQ. Qed.

Lemma partial_det {A : Type} (m : M A) (s : store) (Q : A -> store -> Prop) a s' :
  partial m s Q -> m s = Ok (a, s') -> Q a s'.
Proof. unfold partial. intros H E. rewrite E in H. exact H. Qed.

Lemma partial_bind {A B : Type} (m : M A) (k : A -> M B) (s : store)
    (Q : B -> store -> Prop) :
  partial m s (fun a s1 => partial (k a) s1 Q) -> partial (bind m k) s Q.
Proof.
  unfold partial, bind. destruct (m s) as [[a s1] | e]; [intros H; exact H | trivial].
Qed.

Lemma partial_unique {A : Type} (rows : list A) (s : store)
    (Q : option A -> store -> Prop) :
  (rows = [] -> Q None s) ->
  (forall r, rows = [r] -> Q (Some r) s) ->
  partial (unique rows) s Q.
Proof.
  intros H0 H1. destruct rows as [| r [| r' rows]]; unfold partial; simpl.
  - apply H0. reflexivity.
  - apply H1. reflexivity.
  - exact I.
Qed.

Lemma returns_for_of {A : Type} (I : store -> Prop) (xs : list A) (body : A -> M unit)
    (s : store) :
  I s ->
  (forall x s1, In x xs -> I s1 -> returns (body x) s1 (fun _ s2 => I s2)) ->
  returns (for_of xs body) s (fun _ s' => I s').
Proof.
  revert s. induction xs as [| x xs IH]; intros s Hs Hbody; simpl.
  - apply returns_ret. exact Hs.
  - eapply returns_bind.
    + apply Hbody; [left; reflexivity | exact Hs].
    + intros u s1 H1. apply IH; [exact H1 |].
      intros y s2 Hy. apply Hbody. right. exact Hy.
Qed.

(** ** Effects of the loops *)

Lemma join_table_eqb_refl (t : join_table) : join_table_eqb t t = true.
Proof. destruct t; reflexivity. Qed.

Lemma join_table_eqb_eq (t u : join_table) : join_table_eqb t u = true <-> t = u.
Proof. destruct t, u; simpl; split; intros H; try reflexivity; discriminate. Qed.

Lemma join_effect_trans tbl f g n m s s1 s2 :
  join_effect tbl f n s s1 ->
  join_effect tbl g m s1 s2 ->
  join_effect tbl (fun rows => g (f rows)) (n + m) s s2.
Proof.
  intros (Hn & Hg & Ha & Hj) (Hn' & Hg' & Ha' & Hj').
  repeat split.
  - rewrite Hn', Hn. lia.
  - congruence.
  - congruence.
  - intros t. rewrite Hj', Hj. destruct (join_table_eqb t tbl); reflexivity.
Qed.

Lemma join_effect_ext tbl f g n s s' :
  join_effect tbl f n s s' ->
  (forall rows, f rows = g rows) ->
  join_effect tbl g n s s'.
Proof.
  intros (Hn & Hg & Ha & Hj) E. repeat split; trivial.
  intros t. rewrite Hj, E. reflexivity.
Qed.

Lemma join_effect_refl tbl s : join_effect tbl (fun rows => rows) 0 s s.
Proof.
  split; [lia |]. split; [reflexivity |]. split; [reflexivity |].
  intros t. destruct (join_table_eqb t tbl); reflexivity.
Qed.

Lemma alias_effect_trans f g n m s s1 s2 :
  alias_effect f n s s1 ->
  alias_effect g m s1 s2 ->
  alias_effect (fun rows => g (f rows)) (n + m) s s2.
Proof.
  intros (Hn & Hg & Hj & Ha) (Hn' & Hg' & Hj' & Ha').
  repeat split; try congruence. rewrite Hn', Hn. lia.
Qed.

Lemma alias_effect_refl s : alias_effect (fun rows => rows) 0 s s.
Proof. split; [lia |]. split; [reflexivity |]. split; reflexivity. Qed.

Lemma insert_join_returns tbl doc s :
  returns (insert_join tbl doc) s
    (fun i s1 =>
       i = next_id s /\ join_effect tbl (fun rows => rows ++ [doc (next_id s)]) 1 s s1).
Proof.
  eexists. eexists. split; [reflexivity |].
  split; [reflexivity |]. unfold join_effect. simpl.
  split; [lia |]. split; [reflexivity |]. split; [reflexivity |].
  intros t. reflexivity.
Qed.

Lemma insert_alias_returns doc s :
  returns (insert_alias doc) s
    (fun i s1 =>
       i = next_id s /\ alias_effect (fun rows => rows ++ [doc (next_id s)]) 1 s s1).
Proof.
  eexists. eexists. split; [reflexivity |].
  split; [reflexivity |]. unfold alias_effect. simpl.
  split; [lia |]. split; [reflexivity |]. split; reflexivity.
Qed.

Lemma insert_join_step tbl doc s :
  returns (insert_join tbl doc ;; ret tt) s
    (fun _ s1 => join_effect tbl (fun rows => rows ++ [doc (next_id s)]) 1 s s1).
Proof.
  eapply returns_bind; [apply insert_join_returns |].
  intros i s1 (_ & H). apply returns_ret. exact H.
Qed.

Lemma insert_alias_step doc s :
  returns (insert_alias doc ;; ret tt) s
    (fun _ s1 => alias_effect (fun rows => rows ++ [doc (next_id s)]) 1 s s1).
Proof.
  eapply returns_bind; [apply insert_alias_returns |].
  intros i s1 (_ & H). apply returns_ret. exact H.
Qed.

(** The insert loop of [safeInsertMany]. *)
Lemma insert_join_loop gameId ry rd tbl vs s :
  returns
    (for_of vs (fun raw =>
       insert_join tbl (fun i =>
         {| Join._id := i; Join.gameId := gameId; Join.value := raw;
            Join.release_year := ry; Join.release_decade := rd |}) ;;
       ret tt))
    s
    (fun _ s' =>
       join_effect tbl (fun rows => rows ++ new_join_rows (next_id s) gameId ry rd vs)
                   (List.length vs) s s').
Proof.
  revert s. induction vs as [| v vs IH]; intros s.
  - apply returns_ret. eapply join_effect_ext; [apply join_effect_refl |].
    intros rows. simpl. rewrite app_nil_r. reflexivity.
  - simpl for_of. eapply returns_bind.
    + apply insert_join_step.
    + intros u s1 H1. eapply returns_mono; [apply IH |].
      intros u' s2 H2. simpl in H2.
      pose proof H1 as (Hn & _).
      replace (next_id s1) with (S (next_id s)) in H2 by lia.
      cbv beta in H1.
      pose proof (join_effect_trans _ _ _ _ _ _ _ _ H1 H2) as (Hn2 & Hg2 & Ha2 & Hj2).
      split; [simpl; lia |]. split; [exact Hg2 |]. split; [exact Ha2 |].
      intros t. rewrite Hj2. simpl. rewrite <- app_assoc. reflexivity.
Qed.

Lemma safeInsertMany_returns gameId ry rd tbl values s :
  returns (safeInsertMany gameId ry rd tbl values) s
    (fun _ s' =>
       let vs := match values with Some vs => vs | None => [] end in
       join_effect tbl (fun rows => rows ++ new_join_rows (next_id s) gameId ry rd vs)
                   (List.length vs) s s').
Proof.
  destruct values as [[| v vs] |]; unfold safeInsertMany.
  - apply returns_ret. eapply join_effect_ext; [apply join_effect_refl |].
    intros rows. simpl. rewrite app_nil_r. reflexivity.
  - apply insert_join_loop.
  - apply returns_ret. eapply join_effect_ext; [apply join_effect_refl |].
    intros rows. simpl. rewrite app_nil_r. reflexivity.
Qed.

(** The alias loop of [addGame] and [updateGame] (lines 69-78, 180-186
    and 422-431). *)
Lemma insert_alias_loop gameId al s :
  returns
    (for_of al (fun a =>
       match normalizeString (Val a) with
       | None | Some EmptyString => ret tt
       | Some aliasNorm =>
           insert_alias (fun i =>
             {| Alias._id := i; Alias.gameId := gameId;
                Alias.alias := aliasNorm; Alias.notes := None |}) ;;
           ret tt
       end))
    s
    (fun _ s' =>
       alias_effect
         (fun rows => rows ++ new_alias_rows (next_id s) gameId None (normalized_aliases al))
         (List.length (normalized_aliases al)) s s').
Proof.
  revert s. induction al as [| a al IH]; intros s.
  - apply returns_ret. unfold normalized_aliases. simpl.
    split; [lia |]. split; [reflexivity |]. split; [reflexivity |].
    rewrite app_nil_r. reflexivity.
  - simpl for_of. unfold normalized_aliases. simpl map. simpl filter.
    fold (normalized_aliases al).
    destruct (toLowerCase (trim a)) as [| c rest] eqn:E.
    + eapply returns_bind with (P := fun _ s1 => s1 = s);
        [apply returns_ret; reflexivity |].
      intros u s1 ->. apply IH.
    + eapply returns_bind.
      * apply (insert_alias_step (fun i =>
          {| Alias._id := i; Alias.gameId := gameId;
             Alias.alias := String c rest; Alias.notes := None |})).
      * intros u s1 H1. eapply returns_mono; [apply IH |].
        intros u' s2 H2. simpl in H2.
        pose proof H1 as (Hn & _).
        replace (next_id s1) with (S (next_id s)) in H2 by lia.
        cbv beta in H1.
        pose proof (alias_effect_trans _ _ _ _ _ _ _ H1 H2) as (Hn2 & Hg2 & Hj2 & Ha2).
        split; [simpl; lia |]. split; [exact Hg2 |]. split; [exact Hj2 |].
        rewrite Ha2. simpl. rewrite <- app_assoc. reflexivity.
Qed.

Lemma alias_block_returns gameId (aliases : option (list string)) s :
  returns
    (match aliases with
     | Some ((_ :: _) as al) =>
         for_of al (fun a =>
           match normalizeString (Val a) with
           | None | Some EmptyString => ret tt
           | Some aliasNorm =>
               insert_alias (fun i =>
                 {| Alias._id := i; Alias.gameId := gameId;
                    Alias.alias := aliasNorm; Alias.notes := None |}) ;;
               ret tt
           end)
     | _ => ret tt
     end)
    s
    (fun _ s' =>
       let al := match aliases with Some al => al | None => [] end in
       alias_effect
         (fun rows => rows ++ new_alias_rows (next_id s) gameId None (normalized_aliases al))
         (List.length (normalized_aliases al)) s s').
Proof.
  destruct aliases as [[| a al] |].
  - apply returns_ret. simpl.
    split; [lia |]. split; [reflexivity |]. split; [reflexivity |].
    rewrite app_nil_r. reflexivity.
  - apply insert_alias_loop.
  - apply returns_ret. simpl.
    split; [lia |]. split; [reflexivity |]. split; [reflexivity |].
    rewrite app_nil_r. reflexivity.
Qed.

(** ** Deleting rows by identity *)

Section Rows.

Context {A : Type} (id : A -> Id).

Lemma existsb_eqb_In (x : Id) (l : list Id) : existsb (Nat.eqb x) l = true <-> In x l.
Proof.
  rewrite existsb_exists. split.
  - intros (y & Hy & E). apply Nat.eqb_eq in E. subst. exact Hy.
  - intros H. exists x. split; [exact H | apply Nat.eqb_refl].
Qed.

Lemma without_ids_nil (rows : list A) : without_ids id [] rows = rows.
Proof.
  unfold without_ids. induction rows as [| r rows IH]; simpl; [reflexivity |].
  f_equal. exact IH.
Qed.

Lemma without_ids_cons (d : A) (deleted rows : list A) :
  without_ids id (d :: deleted) rows
  = without_ids id deleted (filter (fun r => negb (Nat.eqb (id r) (id d))) rows).
Proof.
  unfold without_ids. induction rows as [| r rows IH]; simpl in *; [reflexivity |].
  destruct (Nat.eqb (id r) (id d)); simpl.
  - exact IH.
  - destruct (existsb (Nat.eqb (id r)) (map id deleted)); simpl; congruence.
Qed.

Lemma drop_first_0 (p : A -> bool) (l : list A) : drop_first 0 p l = l.
Proof.
  induction l as [| x l IH]; simpl; [reflexivity |].
  destruct (p x); congruence.
Qed.

Lemma without_ids_fresh (deleted rows : list A) :
  (forall r, In r rows -> ~ In (id r) (map id deleted)) ->
  without_ids id deleted rows = rows.
Proof.
  unfold without_ids. intros H. induction rows as [| r rows IH]; simpl; [reflexivity |].
  destruct (existsb (Nat.eqb (id r)) (map id deleted)) eqn:E.
  - apply existsb_eqb_In in E. exfalso. apply (H r); [left; reflexivity | exact E].
  - simpl. f_equal. apply IH. intros r' Hr'. apply H. right. exact Hr'.
Qed.

Lemma in_firstn (n : nat) (l : list A) (x : A) : In x (firstn n l) -> In x l.
Proof.
  revert n. induction l as [| y l IH]; intros [| n] H; simpl in H; try contradiction.
  destruct H as [H | H]; [left; exact H | right; apply (IH n), H].
Qed.

Lemma in_firstn_filter (n : nat) (p : A -> bool) (l : list A) (x : A) :
  In x (firstn n (filter p l)) -> In x l /\ p x = true.
Proof.
  intros H. apply in_firstn in H. apply filter_In in H. exact H.
Qed.

(** Deleting the first [n] rows that satisfy [p], by their identities,
    removes these rows and no other. *)
Lemma without_first (n : nat) (p : A -> bool) (rows : list A) :
  distinct_ids id rows ->
  without_ids id (firstn n (filter p rows)) rows = drop_first n p rows.
Proof.
  unfold distinct_ids. revert n.
  induction rows as [| r rows IH]; intros n Hnd.
  - destruct n; reflexivity.
  - simpl map in Hnd. inversion Hnd as [| x l Hnotin Hnd']; subst.
    simpl filter. simpl drop_first. destruct (p r) eqn:Hp.
    + destruct n as [| n].
      * simpl firstn. apply without_ids_nil.
      * simpl firstn. rewrite without_ids_cons. simpl filter.
        rewrite Nat.eqb_refl. simpl.
        replace (filter (fun r0 => negb (Nat.eqb (id r0) (id r))) rows) with rows.
        -- apply IH. exact Hnd'.
        -- symmetry. rewrite <- (filter_ext_in (fun _ => true)).
           ++ clear. induction rows as [| y rows IH]; simpl; congruence.
           ++ intros y Hy. symmetry. apply negb_true_iff. apply Nat.eqb_neq.
              intros E. apply Hnotin. rewrite <- E. apply in_map. exact Hy.
    + unfold without_ids. simpl filter.
      destruct (existsb (Nat.eqb (id r)) (map id (firstn n (filter p rows)))) eqn:E.
      * apply existsb_eqb_In in E. exfalso. apply Hnotin.
        apply in_map_iff in E. destruct E as (y & Ey & Hy).
        apply in_firstn_filter in Hy. rewrite <- Ey. apply in_map. apply Hy.
      * simpl. f_equal. apply IH. exact Hnd'.
Qed.

Lemma filter_drop_first (n : nat) (p : A -> bool) (l : list A) :
  filter p (drop_first n p l) = skipn n (filter p l).
Proof.
  revert n. induction l as [| x l IH]; intros n.
  - destruct n; reflexivity.
  - simpl. destruct (p x) eqn:Hp.
    + destruct n as [| n].
      * simpl. rewrite Hp. reflexivity.
      * simpl. apply IH.
    + simpl. rewrite Hp. apply IH.
Qed.

Lemma filter_drop_first_other (n : nat) (p q : A -> bool) (l : list A) :
  (forall x, q x = true -> p x = false) ->
  filter q (drop_first n p l) = filter q l.
Proof.
  intros Hpq. revert n. induction l as [| x l IH]; intros n; [reflexivity |].
  simpl. destruct (p x) eqn:Hp.
  - destruct n as [| n].
    + reflexivity.
    + rewrite IH. destruct (q x) eqn:Hq; [| reflexivity].
      apply Hpq in Hq. congruence.
  - simpl. rewrite IH. reflexivity.
Qed.

End Rows.

(** ** Effects of [clearJoin] and of the reconciliation blocks *)

Lemma join_effect_at tbl f g n s s' :
  join_effect tbl f n s s' ->
  f (joins s tbl) = g (joins s tbl) ->
  join_effect tbl g n s s'.
Proof.
  intros (Hn & Hg & Ha & Hj) E.
  split; [exact Hn |]. split; [exact Hg |]. split; [exact Ha |].
  intros t. rewrite Hj. destruct (join_table_eqb t tbl) eqn:Et; [| reflexivity].
  apply join_table_eqb_eq in Et. subst t. exact E.
Qed.

Lemma join_effect_same tbl f n s s' :
  join_effect tbl f n s s' -> joins s' tbl = f (joins s tbl).
Proof.
  intros (_ & _ & _ & Hj). rewrite Hj, join_table_eqb_refl. reflexivity.
Qed.

Lemma join_effect_other tbl f n s s' t :
  join_effect tbl f n s s' -> t <> tbl -> joins s' t = joins s t.
Proof.
  intros (_ & _ & _ & Hj) Ht. rewrite Hj.
  destruct (join_table_eqb t tbl) eqn:E; [| reflexivity].
  apply join_table_eqb_eq in E. contradiction.
Qed.

Lemma delete_join_returns tbl i s :
  returns (delete_join tbl i) s
    (fun _ s' =>
       join_effect tbl (filter (fun r => negb (Nat.eqb (Join._id r) i))) 0 s s').
Proof.
  eexists. eexists. split; [reflexivity |].
  split; [simpl; lia |]. split; [reflexivity |]. split; [reflexivity |].
  intros t. simpl. destruct (join_table_eqb t tbl) eqn:E; [| reflexivity].
  apply join_table_eqb_eq in E. subst t. reflexivity.
Qed.

Lemma delete_join_loop tbl rows s :
  returns (for_of rows (fun r => delete_join tbl (Join._id r))) s
    (fun _ s' => join_effect tbl (without_ids Join._id rows) 0 s s').
Proof.
  revert s. induction rows as [| r rows IH]; intros s.
  - apply returns_ret. eapply join_effect_ext; [apply join_effect_refl |].
    intros l. symmetry. apply without_ids_nil.
  - simpl for_of. eapply returns_bind; [apply delete_join_returns |].
    intros u s1 H1. eapply returns_mono; [apply IH |].
    intros u' s2 H2. cbv beta in H1.
    pose proof (join_effect_trans _ _ _ _ _ _ _ _ H1 H2) as H.
    eapply join_effect_ext; [exact H |].
    intros l. symmetry. apply without_ids_cons.
Qed.

Lemma clearJoin_returns id tbl s :
  returns (clearJoin id tbl) s
    (fun _ s' =>
       join_effect tbl
         (fun rows =>
            without_ids Join._id
              (firstn 1000 (filter (fun r => Nat.eqb (Join.gameId r) id) rows)) rows)
         0 s s').
Proof.
  unfold clearJoin. eapply returns_bind.
  - apply returns_query.
    instantiate (1 := fun rows s1 => s1 = s /\ rows = firstn 1000 (join_by_game tbl id s)).
    split; reflexivity.
  - intros rows s1 (-> & ->). eapply returns_mono; [apply delete_join_loop |].
    intros u s2 H. eapply join_effect_at; [exact H |]. reflexivity.
Qed.

Lemma delete_alias_returns i s :
  returns (delete_alias i) s
    (fun _ s' =>
       alias_effect (filter (fun r => negb (Nat.eqb (Alias._id r) i))) 0 s s').
Proof.
  eexists. eexists. split; [reflexivity |].
  split; [simpl; lia |]. split; [reflexivity |]. split; reflexivity.
Qed.

Lemma alias_effect_ext f g n s s' :
  alias_effect f n s s' ->
  (forall rows, f rows = g rows) ->
  alias_effect g n s s'.
Proof.
  intros (Hn & Hg & Hj & Ha) E.
  split; [exact Hn |]. split; [exact Hg |]. split; [exact Hj |].
  rewrite Ha. apply E.
Qed.

Lemma delete_alias_loop rows s :
  returns (for_of rows (fun r => delete_alias (Alias._id r))) s
    (fun _ s' => alias_effect (without_ids Alias._id rows) 0 s s').
Proof.
  revert s. induction rows as [| r rows IH]; intros s.
  - apply returns_ret. eapply alias_effect_ext; [apply alias_effect_refl |].
    intros l. symmetry. apply without_ids_nil.
  - simpl for_of. eapply returns_bind; [apply delete_alias_returns |].
    intros u s1 H1. eapply returns_mono; [apply IH |].
    intros u' s2 H2. cbv beta in H1.
    pose proof (alias_effect_trans _ _ _ _ _ _ _ H1 H2) as H.
    eapply alias_effect_ext; [exact H |].
    intros l. symmetry. apply without_ids_cons.
Qed.

Lemma clearJoin_game_aliases_returns id s :
  returns (clearJoin_game_aliases id) s
    (fun _ s' =>
       alias_effect
         (fun rows =>
            without_ids Alias._id
              (firstn 1000 (filter (fun r => Nat.eqb (Alias.gameId r) id) rows)) rows)
         0 s s').
Proof.
  unfold clearJoin_game_aliases. eapply returns_bind.
  - apply returns_query.
    instantiate (1 := fun rows s1 => s1 = s /\ rows = firstn 1000 (alias_by_game id s)).
    split; reflexivity.
  - intros rows s1 (-> & ->). eapply returns_mono; [apply delete_alias_loop |].
    intros u s2 (Hn & Hg & Hj & Ha).
    split; [exact Hn |]. split; [exact Hg |]. split; [exact Hj |]. exact Ha.
Qed.

(** One of the five blocks of lines 385-416. *)
Lemma attribute_block_returns id ry rd tbl (v : arg (list string)) s :
  returns
    (when (not_nullish v)
       (clearJoin id tbl ;; safeInsertMany id ry rd tbl (v ?? None)))
    s
    (fun _ s' =>
       exists n, join_effect tbl (reconcile_rows id ry rd v (next_id s)) n s s').
Proof.
  destruct v as [| | vs]; unfold when; cbn [not_nullish].
  - apply returns_ret. exists 0. apply join_effect_refl.
  - apply returns_ret. exists 0. apply join_effect_refl.
  - eapply returns_bind; [apply clearJoin_returns |].
    intros u s1 H1. eapply returns_mono; [apply safeInsertMany_returns |].
    intros u' s2 H2. cbv beta in H1. simpl in H2.
    pose proof H1 as (Hn & _). rewrite Nat.add_0_r in Hn. rewrite Hn in H2.
    exists (0 + List.length vs).
    exact (join_effect_trans _ _ _ _ _ _ _ _ H1 H2).
Qed.

(** The block of lines 417-432. *)
Lemma alias_reconcile_returns id (v : arg (list string)) s :
  returns
    (when (not_nullish v)
       (clearJoin_game_aliases id ;;
        let aliases := v ?? None in
        match aliases with
        | Some ((_ :: _) as al) =>
            for_of al (fun a =>
              match normalizeString (Val a) with
              | None | Some EmptyString => ret tt
              | Some aliasNorm =>
                  insert_alias (fun i =>
                    {| Alias._id := i; Alias.gameId := id;
                       Alias.alias := aliasNorm; Alias.notes := None |}) ;;
                  ret tt
              end)
        | _ => ret tt
        end))
    s
    (fun _ s' =>
       exists n, alias_effect (reconcile_aliases id v (next_id s)) n s s').
Proof.
  destruct v as [| | al]; unfold when; cbn [not_nullish].
  - apply returns_ret. exists 0. apply alias_effect_refl.
  - apply returns_ret. exists 0. apply alias_effect_refl.
  - eapply returns_bind; [apply clearJoin_game_aliases_returns |].
    intros u s1 H1. cbv zeta. eapply returns_mono; [apply alias_block_returns |].
    intros u' s2 H2. cbv beta in H1. simpl in H2.
    pose proof H1 as (Hn & _). rewrite Nat.add_0_r in Hn. rewrite Hn in H2.
    exists (0 + List.length (normalized_aliases al)).
    exact (alias_effect_trans _ _ _ _ _ _ _ H1 H2).
Qed.

(** ** The effect of [updateGame] on an existing entity *)

Lemma patch_rows_admitted id fields (f : Game.t -> Game.t) rows :
  (forall g, fields g = Some (f g)) ->
  patch_rows id fields rows
  = Some (map (fun g => if Nat.eqb (Game._id g) id then f g else g) rows).
Proof.
  intros Hf. induction rows as [| g rows IH]; simpl; [reflexivity |].
  rewrite IH, Hf. destruct (Nat.eqb (Game._id g) id); reflexivity.
Qed.

Lemma patch_rows_refused id fields rows :
  (forall g, fields g = None) ->
  (exists g, In g rows /\ Game._id g = id) ->
  patch_rows id fields rows = None.
Proof.
  intros Hf (g & Hin & Hid). induction rows as [| x rows IH]; simpl; [destruct Hin |].
  destruct (Nat.eqb (Game._id x) id) eqn:E; [rewrite Hf; reflexivity |].
  destruct Hin as [-> | Hin]; [rewrite Hid, Nat.eqb_refl in E; discriminate E |].
  rewrite (IH Hin). reflexivity.
Qed.

Lemma patch_game_returns id fields (f : Game.t -> Game.t) s :
  (forall g, fields g = Some (f g)) ->
  returns (patch_game id fields) s
    (fun _ s' =>
       next_id s' = next_id s
       /\ games s' = map (fun g => if Nat.eqb (Game._id g) id then f g else g) (games s)
       /\ joins s' = joins s
       /\ game_aliases s' = game_aliases s).
Proof.
  intros Hf. unfold returns, patch_game. rewrite (patch_rows_admitted id fields f _ Hf).
  eexists. eexists. split; [reflexivity |]. simpl. repeat split.
Qed.

Lemma schema_parent_admitted args existing :
  parent_admitted args ->
  schema_parent (UpdateArgs.parent_game args) (Game.parent_game existing)
  = Some (resolved_parent_id args existing).
Proof.
  unfold parent_admitted, schema_parent, resolved_parent_id.
  destruct (UpdateArgs.parent_game args) as [| | raw]; try reflexivity.
  destruct (games_id raw); [reflexivity | intros H; contradiction].
Qed.

Lemma schema_parent_refused args existing :
  ~ parent_admitted args ->
  schema_parent (UpdateArgs.parent_game args) (Game.parent_game existing) = None.
Proof.
  unfold parent_admitted, schema_parent.
  destruct (UpdateArgs.parent_game args) as [| | raw]; try (intros H; exfalso; exact (H I)).
  destruct (games_id raw); [intros H; exfalso; apply H; discriminate | reflexivity].
Qed.

Lemma updateGame_patch_admitted now args existing ry rd name old :
  parent_admitted args ->
  updateGame_patch now args existing ry rd name old
  = Some (updateGame_document now args existing ry rd name
            (resolved_parent_id args existing) old).
Proof.
  intros H. unfold updateGame_patch. rewrite (schema_parent_admitted _ _ H). reflexivity.
Qed.

Lemma parent_admitted_dec args : {parent_admitted args} + {~ parent_admitted args}.
Proof.
  unfold parent_admitted. destruct (UpdateArgs.parent_game args) as [| | raw].
  - left. exact I.
  - left. exact I.
  - destruct (games_id raw); [left; discriminate | right; intros H; apply H; reflexivity].
Qed.

(** An update whose parent the schema refuses throws, and the
    transaction is rolled back. *)
Lemma updateGame_refused now args s existing :
  get_game (UpdateArgs.id args) s = Some existing ->
  ~ parent_admitted args ->
  updateGame now args s = Throw SchemaViolation.
Proof.
  intros Hget Hno. unfold updateGame. cbv zeta. unfold bind at 1, db_get, query.
  rewrite Hget. unfold bind at 1, patch_game.
  rewrite patch_rows_refused; [reflexivity | |].
  - intros g. unfold updateGame_patch. rewrite (schema_parent_refused _ _ Hno). reflexivity.
  - apply find_some in Hget. exists existing.
    split; [exact (proj1 Hget) | apply Nat.eqb_eq, (proj2 Hget)].
Qed.

Lemma updateGame_returned now args s existing r s' :
  get_game (UpdateArgs.id args) s = Some existing ->
  updateGame now args s = Ok (r, s') ->
  parent_admitted args.
Proof.
  intros Hget Hrun. destruct (parent_admitted_dec args) as [H | H]; [exact H |].
  rewrite (updateGame_refused now args s existing Hget H) in Hrun. discriminate Hrun.
Qed.

Ltac through_block H :=
  first [ rewrite (join_effect_same _ _ _ _ _ H)
        | rewrite (join_effect_other _ _ _ _ _ _ H) by discriminate ].

Lemma updateGame_existing now args s existing :
  get_game (UpdateArgs.id args) s = Some existing ->
  parent_admitted args ->
  returns (updateGame now args) s
    (fun r s' =>
       let id := UpdateArgs.id args in
       let ry := resolved_year args existing in
       let rd := computeDecade ry in
       r = {| UpdateResult._id := id; UpdateResult.updated := true |}
       /\ games s'
          = map (fun g => if Nat.eqb (Game._id g) id
                          then updated_game now args existing g else g) (games s)
       /\ (forall tbl, exists base,
              next_id s <= base
              /\ joins s' tbl
                 = reconcile_rows id ry rd (attribute_arg tbl args) base (joins s tbl))
       /\ (exists base,
              next_id s <= base
              /\ game_aliases s'
                 = reconcile_aliases id (UpdateArgs.aliases args) base (game_aliases s))
       /\ next_id s <= next_id s').
Proof.
  intros Hget Hadm. unfold updateGame. cbv zeta.
  eapply returns_bind with (P := fun r s1 => s1 = s /\ r = Some existing).
  { apply returns_query. split; [reflexivity | exact Hget]. }
  intros r0 s00 (-> & ->). cbv iota.
  eapply returns_bind;
    [apply patch_game_returns; intros g; apply updateGame_patch_admitted, Hadm |].
  intros u0 s0 (Hn0 & Hg0 & Hj0 & Ha0).
  eapply returns_bind; [apply attribute_block_returns |].
  intros u1 s1 (n1 & H1).
  eapply returns_bind; [apply attribute_block_returns |].
  intros u2 s2 (n2 & H2).
  eapply returns_bind; [apply attribute_block_returns |].
  intros u3 s3 (n3 & H3).
  eapply returns_bind; [apply attribute_block_returns |].
  intros u4 s4 (n4 & H4).
  eapply returns_bind; [apply attribute_block_returns |].
  intros u5 s5 (n5 & H5).
  eapply returns_bind; [apply alias_reconcile_returns |].
  intros u6 s6 (n6 & H6).
  apply returns_ret.
  pose proof H1 as (N1 & G1 & A1 & _).
  pose proof H2 as (N2 & G2 & A2 & _).
  pose proof H3 as (N3 & G3 & A3 & _).
  pose proof H4 as (N4 & G4 & A4 & _).
  pose proof H5 as (N5 & G5 & A5 & _).
  destruct H6 as (N6 & G6 & J6 & A6).
  split; [reflexivity |].
  split; [unfold updated_game, resolved_year, resolved_name; congruence |].
  split.
  { intros tbl. rewrite J6.
    destruct tbl; cbn [attribute_arg].
    - exists (next_id s0). split; [lia |].
      through_block H5. through_block H4. through_block H3. through_block H2.
      through_block H1. rewrite Hj0. reflexivity.
    - exists (next_id s1). split; [lia |].
      through_block H5. through_block H4. through_block H3. through_block H2.
      through_block H1. rewrite Hj0. reflexivity.
    - exists (next_id s2). split; [lia |].
      through_block H5. through_block H4. through_block H3. through_block H2.
      through_block H1. rewrite Hj0. reflexivity.
    - exists (next_id s3). split; [lia |].
      through_block H5. through_block H4. through_block H3. through_block H2.
      through_block H1. rewrite Hj0. reflexivity.
    - exists (next_id s4). split; [lia |].
      through_block H5. through_block H4. through_block H3. through_block H2.
      through_block H1. rewrite Hj0. reflexivity. }
  split.
  { exists (next_id s5). split; [lia |].
    rewrite A6. congruence. }
  lia.
Qed.

(** ** The effect of [addGame] *)

Lemma partial_ret {A : Type} (a : A) (s : store) (Q : A -> store -> Prop) :
  Q a s -> partial (ret a) s Q.
Proof. intros H. exact H. Qed.

Lemma partial_query {A : Type} (q : store -> A) (s : store) (Q : A -> store -> Prop) :
  Q (q s) s -> partial (query q) s Q.
Proof. intros H. exact H. Qed.

Lemma insert_game_returns doc s :
  returns (insert_game doc) s
    (fun i s' =>
       i = next_id s
       /\ next_id s' = S (next_id s)
       /\ games s' = games s ++ [doc (next_id s)]
       /\ joins s' = joins s
       /\ game_aliases s' = game_aliases s).
Proof.
  eexists. eexists. split; [reflexivity |]. simpl. repeat split.
Qed.

Lemma elements_coalesce {A : Type} (v : arg (list A)) :
  match v ?? None with Some l => l | None => [] end = elements v.
Proof. destruct v; reflexivity. Qed.

(** Lines 99-188, after the parent has been resolved. *)
Ltac addGame_tail Hnone :=
  apply returns_partial;
  eapply returns_bind; [apply insert_game_returns |];
  let i := fresh "i" in let s0 := fresh "s0" in
  intros i s0 (-> & Hn0 & Hg0 & Hj0 & Ha0);
  eapply returns_bind; [apply safeInsertMany_returns |];
  intros ? ?s1 H1;
  eapply returns_bind; [apply safeInsertMany_returns |];
  intros ? ?s2 H2;
  eapply returns_bind; [apply safeInsertMany_returns |];
  intros ? ?s3 H3;
  eapply returns_bind; [apply safeInsertMany_returns |];
  intros ? ?s4 H4;
  eapply returns_bind; [apply safeInsertMany_returns |];
  intros ? ?s5 H5;
  eapply returns_bind; [apply alias_block_returns |];
  intros ? ?s6 H6;
  apply returns_ret;
  cbv beta zeta in H1, H2, H3, H4, H5, H6;
  rewrite elements_coalesce in H1, H2, H3, H4, H5, H6;
  pose proof H1 as (N1 & G1 & A1 & _);
  pose proof H2 as (N2 & G2 & A2 & _);
  pose proof H3 as (N3 & G3 & A3 & _);
  pose proof H4 as (N4 & G4 & A4 & _);
  pose proof H5 as (N5 & G5 & A5 & _);
  destruct H6 as (N6 & G6 & J6 & A6);
  left; split; [exact Hnone |]; split; [reflexivity |];
  split; [eexists; rewrite G6, G5, G4, G3, G2, G1; exact Hg0 |];
  split;
  [ intros tbl; rewrite J6; destruct tbl; cbn [add_attribute_arg];
    eexists; (split; [| through_block H5; through_block H4; through_block H3;
                        through_block H2; through_block H1; rewrite Hj0; reflexivity]);
    lia
  | split; [eexists; split; [| rewrite A6, A5, A4, A3, A2, A1, Ha0; reflexivity]; lia
           | lia] ].

Lemma addGame_spec now args s :
  partial (addGame now args) s
    (fun r s' => addGame_inserts now args s r s' \/ addGame_skips args s r s').
Proof.
  unfold addGame. cbv zeta.
  apply partial_bind. apply partial_bind. apply partial_query.
  apply partial_unique.
  - intros Hnone.
    destruct (AddArgs.parent_game args) as [| | parentRaw].
    + apply partial_bind, partial_ret. addGame_tail Hnone.
    + apply partial_bind, partial_ret. addGame_tail Hnone.
    + apply partial_bind. apply partial_bind. apply partial_bind. apply partial_query.
      apply partial_unique.
      * intros _. apply partial_ret. addGame_tail Hnone.
      * intros parent _. apply partial_ret. addGame_tail Hnone.
  - intros g Hone. apply returns_partial.
    eapply returns_bind; [apply alias_block_returns |].
    intros u s1 H1. apply returns_ret.
    cbv beta zeta in H1. rewrite elements_coalesce in H1.
    destruct H1 as (N1 & G1 & J1 & A1).
    right. exists g. split; [exact Hone |]. split; [reflexivity |].
    split; [exact G1 |]. split; [exact J1 |]. split; [exact A1 |]. lia.
Qed.

(** ** Idempotent create *)

Lemma lookup_returns {A : Type} (q : store -> list A) (s : store) :
  List.length (q s) <= 1 ->
  returns (rows <- query q ;; unique rows) s
    (fun r s1 => s1 = s /\ r = hd_error (q s)).
Proof.
  intros Hlen. eapply returns_bind with (P := fun rows s1 => s1 = s /\ rows = q s).
  - apply returns_query. split; reflexivity.
  - intros rows s1 (-> & ->). destruct (q s) as [| r [| r' rest]]; simpl in *.
    + apply returns_ret. split; reflexivity.
    + apply returns_ret. split; reflexivity.
    + lia.
Qed.

Lemma addGame_existing_returns now args s g :
  by_normalized_name (addGame_normalizedName args) s = [g] ->
  returns (addGame now args) s (addGame_skips args s).
Proof.
  intros Hone. unfold addGame. cbv zeta.
  eapply returns_bind with (P := fun r s1 => s1 = s /\ r = Some g).
  { eapply returns_mono; [apply lookup_returns; rewrite Hone; simpl; lia |].
    intros r s1 (-> & ->). rewrite Hone. split; reflexivity. }
  intros r s1 (-> & ->). cbv iota.
  eapply returns_bind; [apply alias_block_returns |].
  intros u s1 H1. apply returns_ret.
  cbv beta zeta in H1. rewrite elements_coalesce in H1.
  destruct H1 as (N1 & G1 & J1 & A1).
  exists g. split; [exact Hone |]. split; [reflexivity |].
  split; [exact G1 |]. split; [exact J1 |]. split; [exact A1 |]. lia.
Qed.

Lemma by_normalized_name_games name s s' :
  games s' = games s -> by_normalized_name name s' = by_normalized_name name s.
Proof. unfold by_normalized_name. intros ->. reflexivity. Qed.

(** After a call that returned, exactly one entity has the key, and it
    is the one whose identity was returned. *)
Lemma addGame_leaves_one now args s r s' :
  addGame now args s = Ok (r, s') ->
  exists g,
    by_normalized_name (addGame_normalizedName args) s' = [g]
    /\ Game._id g = AddResult._id r.
Proof.
  intros Hrun.
  destruct (partial_det _ _ _ _ _ (addGame_spec now args s) Hrun) as [Hins | Hskip].
  - destruct Hins as (Hnone & -> & (parent & Hg) & _).
    eexists. split.
    + unfold by_normalized_name in *. rewrite Hg, filter_app, Hnone. simpl.
      rewrite String.eqb_refl. reflexivity.
    + reflexivity.
  - destruct Hskip as (g & Hone & -> & Hg & _).
    exists g. split; [| reflexivity].
    rewrite (by_normalized_name_games _ _ _ Hg). exact Hone.
Qed.

(** The second of two calls with one key, when the first has returned. *)
Lemma addGame_second_call now1 now2 args1 args2 s r1 s1 :
  addGame now1 args1 s = Ok (r1, s1) ->
  addGame_normalizedName args2 = addGame_normalizedName args1 ->
  exists s2,
    addGame now2 args2 s1
    = Ok ({| AddResult._id := AddResult._id r1; AddResult.inserted := false |}, s2)
    /\ games s2 = games s1
    /\ List.length (by_normalized_name (addGame_normalizedName args1) s2) = 1.
Proof.
  intros Hrun1 Hkey.
  destruct (addGame_leaves_one _ _ _ _ _ Hrun1) as (g & Hone & Hid).
  rewrite <- Hkey in Hone.
  destruct (addGame_existing_returns now2 args2 s1 g Hone)
    as (r2 & s2 & Hrun2 & g' & Hone' & -> & Hgames & _).
  rewrite Hone in Hone'. injection Hone' as <-.
  exists s2. rewrite <- Hid. split; [exact Hrun2 |]. split; [exact Hgames |].
  rewrite <- Hkey, (by_normalized_name_games _ _ _ Hgames), Hone. reflexivity.
Qed.

Lemma unique_names_lookup name s :
  unique_names s -> List.length (by_normalized_name name s) <= 1.
Proof.
  unfold unique_names, by_normalized_name.
  induction (games s) as [| g l IH]; simpl; intros H; [lia |].
  inversion H as [| n l' Hnotin Hnd]; subst.
  destruct (String.eqb (Game.normalized_name g) name) eqn:E; [| apply IH, Hnd].
  apply String.eqb_eq in E. simpl.
  replace (filter (fun g0 => String.eqb (Game.normalized_name g0) name) l) with (@nil Game.t);
    [simpl; lia |].
  symmetry. clear IH Hnd H.
  induction l as [| h l IHl]; simpl; [reflexivity |].
  destruct (String.eqb (Game.normalized_name h) name) eqn:Eh.
  - apply String.eqb_eq in Eh. exfalso. apply Hnotin. left. congruence.
  - apply IHl. intros Hin. apply Hnotin. right. exact Hin.
Qed.

Ltac returns_anyway :=
  repeat (eapply returns_bind;
          [ first [ apply insert_game_returns
                  | apply safeInsertMany_returns
                  | apply alias_block_returns ]
          | intros ? ? _ ]);
  apply returns_ret; exact I.

(** On a store that satisfies the invariant, [addGame] returns. *)
Lemma addGame_total now args s :
  unique_names s -> exists r s', addGame now args s = Ok (r, s').
Proof.
  intros Hu.
  cut (returns (addGame now args) s (fun _ _ => True)).
  { intros (r & s' & Hrun & _). exists r, s'. exact Hrun. }
  unfold addGame. cbv zeta.
  eapply returns_bind; [apply lookup_returns, unique_names_lookup, Hu |].
  intros existing s0 (-> & _). destruct existing as [g |].
  - returns_anyway.
  - eapply returns_bind with (P := fun _ s1 => s1 = s).
    + destruct (AddArgs.parent_game args) as [| | parentRaw];
        try (apply returns_ret; reflexivity).
      eapply returns_bind; [apply lookup_returns, unique_names_lookup, Hu |].
      intros parent s1 (-> & _). apply returns_ret. reflexivity.
    + intros parentGameId s1 ->. returns_anyway.
Qed.

(** C1, as the code has it.  Idempotent create, for a first call that
    returns: for every two documents that resolve to the same
    normalized_name, when [addGame] with the first has returned,
    [addGame] with the second returns too, inserts no entity (the games
    table is the one the first call left), reports inserted = false
    with the identity the first call returned, and exactly one entity
    row carries that normalized_name.  The first call returns on every
    store in which normalized_name is unique; [addGame] keeps it
    unique, [updateGame] does not. *)
Theorem addGame_idempotent now1 now2 args1 args2 s :
  addGame_normalizedName args2 = addGame_normalizedName args1 ->
  (unique_names s -> exists r1 s1, addGame now1 args1 s = Ok (r1, s1))
  /\ (forall r1 s1,
        addGame now1 args1 s = Ok (r1, s1) ->
        exists s2,
          addGame now2 args2 s1
          = Ok ({| AddResult._id := AddResult._id r1; AddResult.inserted := false |}, s2)
          /\ games s2 = games s1
          /\ List.length (by_normalized_name (addGame_normalizedName args1) s2) = 1).
Proof.
  intros Hkey. split.
  - intros Hu. exact (addGame_total now1 args1 s Hu).
  - intros r1 s1 Hrun1.
    exact (addGame_second_call now1 now2 args1 args2 s r1 s1 Hrun1 Hkey).
Qed.

Lemma addGame_idempotent_witness :
  addGame_normalizedName portal2_p2 = addGame_normalizedName portal2
  /\ exists s2,
       addGame 2000 portal2_p2 store_portal2
       = Ok ({| AddResult._id := 0; AddResult.inserted := false |}, s2)
       /\ games s2 = games store_portal2
       /\ List.length (by_normalized_name "Portal 2" s2) = 1.
Proof.
  split; [reflexivity |].
  exact (proj2 (addGame_idempotent 1000 2000 portal2 portal2_p2 empty_store eq_refl)
           {| AddResult._id := 0; AddResult.inserted := true |} store_portal2 eq_refl).
Defined.

(** C1 as stated fails on a store the mutations build: after "Portal 2"
    and its level pack are ingested and an update names the level pack
    "Portal 2" as well, two entities carry that normalized_name, and
    [addGame] of a document with it throws, the first time and the
    second, instead of reporting inserted = false. *)
Lemma addGame_twice_on_shared_name :
  reachable store_clash
  /\ List.length (by_normalized_name (addGame_normalizedName portal2) store_clash) = 2
  /\ addGame 3000 portal2 store_clash = Throw NotUnique
  /\ addGame 4000 portal2 (state_after (addGame 3000 portal2 store_clash) store_clash)
     = Throw NotUnique.
Proof.
  split; [| split; [reflexivity | split; reflexivity]].
  apply (reachable_updateGame 2500 (update_of 1 (Some "Portal 2") Absent Absent Absent)
           store_peer_review {| UpdateResult._id := 1; UpdateResult.updated := true |});
    [| reflexivity].
  apply (reachable_addGame 1500 (peer_review "Portal 2") store_portal2
           {| AddResult._id := 1; AddResult.inserted := true |}); [| reflexivity].
  apply (reachable_addGame 1000 portal2 empty_store
           {| AddResult._id := 0; AddResult.inserted := true |});
    [apply reachable_empty | reflexivity].
Qed.

(** ** The key of the idempotency lookup *)

Lemma by_normalized_name_nil name s :
  by_normalized_name name s = [] <->
  (forall g, In g (games s) -> Game.normalized_name g <> name).
Proof.
  unfold by_normalized_name. split.
  - intros H g Hin E.
    assert (Hg : In g (filter (fun g => String.eqb (Game.normalized_name g) name) (games s))).
    { apply filter_In. split; [exact Hin | apply String.eqb_eq, E]. }
    rewrite H in Hg. contradiction.
  - intros H. induction (games s) as [| g l IH]; simpl; [reflexivity |].
    destruct (String.eqb (Game.normalized_name g) name) eqn:E.
    + apply String.eqb_eq in E. exfalso. apply (H g); [left; reflexivity | exact E].
    + apply IH. intros g' Hg'. apply H. right. exact Hg'.
Qed.

(** The key as the code has it.  The normalized_name [addGame] stores
    is the supplied normalized_name as it is when it is present and not
    null, and the display_name as it is otherwise: no trimming and no
    case folding.  The lookup is an exact match on this same string. *)
Lemma addGame_key_verbatim now args s r s' :
  addGame now args s = Ok (r, s') ->
  let key := AddArgs.normalized_name args ??! AddArgs.display_name args in
  (AddResult.inserted r = true ->
     (forall g, In g (games s) -> Game.normalized_name g <> key)
     /\ exists g, games s' = games s ++ [g]
                  /\ Game._id g = AddResult._id r
                  /\ Game.normalized_name g = key)
  /\ (AddResult.inserted r = false ->
        games s' = games s
        /\ exists g, In g (games s)
                     /\ Game._id g = AddResult._id r
                     /\ Game.normalized_name g = key).
Proof.
  intros Hrun key.
  destruct (partial_det _ _ _ _ _ (addGame_spec now args s) Hrun) as [Hins | Hskip].
  - destruct Hins as (Hnone & -> & (parent & Hg) & _). split.
    + intros _. split; [apply by_normalized_name_nil; exact Hnone |].
      eexists. split; [exact Hg |]. split; reflexivity.
    + simpl. discriminate.
  - destruct Hskip as (g & Hone & -> & Hg & _). split.
    + simpl. discriminate.
    + intros _. split; [exact Hg |]. exists g.
      assert (Hin : In g (by_normalized_name (addGame_normalizedName args) s)).
      { rewrite Hone. left. reflexivity. }
      apply filter_In in Hin. destruct Hin as (Hin & E).
      split; [exact Hin |]. split; [reflexivity |]. apply String.eqb_eq, E.
Qed.

Lemma addGame_key_verbatim_witness :
  addGame 1000 portal2 empty_store
  = Ok ({| AddResult._id := 0; AddResult.inserted := true |}, store_portal2)
  /\ exists g, games store_portal2 = games empty_store ++ [g]
               /\ Game._id g = 0
               /\ Game.normalized_name g = "Portal 2".
Proof.
  split; [reflexivity |].
  exact (proj2 (proj1 (addGame_key_verbatim 1000 portal2 empty_store
                         {| AddResult._id := 0; AddResult.inserted := true |}
                         store_portal2 eq_refl) eq_refl)).
Defined.

(** C2 fails on the code.  [addGame] never normalizes its key:
    ingesting [{display_name: "Portal 2"}] into an empty store stores
    the normalized_name "Portal 2", not its trimmed, case-folded form
    "portal 2"; the lookup misses what normalization would find, so
    ingesting [{display_name: " portal 2"}] next inserts a second
    entity for the same normalized name, under the key " portal 2". *)
Theorem addGame_key_not_normalized :
  exists s1 s2,
    addGame 1000 portal2 empty_store
    = Ok ({| AddResult._id := 0; AddResult.inserted := true |}, s1)
    /\ map Game.normalized_name (games s1) = ["Portal 2"]
    /\ normalizeString (Val "Portal 2") = Some "portal 2"
    /\ normalizeString (Val " portal 2") = Some "portal 2"
    /\ addGame 2000 (doc_of " portal 2" Absent Absent Absent) s1
       = Ok ({| AddResult._id := 1; AddResult.inserted := true |}, s2)
    /\ map Game.normalized_name (games s2) = ["Portal 2"; " portal 2"].
Proof.
  exists store_portal2,
         (state_after (addGame 2000 (doc_of " portal 2" Absent Absent Absent) store_portal2)
            store_portal2).
  repeat (split; [reflexivity |]). reflexivity.
Qed.

(** ** Updates *)

Lemma get_game_None id s :
  get_game id s = None <-> ~ In id (map Game._id (games s)).
Proof.
  unfold get_game. induction (games s) as [| g l IH]; simpl.
  - split; [intros _ [] | reflexivity].
  - destruct (Nat.eqb (Game._id g) id) eqn:E.
    + apply Nat.eqb_eq in E. split; [discriminate |].
      intros H. exfalso. apply H. left. exact E.
    + apply Nat.eqb_neq in E. rewrite IH. split.
      * intros H [H' | H']; [contradiction | apply H, H'].
      * intros H H'. apply H. right. exact H'.
Qed.

(** C7. An update whose id refers to no entity returns the structured
    result [{_id: id, updated: false}], throws nothing, creates no
    entity and leaves the whole store as it was. *)
Theorem updateGame_not_found now args s :
  ~ In (UpdateArgs.id args) (map Game._id (games s)) ->
  updateGame now args s
  = Ok ({| UpdateResult._id := UpdateArgs.id args; UpdateResult.updated := false |}, s).
Proof.
  intros Hnot. apply get_game_None in Hnot.
  unfold updateGame, bind, db_get, query. rewrite Hnot. reflexivity.
Qed.

Lemma updateGame_not_found_witness :
  ~ In 7 (map Game._id (games store_portal2))
  /\ updateGame 2000 (update_of 7 (Some "Portal Two") Absent (Val ["puzzle"]) Absent)
       store_portal2
     = Ok ({| UpdateResult._id := 7; UpdateResult.updated := false |}, store_portal2).
Proof.
  assert (H : ~ In 7 (map Game._id (games store_portal2))).
  { simpl. intros [E | []]. discriminate E. }
  split; [exact H |].
  exact (updateGame_not_found 2000
           (update_of 7 (Some "Portal Two") Absent (Val ["puzzle"]) Absent)
           store_portal2 H).
Defined.

Lemma find_patched id (fields : Game.t -> Game.t) l existing :
  (forall g, Game._id (fields g) = Game._id g) ->
  find (fun g => Nat.eqb (Game._id g) id) l = Some existing ->
  find (fun g => Nat.eqb (Game._id g) id)
       (map (fun g => if Nat.eqb (Game._id g) id then fields g else g) l)
  = Some (fields existing).
Proof.
  intros Hid. induction l as [| g l IH]; simpl; [discriminate |].
  destruct (Nat.eqb (Game._id g) id) eqn:E.
  - intros [= ->]. simpl. rewrite Hid, E. reflexivity.
  - intros H. simpl. rewrite E. apply IH, H.
Qed.

(** An update of an existing entity returns, and the entity read back
    is the patched one. *)
Lemma updateGame_stored now args s existing :
  get_game (UpdateArgs.id args) s = Some existing ->
  parent_admitted args ->
  exists s',
    updateGame now args s
    = Ok ({| UpdateResult._id := UpdateArgs.id args; UpdateResult.updated := true |}, s')
    /\ get_game (UpdateArgs.id args) s' = Some (updated_game now args existing existing).
Proof.
  intros Hget Hadm.
  destruct (updateGame_existing now args s existing Hget Hadm)
    as (r & s' & Hrun & -> & Hgames & _).
  exists s'. split; [exact Hrun |].
  unfold get_game in *. rewrite Hgames.
  apply find_patched; [reflexivity | exact Hget].
Qed.

Lemma games_id_text raw i : games_id raw = Some i -> id_text i = raw.
Proof.
  unfold games_id. destruct (NilZero.uint_of_string raw) as [d |]; [| discriminate].
  destruct (String.eqb (id_text (Nat.of_uint d)) raw) eqn:E; [| discriminate].
  intros [= <-]. apply String.eqb_eq, E.
Qed.




(** ** Decade derivation *)

Lemma computeDecade_decade_of year :
  safe_number year -> decade_of year (computeDecade year).
Proof.
  intros _. destruct year as [[| y] |]; simpl; try reflexivity.
  exists (y / 10 * 10)%Z. split; [reflexivity |]. split.
  - apply Z.mod_mul. lia.
  - pose proof (Z.mod_pos_bound y 10 ltac:(lia)).
    pose proof (Z.div_mod y 10 ltac:(lia)). lia.
Qed.

(** C5. Decade derivation: the entity written by [addGame] and the
    entity written by an [updateGame] that returns (one whose
    parent_game the schema admits) hold the release_year resolved from
    the arguments (and, for an update, from the stored entity), and the
    release_decade that [computeDecade] gives for it.  For a year Y
    that is a safe integer this is the multiple of ten d with
    d <= Y < d + 10, that is floor(Y/10)*10; there is no decade when
    the year is absent or not a number.  No argument supplies it. *)
Theorem release_decade_derived :
  (forall now args s r s',
     addGame now args s = Ok (r, s') ->
     AddResult.inserted r = true ->
     exists g,
       games s' = games s ++ [g]
       /\ Game._id g = AddResult._id r
       /\ Game.release_year g = AddArgs.release_year args ?? None
       /\ Game.release_decade g = computeDecade (Game.release_year g)
       /\ (safe_number (Game.release_year g) ->
           decade_of (Game.release_year g) (Game.release_decade g)))
  /\ (forall now args s existing,
        get_game (UpdateArgs.id args) s = Some existing ->
        parent_admitted args ->
        exists s' g,
          updateGame now args s
          = Ok ({| UpdateResult._id := UpdateArgs.id args;
                   UpdateResult.updated := true |}, s')
          /\ get_game (UpdateArgs.id args) s' = Some g
          /\ Game.release_year g
             = UpdateArgs.release_year args ?? Game.release_year existing
          /\ Game.release_decade g = computeDecade (Game.release_year g)
          /\ (safe_number (Game.release_year g) ->
              decade_of (Game.release_year g) (Game.release_decade g))).
Proof.
  split.
  - intros now args s r s' Hrun Hins.
    destruct (partial_det _ _ _ _ _ (addGame_spec now args s) Hrun) as [H | H].
    + destruct H as (_ & -> & (parent & Hg) & _).
      eexists. split; [exact Hg |]. split; [reflexivity |]. split; [reflexivity |].
      split; [reflexivity |]. apply computeDecade_decade_of.
    + destruct H as (g & _ & -> & _). discriminate Hins.
  - intros now args s existing Hget Hadm.
    destruct (updateGame_stored now args s existing Hget Hadm) as (s' & Hrun & Hget').
    exists s', (updated_game now args existing existing).
    split; [exact Hrun |]. split; [exact Hget' |]. split; [reflexivity |].
    split; [reflexivity |]. apply computeDecade_decade_of.
Qed.

Lemma release_decade_derived_witness :
  let args := update_of 0 None (Val (Num 2011)) Absent Absent in
  get_game 0 store_portal2 = Some portal2_row
  /\ parent_admitted args
  /\ exists s' g,
       updateGame 2000 args store_portal2
       = Ok ({| UpdateResult._id := 0; UpdateResult.updated := true |}, s')
       /\ get_game 0 s' = Some g
       /\ Game.release_year g = Some (Num 2011)
       /\ Game.release_decade g = computeDecade (Game.release_year g)
       /\ (safe_number (Game.release_year g) ->
           decade_of (Game.release_year g) (Game.release_decade g)).
Proof.
  intros args. split; [reflexivity |]. split; [exact I |].
  exact (proj2 release_decade_derived 2000%Z args store_portal2 portal2_row eq_refl I).
Defined.

(** ** Replace-all reconciliation of join rows and aliases *)

Lemma new_join_rows_own base id ry rd vs :
  filter (fun r => Nat.eqb (Join.gameId r) id) (new_join_rows base id ry rd vs)
  = new_join_rows base id ry rd vs.
Proof.
  revert base. induction vs as [| v vs IH]; intros base; simpl; [reflexivity |].
  rewrite Nat.eqb_refl, IH. reflexivity.
Qed.

Lemma new_join_rows_other base id id' ry rd vs :
  id' <> id ->
  filter (fun r => Nat.eqb (Join.gameId r) id') (new_join_rows base id ry rd vs) = [].
Proof.
  intros Hne. revert base. induction vs as [| v vs IH]; intros base; simpl; [reflexivity |].
  destruct (Nat.eqb id id') eqn:E; [apply Nat.eqb_eq in E; congruence | apply IH].
Qed.

Lemma new_join_rows_payload base id ry rd vs :
  map join_payload (new_join_rows base id ry rd vs) = map (fun v => (id, v, ry, rd)) vs.
Proof.
  revert base. induction vs as [| v vs IH]; intros base; simpl; [reflexivity |].
  rewrite IH. reflexivity.
Qed.

Lemma new_join_rows_length base id ry rd vs :
  List.length (new_join_rows base id ry rd vs) = List.length vs.
Proof.
  revert base. induction vs as [| v vs IH]; intros base; simpl; [reflexivity |].
  rewrite IH. reflexivity.
Qed.

Lemma new_alias_rows_own base id notes al :
  filter (fun r => Nat.eqb (Alias.gameId r) id) (new_alias_rows base id notes al)
  = new_alias_rows base id notes al.
Proof.
  revert base. induction al as [| a al IH]; intros base; simpl; [reflexivity |].
  rewrite Nat.eqb_refl, IH. reflexivity.
Qed.

Lemma new_alias_rows_length base id notes al :
  List.length (new_alias_rows base id notes al) = List.length al.
Proof.
  revert base. induction al as [| a al IH]; intros base; simpl; [reflexivity |].
  rewrite IH. reflexivity.
Qed.

Lemma reconcile_rows_own id ry rd vs base rows :
  distinct_ids Join._id rows ->
  filter (fun r => Nat.eqb (Join.gameId r) id) (reconcile_rows id ry rd (Val vs) base rows)
  = skipn 1000 (filter (fun r => Nat.eqb (Join.gameId r) id) rows)
    ++ new_join_rows base id ry rd vs.
Proof.
  intros Hd. unfold reconcile_rows.
  rewrite (without_first Join._id 1000 _ rows Hd).
  rewrite filter_app, filter_drop_first, new_join_rows_own. reflexivity.
Qed.

Lemma reconcile_rows_other id id' ry rd vs base rows :
  distinct_ids Join._id rows ->
  id' <> id ->
  filter (fun r => Nat.eqb (Join.gameId r) id') (reconcile_rows id ry rd (Val vs) base rows)
  = filter (fun r => Nat.eqb (Join.gameId r) id') rows.
Proof.
  intros Hd Hne. unfold reconcile_rows.
  rewrite (without_first Join._id 1000 _ rows Hd).
  rewrite filter_app, new_join_rows_other, app_nil_r by exact Hne.
  apply filter_drop_first_other.
  intros r Hr. apply Nat.eqb_eq in Hr. apply Nat.eqb_neq. congruence.
Qed.

Lemma reconcile_aliases_own id al base rows :
  distinct_ids Alias._id rows ->
  filter (fun r => Nat.eqb (Alias.gameId r) id) (reconcile_aliases id (Val al) base rows)
  = skipn 1000 (filter (fun r => Nat.eqb (Alias.gameId r) id) rows)
    ++ new_alias_rows base id None (normalized_aliases al).
Proof.
  intros Hd. unfold reconcile_aliases.
  rewrite (without_first Alias._id 1000 _ rows Hd).
  rewrite filter_app, filter_drop_first, new_alias_rows_own. reflexivity.
Qed.

(** The rows of the entity in an attribute table after an update. *)
Lemma updateGame_join_rows now args s existing tbl :
  let id := UpdateArgs.id args in
  let ry := resolved_year args existing in
  get_game id s = Some existing ->
  parent_admitted args ->
  distinct_ids Join._id (joins s tbl) ->
  exists s',
    updateGame now args s
    = Ok ({| UpdateResult._id := id; UpdateResult.updated := true |}, s')
    /\ (forall vs, attribute_arg tbl args = Val vs ->
          exists base,
            next_id s <= base
            /\ join_by_game tbl id s'
               = skipn 1000 (join_by_game tbl id s)
                 ++ new_join_rows base id ry (computeDecade ry) vs)
    /\ (not_nullish (attribute_arg tbl args) = false -> joins s' tbl = joins s tbl).
Proof.
  intros id ry Hget Hadm Hd.
  destruct (updateGame_existing now args s existing Hget Hadm)
    as (r & s' & Hrun & -> & _ & Hjoins & _).
  exists s'. split; [exact Hrun |].
  destruct (Hjoins tbl) as (base & Hbase & Hrows). split.
  - intros vs Hv. exists base. split; [exact Hbase |].
    unfold join_by_game. rewrite Hrows, Hv. apply reconcile_rows_own, Hd.
  - intros Hv. rewrite Hrows. destruct (attribute_arg tbl args); [reflexivity .. |].
    discriminate Hv.
Qed.

Lemma skipn_all_le {A : Type} (n : nat) (l : list A) :
  List.length l <= n -> skipn n l = [].
Proof.
  revert n. induction l as [| x l IH]; intros [| n] H; simpl in *; try reflexivity; try lia.
  apply IH. lia.
Qed.


(** C10. The bound of replace-all: the delete phase of an update that
    is carried out (one of an existing entity, whose parent_game the
    schema admits) removes the first 1000 rows of the entity in the
    table and no other, so the rows of the entity afterwards are its
    rows after the first 1000, followed by the rows inserted from the
    new array; the same holds for the alias table.  Only the new rows
    remain exactly when the entity had at most 1000 rows; the surplus
    survives. *)
Theorem updateGame_deletes_first_1000 now args s existing tbl :
  let id := UpdateArgs.id args in
  let ry := resolved_year args existing in
  get_game id s = Some existing ->
  parent_admitted args ->
  distinct_ids Join._id (joins s tbl) ->
  distinct_ids Alias._id (game_aliases s) ->
  exists s',
    updateGame now args s
    = Ok ({| UpdateResult._id := id; UpdateResult.updated := true |}, s')
    /\ (forall vs,
          attribute_arg tbl args = Val vs ->
          exists base,
            join_by_game tbl id s'
            = skipn 1000 (join_by_game tbl id s)
              ++ new_join_rows base id ry (computeDecade ry) vs
            /\ List.length (join_by_game tbl id s')
               = List.length (join_by_game tbl id s) - 1000 + List.length vs)
    /\ (forall al,
          UpdateArgs.aliases args = Val al ->
          exists base,
            alias_by_game id s'
            = skipn 1000 (alias_by_game id s)
              ++ new_alias_rows base id None (normalized_aliases al)
            /\ List.length (alias_by_game id s')
               = List.length (alias_by_game id s) - 1000
                 + List.length (normalized_aliases al)).
Proof.
  intros id ry Hget Hadm Hd Hda.
  destruct (updateGame_existing now args s existing Hget Hadm)
    as (r & s' & Hrun & -> & _ & Hjoins & (abase & _ & Haliases) & _).
  exists s'. split; [exact Hrun |]. split.
  - intros vs Hv. destruct (Hjoins tbl) as (base & _ & Hrows).
    exists base.
    assert (E : join_by_game tbl id s'
                = skipn 1000 (join_by_game tbl id s)
                  ++ new_join_rows base id ry (computeDecade ry) vs).
    { unfold join_by_game. rewrite Hrows, Hv. apply reconcile_rows_own, Hd. }
    split; [exact E |].
    rewrite E, length_app, length_skipn, new_join_rows_length. reflexivity.
  - intros al Hal. exists abase.
    assert (E : alias_by_game id s'
                = skipn 1000 (alias_by_game id s)
                  ++ new_alias_rows abase id None (normalized_aliases al)).
    { unfold alias_by_game. rewrite Haliases, Hal. apply reconcile_aliases_own, Hda. }
    split; [exact E |].
    rewrite E, length_app, length_skipn, new_alias_rows_length. reflexivity.
Qed.

Lemma distinct_ids_seq {A : Type} (id : A -> Id) (rows : list A) (a n : nat) :
  map id rows = seq a n -> distinct_ids id rows.
Proof. unfold distinct_ids. intros ->. apply seq_NoDup. Qed.

Lemma store_rpg_indie_distinct : distinct_ids Join._id (joins store_rpg_indie game_tags).
Proof. apply (distinct_ids_seq _ _ 1 2). reflexivity. Qed.

Lemma store_tagged_distinct : distinct_ids Join._id (joins store_tagged game_tags).
Proof. apply (distinct_ids_seq _ _ 1 1001). vm_compute. reflexivity. Qed.



Lemma updateGame_deletes_first_1000_witness :
  get_game 0 store_tagged = Some tagged_row
  /\ parent_admitted retag
  /\ List.length (join_by_game game_tags 0 store_tagged) = 1001
  /\ exists s',
       updateGame 2000 retag store_tagged
       = Ok ({| UpdateResult._id := 0; UpdateResult.updated := true |}, s')
       /\ exists base,
            join_by_game game_tags 0 s'
            = skipn 1000 (join_by_game game_tags 0 store_tagged)
              ++ new_join_rows base 0 None None ["roguelike"]
            /\ List.length (join_by_game game_tags 0 s')
               = List.length (join_by_game game_tags 0 store_tagged) - 1000 + 1.
Proof.
  assert (Hget : get_game 0 store_tagged = Some tagged_row) by (vm_compute; reflexivity).
  split; [exact Hget |]. split; [exact I |]. split; [vm_compute; reflexivity |].
  destruct (updateGame_deletes_first_1000 2000 retag store_tagged tagged_row game_tags
              Hget I store_tagged_distinct (NoDup_nil _))
    as (s' & Hrun & Hval & _).
  exists s'. split; [exact Hrun |].
  exact (Hval ["roguelike"] eq_refl).
Defined.

(** ** Alias attachment *)

(** C6 fails on the code.  [addGame] on an existing normalized_name
    inserts every normalized alias without looking for an existing row:
    ingesting "Portal 2" with the alias "P2" twice leaves two alias
    rows with the same entity and the same alias "p2". *)
Theorem addGame_attaches_alias_twice :
  exists s1 s2,
    addGame 1000 portal2_p2 empty_store
    = Ok ({| AddResult._id := 0; AddResult.inserted := true |}, s1)
    /\ addGame 2000 portal2_p2 s1
       = Ok ({| AddResult._id := 0; AddResult.inserted := false |}, s2)
    /\ map alias_payload (alias_by_game 0 s2) = [(0, "p2", None); (0, "p2", None)].
Proof.
  pose (s1 := state_after (addGame 1000 portal2_p2 empty_store) empty_store).
  exists s1, (state_after (addGame 2000 portal2_p2 s1) s1).
  split; [reflexivity |]. split; reflexivity.
Qed.

(** The sibling path does check: [upsertAliases] called twice with the
    alias "P2" for "Portal 2" inserts one row, and reports no upsert
    the second time. *)
Lemma upsertAliases_checks_first :
  let args := {| UpsertArgs.title := "Portal 2";
                 UpsertArgs.aliases := ["P2"];
                 UpsertArgs.notes := Absent |} in
  exists s1 s2,
    upsertAliases prefix_search args store_portal2
    = Ok ({| UpsertResult._id := Some 0; UpsertResult.upserted := 1 |}, s1)
    /\ upsertAliases prefix_search args s1
       = Ok ({| UpsertResult._id := Some 0; UpsertResult.upserted := 0 |}, s2)
    /\ map alias_payload (alias_by_game 0 s2) = [(0, "p2", None)].
Proof.
  intros args.
  pose (s1 := state_after (upsertAliases prefix_search args store_portal2) store_portal2).
  exists s1, (state_after (upsertAliases prefix_search args s1) s1).
  split; [reflexivity |]. split; reflexivity.
Qed.

(** ** Listings with fallback *)

Lemma clamp_limit_bounds limit dflt cap :
  (1 <= cap)%Z -> 1 <= clamp_limit limit dflt cap <= Z.to_nat cap.
Proof. unfold clamp_limit. intros H. lia. Qed.

(** C8, as the code has it.  The developer, publisher and franchise
    listings read a page of the exact index of their field first; when
    that page has a row it is the answer, with nothing merged into it;
    when it is empty the answer is the terminal page (isDone, no
    continuation cursor) of the first hits of a full-text search: on
    the same field for developer and publisher, on display_name for
    franchise.  The page size is between 1 and 100. *)
Theorem listing_falls_back
    (full_text : search_index -> string -> list Game.t -> list Game.t)
    (paginate : list Game.t -> nat -> option string -> Page.t)
    (key : string) (cursor : option string) (limit : option Z) (s : store) :
  let n := clamp_limit limit 25 100 in
  1 <= n <= 100
  /\ listGamesByDeveloper full_text paginate key cursor limit s
     = fallback_page (paginate (by_field Game.developer key s) n cursor)
                     (firstn n (full_text search_developer key (games s)))
  /\ listGamesByPublisher full_text paginate key cursor limit s
     = fallback_page (paginate (by_field Game.publisher key s) n cursor)
                     (firstn n (full_text search_publisher key (games s)))
  /\ listGamesByFranchise full_text paginate key cursor limit s
     = fallback_page (paginate (by_field Game.franchise key s) n cursor)
                     (firstn n (full_text search_display_name key (games s)))
  /\ searchField search_developer = Game.developer
  /\ searchField search_publisher = Game.publisher
  /\ (forall g, searchField search_display_name g = Some (Game.display_name g)).
Proof.
  intros n. split; [apply (clamp_limit_bounds limit 25 100); lia |].
  unfold listGamesByDeveloper, listGamesByPublisher, listGamesByFranchise, fallback_page.
  fold n. repeat split.
  - destruct (Page.page (paginate (by_field Game.developer key s) n cursor)); reflexivity.
  - destruct (Page.page (paginate (by_field Game.publisher key s) n cursor)); reflexivity.
  - destruct (Page.page (paginate (by_field Game.franchise key s) n cursor)); reflexivity.
Qed.

(** C8 as stated fails for the franchise listing: the franchise
    "aperture" matches no row of the exact index, and the fallback
    answers with "Aperture Tag", a hit on display_name, not with
    "Portal 2", the hit of a search over the franchise field. *)
Lemma listGamesByFranchise_searches_display_name :
  ~ (forall full_text paginate franchise cursor limit s,
       Page.page (paginate (by_field Game.franchise franchise s)
                           (clamp_limit limit 25 100) cursor) = [] ->
       Page.page (listGamesByFranchise full_text paginate franchise cursor limit s)
       = firstn (clamp_limit limit 25 100)
                (full_text {| searchField := Game.franchise |} franchise (games s))).
Proof.
  intros H.
  specialize (H prefix_search one_page "aperture" None None store_aperture eq_refl).
  vm_compute in H. discriminate H.
Qed.

(** ** Name search *)

Lemma filter_true {A : Type} (rows : list A) : filter (fun _ : A => true) rows = rows.
Proof. induction rows as [| r rows IH]; [reflexivity | simpl; f_equal; exact IH]. Qed.

Lemma filter_filter_and {A : Type} (p q : A -> bool) (l : list A) :
  filter p (filter q l) = filter (fun x => q x && p x) l.
Proof.
  induction l as [| x l IH]; simpl; [reflexivity |].
  destruct (q x); simpl; [destruct (p x) |]; congruence.
Qed.

Lemma filter_unseen_spec seen rows :
  filter_unseen seen rows
  = filter (fun g => negb (existsb (Nat.eqb (Game._id g)) seen)) (first_occurrences rows).
Proof.
  revert seen. induction rows as [| g rows IH]; intros seen; simpl; [reflexivity |].
  destruct (existsb (Nat.eqb (Game._id g)) seen) eqn:E; simpl.
  - rewrite IH, filter_filter_and. apply filter_ext. intros h.
    destruct (Nat.eqb (Game._id h) (Game._id g)) eqn:Eh; simpl; [| reflexivity].
    apply Nat.eqb_eq in Eh. rewrite Eh, E. reflexivity.
  - f_equal. rewrite IH, filter_filter_and. apply filter_ext. intros h. simpl.
    rewrite negb_orb. reflexivity.
Qed.

Lemma first_occurrences_app D N :
  first_occurrences (D ++ N)
  = first_occurrences D ++ filter (fun g => negb (has_id D g)) (first_occurrences N).
Proof.
  induction D as [| g D IH]; simpl.
  - unfold has_id. simpl. symmetry. apply filter_true.
  - f_equal. rewrite IH, filter_app. f_equal.
    rewrite filter_filter_and. apply filter_ext. intros h.
    unfold has_id. simpl. rewrite negb_orb. apply andb_comm.
Qed.

Lemma distinct_ids_filter {A : Type} (id : A -> Id) (keep : A -> bool) (rows : list A) :
  distinct_ids id rows -> distinct_ids id (filter keep rows).
Proof.
  unfold distinct_ids. induction rows as [| r rows IH]; simpl; intros H; [exact H |].
  inversion H as [| y l' Hnotin Hnd]; subst.
  destruct (keep r); simpl.
  - constructor; [| apply IH, Hnd].
    intros Hin. apply Hnotin. apply in_map_iff in Hin.
    destruct Hin as (z & Ez & Hz). apply filter_In in Hz.
    apply in_map_iff. exists z. split; [exact Ez | apply Hz].
  - apply IH, Hnd.
Qed.

Lemma first_occurrences_distinct rows : distinct_ids Game._id (first_occurrences rows).
Proof.
  unfold distinct_ids. induction rows as [| g rows IH]; simpl; [constructor |].
  constructor.
  - intros Hin. apply in_map_iff in Hin. destruct Hin as (h & Eh & Hh).
    apply filter_In in Hh. destruct Hh as (_ & Hne).
    apply negb_true_iff, Nat.eqb_neq in Hne. contradiction.
  - apply (distinct_ids_filter Game._id), IH.
Qed.

Lemma first_occurrences_id rows :
  distinct_ids Game._id rows -> first_occurrences rows = rows.
Proof.
  unfold distinct_ids. induction rows as [| g rows IH]; simpl; intros H; [reflexivity |].
  inversion H as [| y l' Hnotin Hnd]; subst.
  f_equal. rewrite (IH Hnd).
  rewrite <- (filter_true rows) at 2. apply filter_ext_in.
  intros h Hh. apply negb_true_iff, Nat.eqb_neq.
  intros E. apply Hnotin. rewrite <- E. apply in_map. exact Hh.
Qed.

Lemma NoDup_firstn {A : Type} (n : nat) (l : list A) : NoDup l -> NoDup (firstn n l).
Proof.
  revert n. induction l as [| x l IH]; intros [| n] H; simpl; try constructor.
  - inversion H as [| y l' Hnotin Hnd]; subst.
    intros Hin. apply Hnotin. apply (in_firstn n). exact Hin.
  - inversion H; subst. apply IH. assumption.
Qed.

Lemma clamp_limit_cases limit dflt cap :
  (1 <= dflt <= cap)%Z ->
  clamp_limit limit dflt cap
  = match limit with
    | None => Z.to_nat dflt
    | Some l =>
        if (l <? 1)%Z then 1 else if (cap <? l)%Z then Z.to_nat cap else Z.to_nat l
    end.
Proof.
  intros H. unfold clamp_limit. destruct limit as [l |]; [| f_equal; lia].
  destruct (Z.ltb_spec l 1); [lia |]. destruct (Z.ltb_spec cap l); f_equal; lia.
Qed.

(** C9, as the code has it.  Name search: the result is the
    display-name hits, followed by the normalized-name hits whose
    identity is not among them, each identity kept once, cut to the
    effective limit: the requested limit when it is between 1 and 50,
    1 for a requested limit below 1, 50 for one above 50, and 20 when
    none is requested; each of the two searches is cut to it too.  The
    identities of the result are distinct.  When each search returns
    an entity once, the result is the display-name hits as they are,
    then the normalized-name-only hits in their own order: the two
    rankings are not merged. *)
Theorem searchGamesByName_merges
    (full_text : search_index -> string -> list Game.t -> list Game.t)
    (q : string) (limit : option Z) (s : store) :
  let n := match limit with
           | None => 20
           | Some l => if (l <? 1)%Z then 1 else if (50 <? l)%Z then 50 else Z.to_nat l
           end in
  let byDisplay := firstn n (full_text search_display_name q (games s)) in
  let byNormalized := firstn n (full_text search_normalized_name q (games s)) in
  let result := searchGamesByName full_text q limit s in
  result
  = firstn n (first_occurrences byDisplay
              ++ filter (fun g => negb (has_id byDisplay g))
                        (first_occurrences byNormalized))
  /\ distinct_ids Game._id result
  /\ List.length result <= n
  /\ 1 <= n <= 50
  /\ (distinct_ids Game._id byDisplay ->
      distinct_ids Game._id byNormalized ->
      result
      = firstn n (byDisplay ++ filter (fun g => negb (has_id byDisplay g)) byNormalized)).
Proof.
  intros n byDisplay byNormalized result.
  assert (Hn : clamp_limit limit 20 50 = n).
  { rewrite clamp_limit_cases by lia. unfold n. destruct limit; reflexivity. }
  assert (E : result = firstn n (first_occurrences (byDisplay ++ byNormalized))).
  { unfold result, searchGamesByName. cbv zeta. rewrite Hn.
    fold byDisplay. fold byNormalized.
    rewrite filter_unseen_spec. simpl. rewrite filter_true. reflexivity. }
  split; [rewrite E, first_occurrences_app; reflexivity |].
  split.
  { rewrite E. unfold distinct_ids. rewrite <- firstn_map.
    apply NoDup_firstn. apply first_occurrences_distinct. }
  split; [rewrite E; apply firstn_le_length |].
  split; [rewrite <- Hn; apply (clamp_limit_bounds limit 20 50); lia |].
  intros HD HN. rewrite E, first_occurrences_app.
  rewrite (first_occurrences_id _ HD), (first_occurrences_id _ HN). reflexivity.
Qed.

Lemma searchGamesByName_merges_witness :
  let byDisplay := firstn 1 (prefix_search search_display_name "p" (games store_aperture)) in
  let byNormalized :=
    firstn 1 (prefix_search search_normalized_name "p" (games store_aperture)) in
  distinct_ids Game._id byDisplay
  /\ distinct_ids Game._id byNormalized
  /\ searchGamesByName prefix_search "p" (Some 1%Z) store_aperture
     = firstn 1 (byDisplay ++ filter (fun g => negb (has_id byDisplay g)) byNormalized).
Proof.
  intros byDisplay byNormalized.
  assert (HD : distinct_ids Game._id byDisplay).
  { apply (distinct_ids_seq _ _ 0 1). reflexivity. }
  assert (HN : distinct_ids Game._id byNormalized).
  { apply (distinct_ids_seq _ _ 0 1). reflexivity. }
  split; [exact HD |]. split; [exact HN |].
  exact (proj2 (proj2 (proj2 (proj2
           (searchGamesByName_merges prefix_search "p" (Some 1%Z) store_aperture)))) HD HN).
Defined.

(** C9 as stated fails on the limit: a search that asks for 0 rows is
    answered with one row, since the handler raises a limit below 1 to
    1 (and lowers one above 50 to 50) instead of cutting to the limit
    requested. *)
Lemma searchGamesByName_raises_small_limit :
  ~ (forall full_text q l s,
       List.length (searchGamesByName full_text q (Some l) s) <= Z.to_nat l).
Proof.
  intros H. specialize (H prefix_search "p" 0%Z store_aperture).
  vm_compute in H. lia.
Qed.

(** ** Identities in reachable stores *)

Lemma NoDup_snoc (l : list Id) (x : Id) : NoDup l -> ~ In x l -> NoDup (l ++ [x]).
Proof.
  induction l as [| y l IH]; simpl; intros Hd Hx.
  - constructor; [intros [] | constructor].
  - inversion Hd as [| z l' Hy Hd']; subst. constructor.
    + intros Hin. apply in_app_iff in Hin. destruct Hin as [Hin | [E | []]].
      * contradiction.
      * apply Hx. left. symmetry. exact E.
    + apply IH; [exact Hd' |]. intros Hin. apply Hx. right. exact Hin.
Qed.

Lemma table_ok_insert {A : Type} (id : A -> Id) (n : Id) (rows : list A) (r : A) :
  table_ok id n rows -> id r = n -> table_ok id (S n) (rows ++ [r]).
Proof.
  intros (Hb & Hd) Hr. split.
  - intros x Hx. apply in_app_iff in Hx. destruct Hx as [Hx | [<- | []]].
    + specialize (Hb x Hx). lia.
    + lia.
  - unfold distinct_ids in *. rewrite map_app. simpl.
    apply NoDup_snoc; [exact Hd |]. intros Hin. apply in_map_iff in Hin.
    destruct Hin as (x & Ex & Hx). specialize (Hb x Hx). lia.
Qed.

Lemma table_ok_grow {A : Type} (id : A -> Id) (n m : Id) (rows : list A) :
  table_ok id n rows -> n <= m -> table_ok id m rows.
Proof.
  intros (Hb & Hd) Hnm. split; [| exact Hd].
  intros x Hx. specialize (Hb x Hx). lia.
Qed.

Lemma table_ok_filter {A : Type} (id : A -> Id) (n : Id) (keep : A -> bool) (rows : list A) :
  table_ok id n rows -> table_ok id n (filter keep rows).
Proof.
  intros (Hb & Hd). split.
  - intros x Hx. apply filter_In in Hx. apply Hb, Hx.
  - apply distinct_ids_filter, Hd.
Qed.

Lemma table_ok_patch (n id : Id) (fields : Game.t -> Game.t) (rows : list Game.t) :
  (forall g, Game._id (fields g) = Game._id g) ->
  table_ok Game._id n rows ->
  table_ok Game._id n
    (map (fun g => if Nat.eqb (Game._id g) id then fields g else g) rows).
Proof.
  intros Hid (Hb & Hd).
  assert (E : map Game._id (map (fun g => if Nat.eqb (Game._id g) id then fields g else g) rows)
              = map Game._id rows).
  { rewrite map_map. apply map_ext. intros g.
    destruct (Nat.eqb (Game._id g) id); [apply Hid | reflexivity]. }
  split.
  - intros x Hx. apply in_map_iff in Hx. destruct Hx as (g & <- & Hg).
    specialize (Hb g Hg). destruct (Nat.eqb (Game._id g) id); [rewrite Hid |]; exact Hb.
  - unfold distinct_ids. rewrite E. exact Hd.
Qed.

Section Preservation.

Context (I : store -> Prop).

Lemma preserves_ret {A : Type} (a : A) : preserves I (ret a).
Proof. intros s Hs. exact Hs. Qed.

Lemma preserves_throw {A : Type} (e : error) : preserves I (@throw A e).
Proof. intros s Hs. exact Logic.I. Qed.

Lemma preserves_query {A : Type} (q : store -> A) : preserves I (query q).
Proof. intros s Hs. exact Hs. Qed.

Lemma preserves_unique {A : Type} (rows : list A) : preserves I (unique rows).
Proof.
  destruct rows as [| r [| r' rows]]; simpl;
    [apply preserves_ret | apply preserves_ret | apply preserves_throw].
Qed.

Lemma preserves_bind {A B : Type} (m : M A) (k : A -> M B) :
  preserves I m -> (forall a, preserves I (k a)) -> preserves I (bind m k).
Proof.
  intros Hm Hk s Hs. specialize (Hm s Hs). unfold partial, bind in *.
  destruct (m s) as [[a s1] | e]; [apply Hk, Hm | exact Logic.I].
Qed.

Lemma preserves_for_of {A : Type} (xs : list A) (body : A -> M unit) :
  (forall x, preserves I (body x)) -> preserves I (for_of xs body).
Proof.
  intros Hbody. induction xs as [| x xs IH]; simpl.
  - apply preserves_ret.
  - apply preserves_bind; [apply Hbody | intros _; exact IH].
Qed.

Lemma preserves_for_of_acc {A B : Type} (xs : list A) (acc : B) (body : B -> A -> M B) :
  (forall acc x, preserves I (body acc x)) -> preserves I (for_of_acc xs acc body).
Proof.
  intros Hbody. revert acc. induction xs as [| x xs IH]; intros acc; simpl.
  - apply preserves_ret.
  - apply preserves_bind; [apply Hbody | intros acc'; apply IH].
Qed.

Lemma preserves_when (c : bool) (m : M unit) :
  preserves I m -> preserves I (when c m).
Proof. intros Hm. destruct c; [exact Hm | apply preserves_ret]. Qed.

End Preservation.

Lemma insert_game_wf doc :
  (forall i, Game._id (doc i) = i) -> preserves well_formed (insert_game doc).
Proof.
  intros Hid s (Hg & Hj & Ha). split; [| split]; simpl.
  - apply table_ok_insert; [exact Hg | apply Hid].
  - intros t. eapply table_ok_grow; [apply Hj | lia].
  - eapply table_ok_grow; [apply Ha | lia].
Qed.

Lemma insert_join_wf tbl doc :
  (forall i, Join._id (doc i) = i) -> preserves well_formed (insert_join tbl doc).
Proof.
  intros Hid s (Hg & Hj & Ha). split; [| split]; simpl.
  - eapply table_ok_grow; [apply Hg | lia].
  - intros t. destruct (join_table_eqb t tbl).
    + apply table_ok_insert; [apply Hj | apply Hid].
    + eapply table_ok_grow; [apply Hj | lia].
  - eapply table_ok_grow; [apply Ha | lia].
Qed.

Lemma insert_alias_wf doc :
  (forall i, Alias._id (doc i) = i) -> preserves well_formed (insert_alias doc).
Proof.
  intros Hid s (Hg & Hj & Ha). split; [| split]; simpl.
  - eapply table_ok_grow; [apply Hg | lia].
  - intros t. eapply table_ok_grow; [apply Hj | lia].
  - apply table_ok_insert; [exact Ha | apply Hid].
Qed.

Lemma delete_join_wf tbl i : preserves well_formed (delete_join tbl i).
Proof.
  intros s (Hg & Hj & Ha). split; [| split]; simpl; [exact Hg | | exact Ha].
  intros t. destruct (join_table_eqb t tbl); [apply table_ok_filter |]; apply Hj.
Qed.

Lemma delete_alias_wf i : preserves well_formed (delete_alias i).
Proof.
  intros s (Hg & Hj & Ha). split; [| split]; simpl; [exact Hg | exact Hj |].
  apply table_ok_filter, Ha.
Qed.

Lemma patch_rows_spec id fields rows patched :
  patch_rows id fields rows = Some patched ->
  patched
  = map (fun g => if Nat.eqb (Game._id g) id
                  then match fields g with Some g' => g' | None => g end
                  else g) rows.
Proof.
  revert patched. induction rows as [| g rows IH]; simpl; intros patched H.
  - injection H as <-. reflexivity.
  - destruct (Nat.eqb (Game._id g) id).
    + destruct (fields g) as [g' |]; [| discriminate H].
      destruct (patch_rows id fields rows) as [rest |]; [| discriminate H].
      injection H as <-. rewrite (IH rest eq_refl). reflexivity.
    + destruct (patch_rows id fields rows) as [rest |]; [| discriminate H].
      injection H as <-. rewrite (IH rest eq_refl). reflexivity.
Qed.

Lemma patch_game_wf id fields :
  (forall g g', fields g = Some g' -> Game._id g' = Game._id g) ->
  preserves well_formed (patch_game id fields).
Proof.
  intros Hid s (Hg & Hj & Ha). unfold partial, patch_game.
  destruct (patch_rows id fields (games s)) as [rows |] eqn:E; [| exact Logic.I].
  split; [| split]; simpl; [| exact Hj | exact Ha].
  rewrite (patch_rows_spec _ _ _ _ E). apply table_ok_patch; [| exact Hg].
  intros g. destruct (fields g) as [g' |] eqn:Eg; [apply (Hid g), Eg | reflexivity].
Qed.

Lemma updateGame_patch_id now args existing ry rd name g g' :
  updateGame_patch now args existing ry rd name g = Some g' -> Game._id g' = Game._id g.
Proof.
  unfold updateGame_patch. destruct (schema_parent _ _); [| discriminate].
  intros [= <-]. reflexivity.
Qed.

Lemma updateGame_patch_decade now args existing ry name g g' :
  updateGame_patch now args existing ry (computeDecade ry) name g = Some g' ->
  Game.release_decade g' = computeDecade (Game.release_year g').
Proof.
  unfold updateGame_patch. destruct (schema_parent _ _); [| discriminate].
  intros [= <-]. reflexivity.
Qed.

(** One step through the structure of a handler. *)
Ltac preserve_step :=
  lazymatch goal with
  | |- preserves _ (bind _ _) => apply preserves_bind; [| intros ?]
  | |- preserves _ (ret _) => apply preserves_ret
  | |- preserves _ (query _) => apply preserves_query
  | |- preserves _ (db_get _) => apply preserves_query
  | |- preserves _ (unique _) => apply preserves_unique
  | |- preserves _ (for_of _ _) => apply preserves_for_of; intros ?
  | |- preserves _ (for_of_acc _ _ _) => apply preserves_for_of_acc; intros ? ?
  | |- preserves _ (when _ _) => apply preserves_when
  | |- preserves _ (insert_game _) => apply insert_game_wf; reflexivity
  | |- preserves _ (insert_join _ _) => apply insert_join_wf; reflexivity
  | |- preserves _ (insert_alias _) => apply insert_alias_wf; reflexivity
  | |- preserves _ (delete_join _ _) => apply delete_join_wf
  | |- preserves _ (delete_alias _) => apply delete_alias_wf
  | |- preserves _ (patch_game _ _) => apply patch_game_wf, updateGame_patch_id
  | |- preserves _ (safeInsertMany _ _ _ _ _) => unfold safeInsertMany
  | |- preserves _ (clearJoin _ _) => unfold clearJoin
  | |- preserves _ (clearJoin_game_aliases _) => unfold clearJoin_game_aliases
  | |- preserves _ (match ?x with _ => _ end) => destruct x
  | |- preserves _ (let _ := _ in _) => cbv zeta
  end.

Lemma addGame_wf now args : preserves well_formed (addGame now args).
Proof. unfold addGame. repeat preserve_step. Qed.

Lemma updateGame_wf now args : preserves well_formed (updateGame now args).
Proof. unfold updateGame. repeat preserve_step. Qed.

Lemma upsertAliases_wf full_text args :
  preserves well_formed (upsertAliases full_text args).
Proof. unfold upsertAliases. repeat preserve_step. Qed.

(** Every store the mutations build assigns distinct identities, below
    its counter, to the rows of each table. *)
Lemma reachable_well_formed s : reachable s -> well_formed s.
Proof.
  induction 1 as [| now args s r s' _ IH Hrun | now args s r s' _ IH Hrun
                  | full_text args s r s' _ IH Hrun].
  - split; [| split]; try intros t; (split; [intros r [] | apply NoDup_nil]).
  - exact (partial_det _ _ _ _ _ (addGame_wf now args s IH) Hrun).
  - exact (partial_det _ _ _ _ _ (updateGame_wf now args s IH) Hrun).
  - exact (partial_det _ _ _ _ _ (upsertAliases_wf full_text args s IH) Hrun).
Qed.

Lemma reachable_distinct_ids s :
  reachable s ->
  (forall tbl, distinct_ids Join._id (joins s tbl))
  /\ distinct_ids Alias._id (game_aliases s).
Proof.
  intros H. destruct (reachable_well_formed s H) as (_ & Hj & Ha).
  split; [intros tbl; apply Hj | apply Ha].
Qed.

(** [addGame] keeps normalized names unique: it inserts an entity only
    when no entity has the key. *)
Lemma addGame_unique_names now args : preserves unique_names (addGame now args).
Proof.
  intros s Hu. pose proof (addGame_spec now args s) as H. unfold partial in *.
  destruct (addGame now args s) as [[r s'] | e]; [| exact Logic.I].
  unfold unique_names in *. destruct H as [Hins | Hskip].
  - destruct Hins as (Hnone & _ & (parent & Hg) & _).
    rewrite Hg, map_app. simpl.
    pose proof (proj1 (by_normalized_name_nil _ _) Hnone) as Hfree.
    clear Hg Hnone. revert Hu Hfree.
    generalize (addGame_normalizedName args) as key.
    intros key. induction (games s) as [| g l IH]; simpl; intros Hu Hnone.
    + constructor; [intros [] | constructor].
    + inversion Hu as [| n l' Hnotin Hnd]; subst. constructor.
      * intros Hin. apply in_app_iff in Hin. destruct Hin as [Hin | [E | []]].
        -- contradiction.
        -- apply (Hnone g); [left; reflexivity | symmetry; exact E].
      * apply IH; [exact Hnd |]. intros g' Hg'. apply Hnone. right. exact Hg'.
  - destruct Hskip as (g & _ & _ & Hg & _). rewrite Hg. exact Hu.
Qed.

(** ** A scenario *)

(** "Portal 2" is created without a year, updated with the year 2011,
    then updated with two tags: it ends with the year 2011, the decade
    2010, two tag rows that carry both, and no genre row. *)
Lemma scenario_portal2 :
  let s1 := store_portal2 in
  let s2 :=
    state_after (updateGame 2000 (update_of 0 None (Val (Num 2011)) Absent Absent) s1) s1 in
  let s3 :=
    state_after
      (updateGame 3000 (update_of 0 None Absent (Val ["puzzle"; "sci-fi"]) Absent) s2) s2 in
  option_map (fun g => (Game.release_year g, Game.release_decade g, Game.tags g))
             (get_game 0 s3)
  = Some (Some (Num 2011), Some (Num 2010), Some ["puzzle"; "sci-fi"])
  /\ map join_payload (join_by_game game_tags 0 s3)
     = [(0, "puzzle", Some (Num 2011), Some (Num 2010));
        (0, "sci-fi", Some (Num 2011), Some (Num 2010))]
  /\ join_by_game game_genres 0 s3 = []
  /\ reachable s3.
Proof.
  intros s1 s2 s3. split; [reflexivity |]. split; [reflexivity |].
  split; [reflexivity |].
  apply (reachable_updateGame 3000
           (update_of 0 None Absent (Val ["puzzle"; "sci-fi"]) Absent) s2
           {| UpdateResult._id := 0; UpdateResult.updated := true |});
    [| reflexivity].
  apply (reachable_updateGame 2000
           (update_of 0 None (Val (Num 2011)) Absent Absent) s1
           {| UpdateResult._id := 0; UpdateResult.updated := true |});
    [| reflexivity].
  apply (reachable_addGame 1000 portal2 empty_store
           {| AddResult._id := 0; AddResult.inserted := true |});
    [apply reachable_empty | reflexivity].
Qed.

(** ** The normalizer *)

Lemma lower_char_white_space c : is_white_space (lower_char c) = is_white_space c.
Proof.
  destruct c as [b0 b1 b2 b3 b4 b5 b6 b7].
  destruct b0, b1, b2, b3, b4, b5, b6, b7; reflexivity.
Qed.

Lemma lower_char_idempotent c : lower_char (lower_char c) = lower_char c.
Proof.
  destruct c as [b0 b1 b2 b3 b4 b5 b6 b7].
  destruct b0, b1, b2, b3, b4, b5, b6, b7; reflexivity.
Qed.

Lemma toLowerCase_idempotent s : toLowerCase (toLowerCase s) = toLowerCase s.
Proof.
  induction s as [| c s IH]; simpl; [reflexivity |].
  rewrite lower_char_idempotent, IH. reflexivity.
Qed.

Lemma toLowerCase_append s t : toLowerCase (append s t) = append (toLowerCase s) (toLowerCase t).
Proof. induction s as [| c s IH]; simpl; [reflexivity | rewrite IH; reflexivity]. Qed.

Lemma append_empty_r (s : string) : append s "" = s.
Proof. induction s as [| c s IH]; simpl; [reflexivity | rewrite IH; reflexivity]. Qed.

Lemma append_assoc (s t u : string) : append (append s t) u = append s (append t u).
Proof. induction s as [| c s IH]; simpl; [reflexivity | rewrite IH; reflexivity]. Qed.

Lemma string_rev_append_spec s acc : string_rev_append s acc = append (string_rev s) acc.
Proof.
  unfold string_rev. revert acc. induction s as [| c s IH]; intros acc; simpl.
  - reflexivity.
  - rewrite IH, (IH (String c "")), append_assoc. reflexivity.
Qed.

Lemma string_rev_cons c s : string_rev (String c s) = append (string_rev s) (String c "").
Proof. unfold string_rev at 1. simpl. apply string_rev_append_spec. Qed.

Lemma string_rev_snoc s c : string_rev (append s (String c "")) = String c (string_rev s).
Proof.
  induction s as [| d s IH]; simpl; [reflexivity |].
  rewrite !string_rev_cons, IH. reflexivity.
Qed.

Lemma string_rev_involutive s : string_rev (string_rev s) = s.
Proof.
  induction s as [| c s IH]; [reflexivity |].
  rewrite string_rev_cons, string_rev_snoc, IH. reflexivity.
Qed.

Lemma toLowerCase_rev s : toLowerCase (string_rev s) = string_rev (toLowerCase s).
Proof.
  induction s as [| c s IH]; [reflexivity |].
  simpl toLowerCase. rewrite !string_rev_cons, toLowerCase_append, IH. reflexivity.
Qed.

Lemma trim_start_lower s : trim_start (toLowerCase s) = toLowerCase (trim_start s).
Proof.
  induction s as [| c s IH]; simpl; [reflexivity |].
  rewrite lower_char_white_space. destruct (is_white_space c); [exact IH | reflexivity].
Qed.

Lemma trim_lower s : trim (toLowerCase s) = toLowerCase (trim s).
Proof.
  unfold trim, trim_end.
  rewrite trim_start_lower, <- toLowerCase_rev, trim_start_lower, toLowerCase_rev.
  reflexivity.
Qed.

(** What [trim_start] leaves does not start with white space. *)
Lemma trim_start_clean s c r : trim_start s = String c r -> is_white_space c = false.
Proof.
  induction s as [| d s IH]; simpl; [discriminate |].
  destruct (is_white_space d) eqn:E; [exact IH |].
  intros [= <- <-]. exact E.
Qed.

Lemma trim_start_fixed c r : is_white_space c = false -> trim_start (String c r) = String c r.
Proof. intros E. simpl. rewrite E. reflexivity. Qed.

Lemma trim_start_idempotent s : trim_start (trim_start s) = trim_start s.
Proof.
  destruct (trim_start s) as [| c r] eqn:E; [reflexivity |].
  apply trim_start_fixed. exact (trim_start_clean s c r E).
Qed.

Lemma trim_start_snoc s c :
  is_white_space c = false -> trim_start (append s (String c "")) = append (trim_start s) (String c "").
Proof.
  intros E. induction s as [| d s IH]; simpl.
  - rewrite E. reflexivity.
  - destruct (is_white_space d); [exact IH | reflexivity].
Qed.

Lemma trim_end_cons c r :
  is_white_space c = false -> trim_end (String c r) = String c (trim_end r).
Proof.
  intros E. unfold trim_end.
  rewrite string_rev_cons, trim_start_snoc, string_rev_snoc by exact E. reflexivity.
Qed.

Lemma trim_end_idempotent s : trim_end (trim_end s) = trim_end s.
Proof.
  unfold trim_end. rewrite string_rev_involutive, trim_start_idempotent. reflexivity.
Qed.

Lemma trim_idempotent s : trim (trim s) = trim s.
Proof.
  unfold trim. destruct (trim_start s) as [| c r] eqn:E; [reflexivity |].
  pose proof (trim_start_clean s c r E) as Hc.
  rewrite (trim_end_cons c r Hc), (trim_start_fixed c _ Hc), <- (trim_end_cons c r Hc).
  apply trim_end_idempotent.
Qed.

(** X1. [normalizeString] is idempotent, and its result is canonical:
    trimming or lower-casing it changes nothing, it neither starts nor
    ends with white space. *)
Theorem normalizeString_canonical s t :
  normalizeString (Val s) = Some t ->
  normalizeString (Val t) = Some t
  /\ trim t = t
  /\ toLowerCase t = t
  /\ (forall c r, t = String c r -> is_white_space c = false)
  /\ (forall c r, string_rev t = String c r -> is_white_space c = false).
Proof.
  intros [= <-].
  assert (Ht : trim (toLowerCase (trim s)) = toLowerCase (trim s)).
  { rewrite trim_lower, trim_idempotent. reflexivity. }
  assert (Hl : toLowerCase (toLowerCase (trim s)) = toLowerCase (trim s)).
  { apply toLowerCase_idempotent. }
  split; [simpl; rewrite Ht, Hl; reflexivity |].
  split; [exact Ht |]. split; [exact Hl |]. split.
  - intros c r E. rewrite <- trim_lower in E. unfold trim in E.
    destruct (trim_start (toLowerCase s)) as [| d u] eqn:Es; [discriminate E |].
    pose proof (trim_start_clean _ _ _ Es) as Hd.
    rewrite (trim_end_cons d u Hd) in E. injection E as <- _. exact Hd.
  - intros c r E. rewrite <- trim_lower in E. unfold trim, trim_end in E.
    rewrite string_rev_involutive in E. exact (trim_start_clean _ _ _ E).
Qed.

Lemma normalizeString_canonical_witness :
  normalizeString (Val "  Half-Life 2 ") = Some "half-life 2"
  /\ normalizeString (Val "half-life 2") = Some "half-life 2".
Proof.
  split; [reflexivity |].
  exact (proj1 (normalizeString_canonical "  Half-Life 2 " "half-life 2" eq_refl)).
Defined.

(** X2. Decades are buckets, on the safe integers: the decade of a
    decade is itself, a year that is a multiple of ten is its own
    decade and no other year is, and a later year never lands in an
    earlier decade. *)
Theorem computeDecade_buckets :
  (forall year,
     safe_number year -> computeDecade (computeDecade year) = computeDecade year)
  /\ (forall y,
        safe_integer y ->
        (computeDecade (Some (Num y)) = Some (Num y) <-> (y mod 10 = 0)%Z))
  /\ (forall y1 y2 d1 d2,
        safe_integer y1 -> safe_integer y2 ->
        (y1 <= y2)%Z ->
        computeDecade (Some (Num y1)) = Some (Num d1) ->
        computeDecade (Some (Num y2)) = Some (Num d2) ->
        (d1 <= d2)%Z).
Proof.
  split; [| split].
  - intros [[| y] |] _; simpl; try reflexivity.
    rewrite Z.div_mul by lia. reflexivity.
  - intros y _. simpl. split.
    + intros [= E]. rewrite <- E. apply Z.mod_mul. lia.
    + intros E. f_equal. f_equal.
      pose proof (Z.div_mod y 10 ltac:(lia)). lia.
  - intros y1 y2 d1 d2 _ _ Hle [= <-] [= <-].
    pose proof (Z.div_le_mono y1 y2 10 ltac:(lia) Hle). lia.
Qed.

Lemma computeDecade_buckets_witness :
  safe_integer 1998 /\ safe_integer 2011
  /\ computeDecade (Some (Num 1998)) = Some (Num 1990)
  /\ computeDecade (Some (Num 2011)) = Some (Num 2010)
  /\ (1990 <= 2010)%Z.
Proof.
  assert (H1 : safe_integer 1998) by (unfold safe_integer; simpl; lia).
  assert (H2 : safe_integer 2011) by (unfold safe_integer; simpl; lia).
  split; [exact H1 |]. split; [exact H2 |].
  split; [reflexivity |]. split; [reflexivity |].
  exact (proj2 (proj2 computeDecade_buckets) 1998%Z 2011%Z 1990%Z 2010%Z
           H1 H2 ltac:(lia) eq_refl eq_refl).
Defined.

(** ** More on [addGame] *)

Ltac addGame_tail_games Hp Hq :=
  apply returns_partial;
  eapply returns_bind; [apply insert_game_returns |];
  let i := fresh "i" in let s0 := fresh "s0" in
  intros i s0 (-> & Hn0 & Hg0 & Hj0 & Ha0);
  eapply returns_bind; [apply safeInsertMany_returns |];
  intros ? ?s1 (_ & G1 & _);
  eapply returns_bind; [apply safeInsertMany_returns |];
  intros ? ?s2 (_ & G2 & _);
  eapply returns_bind; [apply safeInsertMany_returns |];
  intros ? ?s3 (_ & G3 & _);
  eapply returns_bind; [apply safeInsertMany_returns |];
  intros ? ?s4 (_ & G4 & _);
  eapply returns_bind; [apply safeInsertMany_returns |];
  intros ? ?s5 (_ & G5 & _);
  eapply returns_bind; [apply alias_block_returns |];
  intros ? ?s6 (_ & G6 & _);
  apply returns_ret; intros _;
  unfold resolved_parent; rewrite Hp; try rewrite Hq;
  rewrite G6, G5, G4, G3, G2, G1; exact Hg0.

(** The document an inserting call appends, parent included. *)
Lemma addGame_document_spec now args s :
  partial (addGame now args) s
    (fun r s' =>
       AddResult.inserted r = true ->
       games s'
       = games s
         ++ [addGame_document now args (addGame_normalizedName args)
               (AddArgs.release_year args ?? None)
               (computeDecade (AddArgs.release_year args ?? None))
               (resolved_parent args s) (next_id s)]).
Proof.
  unfold addGame. cbv zeta.
  apply partial_bind. apply partial_bind. apply partial_query.
  apply partial_unique.
  - intros Hnone.
    destruct (AddArgs.parent_game args) as [| | parentRaw] eqn:Hp.
    + apply partial_bind, partial_ret. addGame_tail_games Hp Hnone.
    + apply partial_bind, partial_ret. addGame_tail_games Hp Hnone.
    + apply partial_bind. apply partial_bind. apply partial_bind. apply partial_query.
      apply partial_unique.
      * intros Hq. apply partial_ret. addGame_tail_games Hp Hq.
      * intros parent Hq. apply partial_ret. addGame_tail_games Hp Hq.
  - intros g Hone. apply returns_partial.
    eapply returns_bind; [apply alias_block_returns |].
    intros u s1 H1. apply returns_ret. simpl. discriminate.
Qed.

Lemma new_alias_rows_payload base id notes al :
  map alias_payload (new_alias_rows base id notes al) = map (fun a => (id, a, notes)) al.
Proof.
  revert base. induction al as [| a al IH]; intros base; simpl; [reflexivity |].
  rewrite IH. reflexivity.
Qed.

Lemma get_game_fresh i rows g :
  (forall x, In x rows -> Game._id x < i) ->
  Game._id g = i ->
  find (fun x => Nat.eqb (Game._id x) i) (rows ++ [g]) = Some g.
Proof.
  intros Hb Hg. induction rows as [| x rows IH]; simpl.
  - rewrite Hg, Nat.eqb_refl. reflexivity.
  - destruct (Nat.eqb (Game._id x) i) eqn:E.
    + apply Nat.eqb_eq in E. specialize (Hb x (or_introl eq_refl)). lia.
    + apply IH. intros y Hy. apply Hb. right. exact Hy.
Qed.

Lemma get_game_in g s :
  distinct_ids Game._id (games s) -> In g (games s) -> get_game (Game._id g) s = Some g.
Proof.
  unfold get_game, distinct_ids. induction (games s) as [| x rows IH]; simpl; [intros _ [] |].
  intros Hd [-> | Hin].
  - rewrite Nat.eqb_refl. reflexivity.
  - inversion Hd as [| y l Hnotin Hd']; subst.
    destruct (Nat.eqb (Game._id x) (Game._id g)) eqn:E; [| apply IH; assumption].
    apply Nat.eqb_eq in E. exfalso. apply Hnotin. rewrite E. apply in_map. exact Hin.
Qed.

Lemma getGameByNormalizedName_one name s g :
  by_normalized_name name s = [g] -> getGameByNormalizedName name s = Ok (Some g, s).
Proof.
  intros H. unfold getGameByNormalizedName, bind, query. rewrite H. reflexivity.
Qed.

(** X3. Create, then look up: on a store whose identities are in
    order, the identity [addGame] returns resolves with [getGameById],
    and the key resolves with [getGameByNormalizedName], to one and the
    same entity, which carries the key; when the call inserted, that
    entity has the document's display_name and summary, as parent the
    entity that the parent string names (none when no entity has the
    string as normalized_name), and both timestamps set to the time of
    the call. *)
Theorem addGame_then_lookup now args s r s' :
  well_formed s ->
  addGame now args s = Ok (r, s') ->
  exists g,
    getGameById (AddResult._id r) s' = Some g
    /\ getGameByNormalizedName (addGame_normalizedName args) s' = Ok (Some g, s')
    /\ Game.normalized_name g = addGame_normalizedName args
    /\ (AddResult.inserted r = true ->
        Game.display_name g = AddArgs.display_name args
        /\ Game.summary g = AddArgs.summary args
        /\ Game.parent_game g = resolved_parent args s
        /\ Game.createdAt g = now
        /\ Game.updatedAt g = now).
Proof.
  intros Hwf Hrun.
  pose proof (partial_det _ _ _ _ _ (addGame_document_spec now args s) Hrun) as Hdoc.
  destruct (partial_det _ _ _ _ _ (addGame_spec now args s) Hrun) as [Hins | Hskip].
  - destruct Hins as (Hnone & -> & _).
    specialize (Hdoc eq_refl). eexists. split; [| split; [| split]].
    + unfold getGameById, get_game. rewrite Hdoc.
      apply get_game_fresh; [apply Hwf | reflexivity].
    + apply getGameByNormalizedName_one.
      unfold by_normalized_name in *. rewrite Hdoc, filter_app, Hnone. simpl.
      rewrite String.eqb_refl. reflexivity.
    + reflexivity.
    + intros _. repeat split.
  - destruct Hskip as (g & Hone & -> & Hg & _).
    assert (Hin : In g (by_normalized_name (addGame_normalizedName args) s)).
    { rewrite Hone. left. reflexivity. }
    apply filter_In in Hin. destruct Hin as (Hin & E).
    exists g. split; [| split; [| split]].
    + unfold getGameById. apply get_game_in.
      * rewrite Hg. apply Hwf.
      * rewrite Hg. exact Hin.
    + apply getGameByNormalizedName_one.
      rewrite (by_normalized_name_games _ _ _ Hg). exact Hone.
    + apply String.eqb_eq, E.
    + simpl. discriminate.
Qed.

Lemma empty_store_well_formed : well_formed empty_store.
Proof. split; [| split]; try intros t; (split; [intros r [] | apply NoDup_nil]). Qed.

Lemma addGame_then_lookup_witness :
  well_formed empty_store
  /\ addGame 1000 portal2 empty_store
     = Ok ({| AddResult._id := 0; AddResult.inserted := true |}, store_portal2)
  /\ exists g,
       getGameById 0 store_portal2 = Some g
       /\ getGameByNormalizedName "Portal 2" store_portal2 = Ok (Some g, store_portal2)
       /\ Game.normalized_name g = "Portal 2".
Proof.
  split; [exact empty_store_well_formed |]. split; [reflexivity |].
  destruct (addGame_then_lookup 1000 portal2 empty_store
              {| AddResult._id := 0; AddResult.inserted := true |} store_portal2
              empty_store_well_formed eq_refl) as (g & H1 & H2 & H3 & _).
  exists g. split; [exact H1 |]. split; [exact H2 | exact H3].
Defined.

(** X4. An inserting [addGame] only appends: one entity to games; to
    each attribute table one row per element of the document's array,
    in order, with the new identity and the document's year and decade;
    to the alias table one row per normalized, non-empty alias, without
    notes.  No row that was there is changed or removed. *)
Theorem addGame_appends now args s r s' :
  addGame now args s = Ok (r, s') ->
  AddResult.inserted r = true ->
  let ry := AddArgs.release_year args ?? None in
  (exists g, games s' = games s ++ [g] /\ Game._id g = AddResult._id r)
  /\ (forall tbl, exists rows,
        joins s' tbl = joins s tbl ++ rows
        /\ map join_payload rows
           = map (fun v => (AddResult._id r, v, ry, computeDecade ry))
                 (elements (add_attribute_arg tbl args)))
  /\ (exists rows,
        game_aliases s' = game_aliases s ++ rows
        /\ map alias_payload rows
           = map (fun a => (AddResult._id r, a, None))
                 (normalized_aliases (elements (AddArgs.aliases args)))).
Proof.
  intros Hrun Hins ry.
  destruct (partial_det _ _ _ _ _ (addGame_spec now args s) Hrun) as [H | H].
  - destruct H as (_ & -> & (parent & Hg) & Hj & (abase & _ & Ha) & _).
    split; [eexists; split; [exact Hg | reflexivity] |]. split.
    + intros tbl. destruct (Hj tbl) as (base & _ & Hrows).
      eexists. split; [exact Hrows | apply new_join_rows_payload].
    + eexists. split; [exact Ha | apply new_alias_rows_payload].
  - destruct H as (g & _ & -> & _). discriminate Hins.
Qed.

Lemma addGame_appends_witness :
  addGame 1000 portal2_rpg_indie empty_store
  = Ok ({| AddResult._id := 0; AddResult.inserted := true |}, store_rpg_indie)
  /\ exists rows,
       joins store_rpg_indie game_tags = joins empty_store game_tags ++ rows
       /\ map join_payload rows = [(0, "rpg", None, None); (0, "indie", None, None)].
Proof.
  split; [reflexivity |].
  exact (proj1 (proj2 (addGame_appends 1000 portal2_rpg_indie empty_store
                         {| AddResult._id := 0; AddResult.inserted := true |}
                         store_rpg_indie eq_refl eq_refl)) game_tags).
Defined.

(** X5. A document for a normalized_name that exists changes no entity
    and no join row, whatever its fields say: [addGame] never updates.
    Its aliases are still appended to the alias table, normalized, for
    the existing entity. *)
Theorem addGame_existing_untouched now args s r s' :
  addGame now args s = Ok (r, s') ->
  AddResult.inserted r = false ->
  games s' = games s
  /\ (forall tbl, joins s' tbl = joins s tbl)
  /\ exists rows,
       game_aliases s' = game_aliases s ++ rows
       /\ map alias_payload rows
          = map (fun a => (AddResult._id r, a, None))
                (normalized_aliases (elements (AddArgs.aliases args))).
Proof.
  intros Hrun Hins.
  destruct (partial_det _ _ _ _ _ (addGame_spec now args s) Hrun) as [H | H].
  - destruct H as (_ & -> & _). discriminate Hins.
  - destruct H as (g & _ & -> & Hg & Hj & Ha & _).
    split; [exact Hg |]. split; [intros tbl; rewrite Hj; reflexivity |].
    eexists. split; [exact Ha | apply new_alias_rows_payload].
Qed.

Lemma addGame_existing_untouched_witness :
  let doc := doc_of "Portal 2" (Val "Valve") (Val ["puzzle"]) (Val ["P2"]) in
  exists s',
    addGame 2000 doc store_portal2
    = Ok ({| AddResult._id := 0; AddResult.inserted := false |}, s')
    /\ games s' = games store_portal2
    /\ (forall tbl, joins s' tbl = joins store_portal2 tbl).
Proof.
  intros doc.
  exists (state_after (addGame 2000 doc store_portal2) store_portal2).
  split; [reflexivity |].
  destruct (addGame_existing_untouched 2000 doc store_portal2
              {| AddResult._id := 0; AddResult.inserted := false |}
              (state_after (addGame 2000 doc store_portal2) store_portal2)
              eq_refl eq_refl) as (Hg & Hj & _).
  split; [exact Hg | exact Hj].
Defined.

Lemma hd_error_filter_name name s :
  match hd_error (by_normalized_name name s) with
  | Some p => In p (games s) /\ Game.normalized_name p = name
  | None => forall p, In p (games s) -> Game.normalized_name p <> name
  end.
Proof.
  destruct (by_normalized_name name s) as [| p rows] eqn:E; simpl.
  - apply by_normalized_name_nil. exact E.
  - assert (Hin : In p (by_normalized_name name s)) by (rewrite E; left; reflexivity).
    apply filter_In in Hin. destruct Hin as (Hin & Hn).
    split; [exact Hin | apply String.eqb_eq, Hn].
Qed.

(** X6. Parent resolution on create: a parent is a string, and it is
    looked up by exact match of the raw string against
    normalized_name, whether it is a name or the id of a document; the
    new entity refers to the entity found, and to no parent (not an
    error) when none has that string as normalized_name.  So the id of
    a stored entity, given as parent, stores no parent unless an entity
    is named by the id.  No parent argument, or null, stores no
    parent. *)
Theorem addGame_resolves_parent now args s r s' :
  addGame now args s = Ok (r, s') ->
  AddResult.inserted r = true ->
  exists g,
    games s' = games s ++ [g]
    /\ Game._id g = AddResult._id r
    /\ match AddArgs.parent_game args with
       | Val parentRaw =>
           ((Game.parent_game g = None
             /\ forall p, In p (games s) -> Game.normalized_name p <> parentRaw)
            \/ (exists p, In p (games s)
                          /\ Game.normalized_name p = parentRaw
                          /\ Game.parent_game g = Some (Game._id p)))
           /\ (forall i,
                 games_id parentRaw = Some i ->
                 (forall p, In p (games s) -> Game.normalized_name p <> id_text i) ->
                 Game.parent_game g = None)
       | Absent | Null => Game.parent_game g = None
       end.
Proof.
  intros Hrun Hins.
  pose proof (partial_det _ _ _ _ _ (addGame_document_spec now args s) Hrun Hins) as Hdoc.
  destruct (partial_det _ _ _ _ _ (addGame_spec now args s) Hrun) as [H | H].
  2: { destruct H as (g & _ & -> & _). discriminate Hins. }
  destruct H as (_ & -> & _).
  eexists. split; [exact Hdoc |]. split; [reflexivity |].
  simpl. unfold resolved_parent.
  destruct (AddArgs.parent_game args) as [| | parentRaw]; try reflexivity.
  pose proof (hd_error_filter_name parentRaw s) as Hp.
  destruct (hd_error (by_normalized_name parentRaw s)) as [p |]; simpl.
  - destruct Hp as (Hin & Hn). split.
    + right. exists p. split; [exact Hin |]. split; [exact Hn | reflexivity].
    + intros i Hi Hno. exfalso. apply (Hno p Hin).
      rewrite (games_id_text _ _ Hi). exact Hn.
  - split; [left; split; [reflexivity | exact Hp] | reflexivity].
Qed.

Lemma addGame_resolves_parent_witness :
  (exists s' g,
     addGame 1500 (peer_review "Portal 2") store_portal2
     = Ok ({| AddResult._id := 1; AddResult.inserted := true |}, s')
     /\ games s' = games store_portal2 ++ [g]
     /\ Game.parent_game g = Some 0)
  /\ (exists s' g,
        games_id "0" = Some 0
        /\ getGameById 0 store_portal2 = Some portal2_row
        /\ addGame 1500 (peer_review "0") store_portal2
           = Ok ({| AddResult._id := 1; AddResult.inserted := true |}, s')
        /\ games s' = games store_portal2 ++ [g]
        /\ Game.parent_game g = None).
Proof.
  split.
  - pose (s' := state_after (addGame 1500 (peer_review "Portal 2") store_portal2)
                            store_portal2).
    destruct (addGame_resolves_parent 1500 (peer_review "Portal 2") store_portal2
                {| AddResult._id := 1; AddResult.inserted := true |} s' eq_refl eq_refl)
      as (g & Hg & _ & Hp).
    exists s', g. split; [reflexivity |]. split; [exact Hg |].
    simpl in Hp. destruct Hp as ([(_ & Hno) | (p & Hin & Hn & Hp)] & _).
    + exfalso. apply (Hno portal2_row); [left; reflexivity | reflexivity].
    + destruct Hin as [<- | []]. exact Hp.
  - pose (s' := state_after (addGame 1500 (peer_review "0") store_portal2)
                            store_portal2).
    destruct (addGame_resolves_parent 1500 (peer_review "0") store_portal2
                {| AddResult._id := 1; AddResult.inserted := true |} s' eq_refl eq_refl)
      as (g & Hg & _ & Hp).
    exists s', g. split; [reflexivity |]. split; [reflexivity |].
    split; [reflexivity |]. split; [exact Hg |].
    cbn [peer_review AddArgs.parent_game] in Hp. destruct Hp as (_ & Hid).
    apply (Hid 0 eq_refl). intros p [<- | []]. discriminate.
Defined.

Lemma addGame_returns_when now args s :
  List.length (by_normalized_name (addGame_normalizedName args) s) <= 1 ->
  (by_normalized_name (addGame_normalizedName args) s = [] ->
   forall parentRaw,
     AddArgs.parent_game args = Val parentRaw ->
     List.length (by_normalized_name parentRaw s) <= 1) ->
  exists r s', addGame now args s = Ok (r, s').
Proof.
  intros Hkey Hparent.
  cut (returns (addGame now args) s (fun _ _ => True)).
  { intros (r & s' & Hrun & _). exists r, s'. exact Hrun. }
  unfold addGame. cbv zeta.
  eapply returns_bind; [apply lookup_returns, Hkey |].
  intros existing s0 (-> & He). destruct existing as [g |].
  - returns_anyway.
  - assert (Hnone : by_normalized_name (addGame_normalizedName args) s = []).
    { destruct (by_normalized_name (addGame_normalizedName args) s);
        [reflexivity | discriminate He]. }
    eapply returns_bind with (P := fun _ s1 => s1 = s).
    + destruct (AddArgs.parent_game args) as [| | parentRaw] eqn:Hp;
        try (apply returns_ret; reflexivity).
      eapply returns_bind; [apply lookup_returns, (Hparent Hnone parentRaw eq_refl) |].
      intros parent s1 (-> & _). apply returns_ret. reflexivity.
    + intros parentGameId s1 ->. returns_anyway.
Qed.

(** X7. The one failure of [addGame]: the call throws exactly when more
    than one entity has the key as normalized_name, or when none has
    it and the parent is given, as a name or as an id, by a string that
    more than one entity has as normalized_name.  In every other case
    it returns. *)
Theorem addGame_throws_iff now args s :
  (exists e, addGame now args s = Throw e)
  <->
  (2 <= List.length (by_normalized_name (addGame_normalizedName args) s)
   \/ (by_normalized_name (addGame_normalizedName args) s = []
       /\ exists parentRaw,
            AddArgs.parent_game args = Val parentRaw
            /\ 2 <= List.length (by_normalized_name parentRaw s))).
Proof.
  split.
  - intros (e & Hthrow).
    destruct (le_lt_dec (List.length (by_normalized_name (addGame_normalizedName args) s)) 1)
      as [Hkey | Hkey]; [| left; lia].
    right.
    destruct (by_normalized_name (addGame_normalizedName args) s) as [| g rows] eqn:Ek.
    + split; [reflexivity |].
      destruct (AddArgs.parent_game args) as [| | parentRaw] eqn:Hp.
      1-2: exfalso;
        destruct (addGame_returns_when now args s) as (r & s' & Hrun);
        [rewrite Ek; simpl; lia | intros _ raw E; rewrite Hp in E; discriminate E | congruence].
      exists parentRaw. split; [reflexivity |].
      destruct (le_lt_dec (List.length (by_normalized_name parentRaw s)) 1) as [Hp1 | Hp1];
        [| lia].
      exfalso. destruct (addGame_returns_when now args s) as (r & s' & Hrun).
      * rewrite Ek. simpl. lia.
      * intros _ raw E. rewrite Hp in E. injection E as <-. exact Hp1.
      * congruence.
    + exfalso. destruct (addGame_returns_when now args s) as (r & s' & Hrun).
      * rewrite Ek. exact Hkey.
      * rewrite Ek. discriminate.
      * congruence.
  - intros [Hkey | (Hnone & parentRaw & Hp & Hraw)]; exists NotUnique.
    + unfold addGame, bind, query.
      destruct (by_normalized_name (addGame_normalizedName args) s) as [| g [| g' rows]];
        simpl in Hkey; try lia. reflexivity.
    + unfold addGame, bind, query. rewrite Hnone. simpl. rewrite Hp.
      destruct (by_normalized_name parentRaw s) as [| g [| g' rows]];
        simpl in Hraw; try lia. reflexivity.
Qed.

Lemma addGame_throws_iff_witness :
  2 <= List.length (by_normalized_name "Portal 2" store_clash)
  /\ exists e, addGame 3000 portal2 store_clash = Throw e.
Proof.
  assert (H : 2 <= List.length (by_normalized_name (addGame_normalizedName portal2)
                                                  store_clash)).
  { simpl. lia. }
  split; [exact H |].
  exact (proj2 (addGame_throws_iff 3000 portal2 store_clash) (or_introl H)).
Defined.

(** ** More on [updateGame] *)

Lemma get_game_some id s g :
  get_game id s = Some g -> In g (games s) /\ Game._id g = id.
Proof.
  unfold get_game. intros H. apply find_some in H. destruct H as (Hin & E).
  split; [exact Hin | apply Nat.eqb_eq, E].
Qed.

Lemma find_patched_other id id' (fields : Game.t -> Game.t) l :
  (forall g, Game._id (fields g) = Game._id g) ->
  id' <> id ->
  find (fun g => Nat.eqb (Game._id g) id')
       (map (fun g => if Nat.eqb (Game._id g) id then fields g else g) l)
  = find (fun g => Nat.eqb (Game._id g) id') l.
Proof.
  intros Hid Hne. induction l as [| g l IH]; simpl; [reflexivity |].
  destruct (Nat.eqb (Game._id g) id) eqn:E.
  - rewrite Hid. apply Nat.eqb_eq in E.
    destruct (Nat.eqb (Game._id g) id') eqn:E'; [| exact IH].
    apply Nat.eqb_eq in E'. congruence.
  - destruct (Nat.eqb (Game._id g) id'); [reflexivity | exact IH].
Qed.

(** X8. What an update leaves alone.  An update of an existing entity
    whose parent_game is a string that is no id of games throws and
    changes nothing.  Any other update of an existing entity is carried
    out: it adds, removes and reorders no entity; every other entity
    reads back as before; the updated entity keeps its identity, its
    createdAt and its aliases column, and its updatedAt is the time of
    the call. *)
Theorem updateGame_frame now args s existing :
  get_game (UpdateArgs.id args) s = Some existing ->
  (~ parent_admitted args -> updateGame now args s = Throw SchemaViolation)
  /\ (parent_admitted args ->
      exists s' g,
        updateGame now args s
        = Ok ({| UpdateResult._id := UpdateArgs.id args; UpdateResult.updated := true |},
              s')
        /\ map Game._id (games s') = map Game._id (games s)
        /\ (forall id', id' <> UpdateArgs.id args -> get_game id' s' = get_game id' s)
        /\ get_game (UpdateArgs.id args) s' = Some g
        /\ Game._id g = UpdateArgs.id args
        /\ Game.createdAt g = Game.createdAt existing
        /\ Game.aliases g = Game.aliases existing
        /\ Game.updatedAt g = now).
Proof.
  intros Hget. split; [exact (updateGame_refused now args s existing Hget) |].
  intros Hadm.
  destruct (updateGame_existing now args s existing Hget Hadm)
    as (r & s' & Hrun & -> & Hgames & _).
  exists s', (updated_game now args existing existing).
  split; [exact Hrun |]. split.
  { rewrite Hgames, map_map. apply map_ext. intros g.
    destruct (Nat.eqb (Game._id g) (UpdateArgs.id args)); reflexivity. }
  split.
  { intros id' Hne. unfold get_game. rewrite Hgames.
    apply find_patched_other; [reflexivity | exact Hne]. }
  split.
  { unfold get_game in *. rewrite Hgames. apply find_patched; [reflexivity | exact Hget]. }
  split; [exact (proj2 (get_game_some _ _ _ Hget)) |].
  repeat split.
Qed.

Lemma updateGame_frame_witness :
  get_game 1 store_peer_review
  = Some (addGame_document 1500 (peer_review "Portal 2") "portal 2: peer review"
            (Some (Num 2011)) (Some (Num 2010)) (Some 0) 1)
  /\ parent_admitted (update_of 1 (Some "Portal 2") Absent Absent Absent)
  /\ exists s' g,
       updateGame 2500 (update_of 1 (Some "Portal 2") Absent Absent Absent) store_peer_review
       = Ok ({| UpdateResult._id := 1; UpdateResult.updated := true |}, s')
       /\ map Game._id (games s') = [0; 1]
       /\ get_game 0 s' = Some portal2_row
       /\ get_game 1 s' = Some g
       /\ Game.createdAt g = 1500%Z
       /\ Game.updatedAt g = 2500%Z.
Proof.
  split; [reflexivity |]. split; [exact I |].
  destruct (proj2 (updateGame_frame 2500
                     (update_of 1 (Some "Portal 2") Absent Absent Absent)
                     store_peer_review _ eq_refl) I)
    as (s' & g & Hrun & Hids & Hother & Hg & _ & Hc & _ & Hu).
  exists s', g. split; [exact Hrun |]. split; [exact Hids |].
  split; [exact (Hother 0 ltac:(discriminate)) |].
  split; [exact Hg |]. split; [exact Hc | exact Hu].
Defined.

(** X9. An update that supplies nothing is not a no-op on the entity:
    every field keeps its value and no join or alias row changes, but
    updatedAt is set to the time of the call and release_decade is
    recomputed from the stored release_year. *)
Theorem updateGame_supplies_nothing now args s existing :
  get_game (UpdateArgs.id args) s = Some existing ->
  supplies_nothing args ->
  exists s' g,
    updateGame now args s
    = Ok ({| UpdateResult._id := UpdateArgs.id args; UpdateResult.updated := true |}, s')
    /\ get_game (UpdateArgs.id args) s' = Some g
    /\ (forall f, f <> f_release_decade -> stored f g = stored f existing)
    /\ Game.release_decade g = computeDecade (Game.release_year existing)
    /\ (Game.genre g, Game.platforms g, Game.tags g,
        Game.multiplayer_type g, Game.input_methods g)
       = (Game.genre existing, Game.platforms existing, Game.tags existing,
          Game.multiplayer_type existing, Game.input_methods existing)
    /\ Game.updatedAt g = now
    /\ (forall tbl, joins s' tbl = joins s tbl)
    /\ game_aliases s' = game_aliases s.
Proof.
  intros Hget (Hf & Ht & Ha).
  assert (Hadm : parent_admitted args).
  { specialize (Hf f_parent_game). unfold parent_admitted. cbn in Hf.
    destruct (UpdateArgs.parent_game args); [exact I | exact I | discriminate Hf]. }
  destruct (updateGame_existing now args s existing Hget Hadm)
    as (r & s' & Hrun & -> & Hgames & Hjoins & (abase & _ & Haliases) & _).
  exists s', (updated_game now args existing existing).
  split; [exact Hrun |]. split.
  { unfold get_game in *. rewrite Hgames. apply find_patched; [reflexivity | exact Hget]. }
  assert (Hy : UpdateArgs.release_year args ?? Game.release_year existing
               = Game.release_year existing).
  { specialize (Hf f_release_year). simpl in Hf.
    destruct (UpdateArgs.release_year args); [reflexivity | reflexivity | discriminate Hf]. }
  split.
  { intros f Hne.
    pose proof (Hf f) as Hnull.
    destruct f; try contradiction; cbn in Hnull; cbn.
    all: try (match goal with
              | H : not_nullish (arg_map _ ?x) = false |- _ =>
                  destruct x; [reflexivity | reflexivity | discriminate H]
              end).
    - pose proof (Hf f_display_name) as Hd. cbn in Hd. unfold resolved_name.
      destruct (UpdateArgs.normalized_name args); try discriminate Hnull;
        destruct (UpdateArgs.display_name args); try discriminate Hd; reflexivity.
    - unfold resolved_year. rewrite Hy. reflexivity.
    - unfold resolved_parent_id.
      destruct (UpdateArgs.parent_game args);
        [reflexivity | reflexivity | discriminate Hnull]. }
  split; [cbn; unfold resolved_year; rewrite Hy; reflexivity |].
  split.
  { pose proof (Ht game_genres) as H1. pose proof (Ht game_platforms) as H2.
    pose proof (Ht game_tags) as H3. pose proof (Ht game_multiplayer) as H4.
    pose proof (Ht game_inputs) as H5. cbn in *.
    destruct (UpdateArgs.genre args); try discriminate H1;
      destruct (UpdateArgs.platforms args); try discriminate H2;
      destruct (UpdateArgs.tags args); try discriminate H3;
      destruct (UpdateArgs.multiplayer_type args); try discriminate H4;
      destruct (UpdateArgs.input_methods args); try discriminate H5; reflexivity. }
  split; [reflexivity |]. split.
  - intros tbl. destruct (Hjoins tbl) as (base & _ & Hrows). rewrite Hrows.
    specialize (Ht tbl). destruct (attribute_arg tbl args);
      [reflexivity | reflexivity | discriminate Ht].
  - rewrite Haliases. destruct (UpdateArgs.aliases args);
      [reflexivity | reflexivity | discriminate Ha].
Qed.

Lemma updateGame_supplies_nothing_witness :
  get_game 0 store_portal2 = Some portal2_row
  /\ supplies_nothing (update_of 0 None Null Absent Null)
  /\ exists s' g,
       updateGame 2000 (update_of 0 None Null Absent Null) store_portal2
       = Ok ({| UpdateResult._id := 0; UpdateResult.updated := true |}, s')
       /\ get_game 0 s' = Some g
       /\ Game.updatedAt g = 2000%Z
       /\ game_aliases s' = game_aliases store_portal2.
Proof.
  assert (Hn : supplies_nothing (update_of 0 None Null Absent Null)).
  { split; [| split].
    - intros f. destruct f; reflexivity.
    - intros tbl. destruct tbl; reflexivity.
    - reflexivity. }
  split; [reflexivity |]. split; [exact Hn |].
  destruct (updateGame_supplies_nothing 2000 (update_of 0 None Null Absent Null)
              store_portal2 portal2_row eq_refl Hn)
    as (s' & g & Hrun & Hg & _ & _ & _ & Hu & _ & Ha).
  exists s', g. split; [exact Hrun |]. split; [exact Hg |]. split; [exact Hu | exact Ha].
Defined.

Lemma filter_map_length {A B : Type} (p : B -> bool) (f : A -> B) (l : list A) :
  List.length (filter p (map f l)) = List.length (filter (fun x => p (f x)) l).
Proof.
  induction l as [| x l IH]; simpl; [reflexivity |].
  destruct (p (f x)); simpl; rewrite IH; reflexivity.
Qed.

Lemma filter_one {A : Type} (p : A -> bool) (l : list A) (a : A) :
  In a l -> p a = true -> 1 <= List.length (filter p l).
Proof.
  intros Hin Hp.
  assert (H : In a (filter p l)) by (apply filter_In; split; assumption).
  destruct (filter p l); [contradiction | simpl; lia].
Qed.

Lemma filter_two {A : Type} (p : A -> bool) (l : list A) (a b : A) :
  In a l -> In b l -> a <> b -> p a = true -> p b = true ->
  2 <= List.length (filter p l).
Proof.
  induction l as [| x l IH]; simpl; [intros [] |].
  intros [-> | Ha] [-> | Hb] Hne Hpa Hpb.
  - contradiction.
  - rewrite Hpa. simpl. pose proof (filter_one p l b Hb Hpb). lia.
  - rewrite Hpb. simpl. pose proof (filter_one p l a Ha Hpa). lia.
  - specialize (IH Ha Hb Hne Hpa Hpb). destruct (p x); simpl; lia.
Qed.

(** X10. [updateGame] does not keep normalized names unique: an update
    that resolves the normalized_name of an entity to the name of
    another one, and whose parent_game the schema admits, is carried
    out, and leaves two entities with that name.  From then on
    [getGameByNormalizedName] of that name, and every [addGame] of a
    document with that key, throw. *)
Theorem updateGame_can_duplicate_names now args s existing other :
  get_game (UpdateArgs.id args) s = Some existing ->
  parent_admitted args ->
  In other (games s) ->
  Game._id other <> UpdateArgs.id args ->
  resolved_name args existing = Game.normalized_name other ->
  exists s',
    updateGame now args s
    = Ok ({| UpdateResult._id := UpdateArgs.id args; UpdateResult.updated := true |}, s')
    /\ 2 <= List.length (by_normalized_name (Game.normalized_name other) s')
    /\ getGameByNormalizedName (Game.normalized_name other) s' = Throw NotUnique
    /\ (forall now' doc,
          addGame_normalizedName doc = Game.normalized_name other ->
          addGame now' doc s' = Throw NotUnique).
Proof.
  intros Hget Hadm Hother Hne Hname.
  destruct (updateGame_existing now args s existing Hget Hadm)
    as (r & s' & Hrun & -> & Hgames & _).
  destruct (get_game_some _ _ _ Hget) as (Hex & Hid).
  assert (Htwo : 2 <= List.length (by_normalized_name (Game.normalized_name other) s')).
  { unfold by_normalized_name. rewrite Hgames, filter_map_length.
    apply (filter_two _ _ existing other); try assumption.
    - intros E. apply Hne. rewrite <- E. exact Hid.
    - rewrite Hid, Nat.eqb_refl. simpl. fold (resolved_name args existing).
      rewrite Hname. apply String.eqb_refl.
    - apply Nat.eqb_neq in Hne. rewrite Hne. apply String.eqb_refl. }
  exists s'. split; [exact Hrun |]. split; [exact Htwo |]. split.
  - unfold getGameByNormalizedName, bind, query.
    destruct (by_normalized_name (Game.normalized_name other) s') as [| x [| y rows]];
      simpl in Htwo; try lia. reflexivity.
  - intros now' doc Hkey. unfold addGame, bind, query. rewrite Hkey.
    destruct (by_normalized_name (Game.normalized_name other) s') as [| x [| y rows]];
      simpl in Htwo; try lia. reflexivity.
Qed.

Lemma updateGame_can_duplicate_names_witness :
  exists s',
    updateGame 2500 (update_of 1 (Some "Portal 2") Absent Absent Absent) store_peer_review
    = Ok ({| UpdateResult._id := 1; UpdateResult.updated := true |}, s')
    /\ getGameByNormalizedName "Portal 2" s' = Throw NotUnique
    /\ addGame 3000 portal2 s' = Throw NotUnique.
Proof.
  destruct (updateGame_can_duplicate_names 2500
              (update_of 1 (Some "Portal 2") Absent Absent Absent)
              store_peer_review _ portal2_row eq_refl I
              (or_introl eq_refl) ltac:(discriminate) eq_refl)
    as (s' & Hrun & _ & Hq & Hadd).
  exists s'. split; [exact Hrun |]. split; [exact Hq |].
  exact (Hadd 3000%Z portal2 eq_refl).
Defined.

(** X11. The year and decade copied into join rows go stale: an update
    that is carried out (its parent_game is one the schema admits),
    changes release_year and omits an attribute (or passes null for it)
    rewrites the entity's year and decade and leaves the rows of that
    attribute as they were, so the value and decade ranges that the
    attribute listings read still file the entity under the old
    decade. *)
Theorem updateGame_stale_join_years now args s existing tbl :
  get_game (UpdateArgs.id args) s = Some existing ->
  parent_admitted args ->
  not_nullish (attribute_arg tbl args) = false ->
  exists s' g,
    updateGame now args s
    = Ok ({| UpdateResult._id := UpdateArgs.id args; UpdateResult.updated := true |}, s')
    /\ get_game (UpdateArgs.id args) s' = Some g
    /\ Game.release_year g = UpdateArgs.release_year args ?? Game.release_year existing
    /\ Game.release_decade g = computeDecade (Game.release_year g)
    /\ joins s' tbl = joins s tbl
    /\ (forall v, by_value tbl v s' = by_value tbl v s)
    /\ (forall v d, by_value_decade tbl v d s' = by_value_decade tbl v d s).
Proof.
  intros Hget Hadm Hnull.
  destruct (updateGame_existing now args s existing Hget Hadm)
    as (r & s' & Hrun & -> & Hgames & Hjoins & _).
  exists s', (updated_game now args existing existing).
  split; [exact Hrun |]. split.
  { unfold get_game in *. rewrite Hgames. apply find_patched; [reflexivity | exact Hget]. }
  split; [reflexivity |]. split; [reflexivity |].
  assert (E : joins s' tbl = joins s tbl).
  { destruct (Hjoins tbl) as (base & _ & Hrows). rewrite Hrows.
    destruct (attribute_arg tbl args); [reflexivity | reflexivity | discriminate Hnull]. }
  split; [exact E |]. split.
  - intros v. unfold by_value. rewrite E. reflexivity.
  - intros v d. unfold by_value_decade. rewrite E. reflexivity.
Qed.

Lemma updateGame_stale_join_years_witness :
  let args := update_of 1 None (Val (Num 1999)) Absent Absent in
  exists s' g,
    updateGame 2500 args store_peer_review
    = Ok ({| UpdateResult._id := 1; UpdateResult.updated := true |}, s')
    /\ get_game 1 s' = Some g
    /\ Game.release_decade g = Some (Num 1990)
    /\ map join_payload (by_value_decade game_platforms "PC" 2010 s')
       = [(1, "PC", Some (Num 2011), Some (Num 2010))]
    /\ by_value_decade game_platforms "PC" 1990 s' = [].
Proof.
  intros args.
  destruct (updateGame_stale_join_years 2500 args store_peer_review _ game_platforms
              eq_refl I eq_refl)
    as (s' & g & Hrun & Hg & Hy & Hd & _ & _ & Hr).
  exists s', g. split; [exact Hrun |]. split; [exact Hg |].
  split; [rewrite Hd, Hy; reflexivity |].
  split; rewrite Hr; reflexivity.
Defined.

Lemma coalesce_twice {A : Type} (x : arg A) (d : option A) : x ?? (x ?? d) = x ?? d.
Proof. destruct x; reflexivity. Qed.

Lemma coalesce_req_twice {A : Type} (x : arg A) (d : A) : x ??! (x ??! d) = x ??! d.
Proof. destruct x; reflexivity. Qed.

Lemma coalesce_req_twice2 {A : Type} (x y : arg A) (d : A) :
  x ??! y ??! x ??! y ??! d = x ??! y ??! d.
Proof. destruct x, y; reflexivity. Qed.

Lemma updated_game_twice now args existing :
  updated_game now args (updated_game now args existing existing)
                        (updated_game now args existing existing)
  = updated_game now args existing existing.
Proof.
  destruct existing.
  unfold updated_game, updateGame_document, resolved_year, resolved_name,
    resolved_parent_id.
  cbn [Game._id Game.display_name Game.normalized_name Game.aliases Game.summary
       Game.franchise Game.developer Game.publisher Game.release_year
       Game.release_decade Game.age_rating Game.setting Game.perspective
       Game.world_type Game.price_model Game.story_focus Game.playtime_hours
       Game.rating Game.has_microtransactions Game.is_vr Game.has_mods
       Game.requires_online Game.cross_platform Game.is_remake_or_remaster
       Game.is_dlc Game.procedurally_generated Game.parent_game Game.genre
       Game.platforms Game.tags Game.multiplayer_type Game.input_methods
       Game.createdAt Game.updatedAt].
  rewrite !coalesce_twice, !coalesce_req_twice, coalesce_req_twice2.
  destruct (UpdateArgs.parent_game args); reflexivity.
Qed.

Lemma map_patch_fixed id (fields : Game.t -> Game.t) l :
  (forall g, In g l -> Game._id g = id -> fields g = g) ->
  map (fun g => if Nat.eqb (Game._id g) id then fields g else g) l = l.
Proof.
  intros H. induction l as [| g l IH]; simpl; [reflexivity |].
  rewrite IH by (intros x Hx; apply H; right; exact Hx).
  destruct (Nat.eqb (Game._id g) id) eqn:E; [| reflexivity].
  rewrite (H g (or_introl eq_refl)); [reflexivity | apply Nat.eqb_eq, E].
Qed.

(** X12. Updates are idempotent: on a store whose identities are in
    order, running an update whose parent_game the schema admits a
    second time (at the same time of call) changes no entity, and
    leaves the entity's join rows for an attribute saying the same
    thing, provided neither the old rows nor the new array exceed the
    1000 rows that the delete phase reads. *)
Theorem updateGame_twice now args s existing tbl :
  well_formed s ->
  get_game (UpdateArgs.id args) s = Some existing ->
  parent_admitted args ->
  List.length (join_by_game tbl (UpdateArgs.id args) s) <= 1000 ->
  List.length (elements (attribute_arg tbl args)) <= 1000 ->
  exists s1 s2,
    updateGame now args s
    = Ok ({| UpdateResult._id := UpdateArgs.id args; UpdateResult.updated := true |}, s1)
    /\ updateGame now args s1
       = Ok ({| UpdateResult._id := UpdateArgs.id args; UpdateResult.updated := true |}, s2)
    /\ games s2 = games s1
    /\ map join_payload (join_by_game tbl (UpdateArgs.id args) s2)
       = map join_payload (join_by_game tbl (UpdateArgs.id args) s1).
Proof.
  intros Hwf Hget Hadm Hold Hnew.
  destruct (updateGame_existing now args s existing Hget Hadm)
    as (r & s1 & Hrun1 & -> & Hgames1 & _).
  assert (Hget1 : get_game (UpdateArgs.id args) s1
                  = Some (updated_game now args existing existing)).
  { unfold get_game in *. rewrite Hgames1. apply find_patched; [reflexivity | exact Hget]. }
  pose proof (partial_det _ _ _ _ _ (updateGame_wf now args s Hwf) Hrun1) as Hwf1.
  destruct (updateGame_existing now args s1 _ Hget1 Hadm)
    as (r & s2 & Hrun2 & -> & Hgames2 & _).
  exists s1, s2. split; [exact Hrun1 |]. split; [exact Hrun2 |]. split.
  { rewrite Hgames2. apply map_patch_fixed. intros g Hin Hid.
    assert (E : g = updated_game now args existing existing).
    { pose proof (get_game_in g s1 (proj2 (proj1 Hwf1)) Hin) as Hg.
      rewrite Hid, Hget1 in Hg. congruence. }
    subst g. apply updated_game_twice. }
  destruct (updateGame_join_rows now args s existing tbl Hget Hadm
              (proj2 (proj1 (proj2 Hwf) tbl)))
    as (s1' & Hrun1' & Hval1 & Hnull1).
  assert (s1' = s1) by congruence. subst s1'.
  destruct (updateGame_join_rows now args s1 _ tbl Hget1 Hadm
              (proj2 (proj1 (proj2 Hwf1) tbl)))
    as (s2' & Hrun2' & Hval2 & Hnull2).
  assert (s2' = s2) by congruence. subst s2'.
  destruct (attribute_arg tbl args) as [| | vs] eqn:Hv.
  - unfold join_by_game. rewrite (Hnull2 eq_refl). reflexivity.
  - unfold join_by_game. rewrite (Hnull2 eq_refl). reflexivity.
  - destruct (Hval1 vs eq_refl) as (b1 & _ & Hrows1).
    destruct (Hval2 vs eq_refl) as (b2 & _ & Hrows2).
    rewrite Hrows2, Hrows1.
    rewrite (skipn_all_le 1000 (join_by_game tbl (UpdateArgs.id args) s)) by exact Hold.
    rewrite !app_nil_l.
    rewrite skipn_all_le by (rewrite new_join_rows_length; exact Hnew).
    rewrite app_nil_l, !new_join_rows_payload.
    unfold resolved_year, updated_game, updateGame_document. simpl Game.release_year.
    unfold resolved_year. rewrite coalesce_twice. reflexivity.
Qed.

Lemma store_rpg_indie_well_formed : well_formed store_rpg_indie.
Proof.
  apply reachable_well_formed.
  apply (reachable_addGame 1000 portal2_rpg_indie empty_store
           {| AddResult._id := 0; AddResult.inserted := true |});
    [apply reachable_empty | reflexivity].
Qed.

Lemma updateGame_twice_witness :
  well_formed store_rpg_indie
  /\ get_game 0 store_rpg_indie = Some rpg_indie_row
  /\ parent_admitted retag
  /\ exists s1 s2,
       updateGame 2000 retag store_rpg_indie
       = Ok ({| UpdateResult._id := 0; UpdateResult.updated := true |}, s1)
       /\ updateGame 2000 retag s1
          = Ok ({| UpdateResult._id := 0; UpdateResult.updated := true |}, s2)
       /\ games s2 = games s1
       /\ map join_payload (join_by_game game_tags 0 s2)
          = map join_payload (join_by_game game_tags 0 s1).
Proof.
  split; [exact store_rpg_indie_well_formed |]. split; [reflexivity |].
  split; [exact I |].
  apply (updateGame_twice 2000 retag store_rpg_indie rpg_indie_row game_tags
           store_rpg_indie_well_formed eq_refl I); simpl; lia.
Defined.

(** ** Invariants of the stores the mutations build *)

Lemma insert_game_decades doc :
  (forall i, Game.release_decade (doc i) = computeDecade (Game.release_year (doc i))) ->
  preserves decades_consistent (insert_game doc).
Proof.
  intros Hdoc s (Hg & Hj). split; simpl; [| exact Hj].
  intros g Hin. apply in_app_iff in Hin. destruct Hin as [Hin | [<- | []]];
    [apply Hg, Hin | apply Hdoc].
Qed.

Lemma insert_join_decades tbl doc :
  (forall i, Join.release_decade (doc i) = computeDecade (Join.release_year (doc i))) ->
  preserves decades_consistent (insert_join tbl doc).
Proof.
  intros Hdoc s (Hg & Hj). split; simpl; [exact Hg |].
  intros t r Hin. destruct (join_table_eqb t tbl); [| apply (Hj t), Hin].
  apply in_app_iff in Hin. destruct Hin as [Hin | [<- | []]];
    [apply (Hj t), Hin | apply Hdoc].
Qed.

Lemma insert_alias_decades doc : preserves decades_consistent (insert_alias doc).
Proof. intros s H. exact H. Qed.

Lemma delete_join_decades tbl i : preserves decades_consistent (delete_join tbl i).
Proof.
  intros s (Hg & Hj). split; simpl; [exact Hg |].
  intros t r Hin. destruct (join_table_eqb t tbl); [| apply (Hj t), Hin].
  apply filter_In in Hin. apply (Hj tbl), Hin.
Qed.

Lemma delete_alias_decades i : preserves decades_consistent (delete_alias i).
Proof. intros s H. exact H. Qed.

Lemma patch_game_decades id fields :
  (forall g g', fields g = Some g' ->
     Game.release_decade g' = computeDecade (Game.release_year g')) ->
  preserves decades_consistent (patch_game id fields).
Proof.
  intros Hf s (Hg & Hj). unfold partial, patch_game.
  destruct (patch_rows id fields (games s)) as [rows |] eqn:E; [| exact Logic.I].
  split; simpl; [| exact Hj].
  rewrite (patch_rows_spec _ _ _ _ E).
  intros g Hin. apply in_map_iff in Hin. destruct Hin as (x & <- & Hx).
  destruct (Nat.eqb (Game._id x) id); [| apply Hg, Hx].
  destruct (fields x) as [g' |] eqn:Ex; [apply (Hf x), Ex | apply Hg, Hx].
Qed.

Ltac decades_step :=
  lazymatch goal with
  | |- preserves _ (bind _ _) => apply preserves_bind; [| intros ?]
  | |- preserves _ (ret _) => apply preserves_ret
  | |- preserves _ (query _) => apply preserves_query
  | |- preserves _ (db_get _) => apply preserves_query
  | |- preserves _ (unique _) => apply preserves_unique
  | |- preserves _ (for_of _ _) => apply preserves_for_of; intros ?
  | |- preserves _ (for_of_acc _ _ _) => apply preserves_for_of_acc; intros ? ?
  | |- preserves _ (when _ _) => apply preserves_when
  | |- preserves _ (insert_game _) => apply insert_game_decades; reflexivity
  | |- preserves _ (insert_join _ _) => apply insert_join_decades; reflexivity
  | |- preserves _ (insert_alias _) => apply insert_alias_decades
  | |- preserves _ (delete_join _ _) => apply delete_join_decades
  | |- preserves _ (delete_alias _) => apply delete_alias_decades
  | |- preserves _ (patch_game _ _) => apply patch_game_decades, updateGame_patch_decade
  | |- preserves _ (safeInsertMany _ _ _ _ _) => unfold safeInsertMany
  | |- preserves _ (clearJoin _ _) => unfold clearJoin
  | |- preserves _ (clearJoin_game_aliases _) => unfold clearJoin_game_aliases
  | |- preserves _ (match ?x with _ => _ end) => destruct x
  | |- preserves _ (let _ := _ in _) => cbv zeta
  end.

Lemma addGame_decades now args : preserves decades_consistent (addGame now args).
Proof. unfold addGame. repeat decades_step. Qed.

Lemma updateGame_decades now args : preserves decades_consistent (updateGame now args).
Proof. unfold updateGame. repeat decades_step. Qed.

Lemma upsertAliases_decades full_text args :
  preserves decades_consistent (upsertAliases full_text args).
Proof. unfold upsertAliases. repeat decades_step. Qed.

Lemma reachable_decades s : reachable s -> decades_consistent s.
Proof.
  induction 1 as [| now args s r s' _ Hd Hrun | now args s r s' _ Hd Hrun
                  | full_text args s r s' _ Hd Hrun].
  - split; [intros g [] | intros t r []].
  - exact (partial_det _ _ _ _ _ (addGame_decades now args s Hd) Hrun).
  - exact (partial_det _ _ _ _ _ (updateGame_decades now args s Hd) Hrun).
  - exact (partial_det _ _ _ _ _ (upsertAliases_decades full_text args s Hd) Hrun).
Qed.

(** X13. Invariants of every store built from the empty one by
    [addGame], [updateGame] and [upsertAliases]: in each table the
    identities are distinct and below the store's counter, and every
    entity and every join row holds the decade computed from the year
    it holds. *)
Theorem reachable_invariants s :
  reachable s -> well_formed s /\ decades_consistent s.
Proof.
  intros H. split; [apply reachable_well_formed, H | apply reachable_decades, H].
Qed.

Lemma store_peer_review_reachable : reachable store_peer_review.
Proof.
  apply (reachable_addGame 1500 (peer_review "Portal 2") store_portal2
           {| AddResult._id := 1; AddResult.inserted := true |}); [| reflexivity].
  apply (reachable_addGame 1000 portal2 empty_store
           {| AddResult._id := 0; AddResult.inserted := true |});
    [apply reachable_empty | reflexivity].
Qed.

Lemma reachable_invariants_witness :
  reachable store_peer_review
  /\ well_formed store_peer_review
  /\ decades_consistent store_peer_review.
Proof.
  split; [exact store_peer_review_reachable |].
  exact (reachable_invariants store_peer_review store_peer_review_reachable).
Defined.

(** ** Alias upserts *)

Lemma upsertAliases_run full_text args s :
  upsertAliases full_text args s
  = match title_target full_text (UpsertArgs.title args) (games s) with
    | Throw e => Throw e
    | Ok None => Ok ({| UpsertResult._id := None; UpsertResult.upserted := 0 |}, s)
    | Ok (Some g) =>
        (upserted <- for_of_acc (UpsertArgs.aliases args) 0 (upsert_alias args g) ;;
         ret {| UpsertResult._id := Some (Game._id g);
                UpsertResult.upserted := upserted |}) s
    end.
Proof.
  unfold upsertAliases, title_target, named. cbv zeta.
  unfold bind at 1. unfold bind at 1. unfold query at 1, by_normalized_name at 1.
  destruct (filter _ (games s)) as [| g [| g' l]]; [| reflexivity | reflexivity].
  cbn [unique ret normalizeString].
  destruct (toLowerCase (trim (UpsertArgs.title args))) as [| c rest] eqn:E.
  - unfold bind at 1. cbn [ret String.eqb orb]. unfold bind at 1. unfold bind at 1.
    unfold query at 1. cbn [ret].
    destruct (full_text _ _ _) as [| h hits]; reflexivity.
  - change (String.eqb (String c rest) EmptyString) with false.
    destruct (String.eqb (String c rest) (UpsertArgs.title args)); cbn [negb orb].
    + unfold bind at 1. cbn [ret]. unfold bind at 1. unfold bind at 1.
      unfold query at 1. cbn [ret].
      destruct (full_text _ _ _) as [| h hits]; reflexivity.
    + unfold bind at 1. unfold bind at 1. unfold query at 1, by_normalized_name at 1.
      destruct (filter _ (games s)) as [| g [| g' l]]; [| reflexivity | reflexivity].
      cbn [unique ret]. unfold bind at 1. unfold bind at 1.
      unfold query at 1. cbn [ret].
      destruct (full_text _ _ _) as [| h hits]; reflexivity.
Qed.

Lemma upsert_alias_step args g n a s :
  upsert_alias args g n a s
  = match toLowerCase (trim a) with
    | EmptyString => Ok (n, s)
    | String c rest =>
        if existsb (fun row => Nat.eqb (Alias.gameId row) (Game._id g))
                   (firstn 50 (by_alias (String c rest) s))
        then Ok (n, s)
        else Ok (n + 1,
                 {| next_id := S (next_id s);
                    games := games s;
                    joins := joins s;
                    game_aliases :=
                      game_aliases s
                      ++ [{| Alias._id := next_id s;
                             Alias.gameId := Game._id g;
                             Alias.alias := String c rest;
                             Alias.notes := UpsertArgs.notes args ?? None |}] |})
    end.
Proof.
  unfold upsert_alias. cbn [normalizeString].
  destruct (toLowerCase (trim a)); [reflexivity |].
  unfold bind at 1, query at 1. destruct (existsb _ _); reflexivity.
Qed.

Lemma normalized_aliases_cons a al :
  normalized_aliases (a :: al)
  = match toLowerCase (trim a) with
    | EmptyString => normalized_aliases al
    | String c rest => String c rest :: normalized_aliases al
    end.
Proof. unfold normalized_aliases. simpl. destruct (toLowerCase (trim a)); reflexivity. Qed.

Lemma has_alias_seen id a s :
  existsb (fun row => Nat.eqb (Alias.gameId row) id) (firstn 50 (by_alias a s)) = true ->
  has_alias id a (game_aliases s).
Proof.
  intros H. apply existsb_exists in H. destruct H as (row & Hin & Hid).
  apply in_firstn in Hin. apply filter_In in Hin. destruct Hin as (Hin & Ha).
  exists row. split; [exact Hin |]. split.
  - apply Nat.eqb_eq, Hid.
  - apply String.eqb_eq, Ha.
Qed.

Lemma by_alias_short a s :
  List.length (game_aliases s) <= 50 -> firstn 50 (by_alias a s) = by_alias a s.
Proof.
  intros H. apply firstn_all2. unfold by_alias.
  pose proof (filter_length_le (fun r => String.eqb (Alias.alias r) a) (game_aliases s)).
  lia.
Qed.

Lemma seen_has_alias id a s :
  List.length (game_aliases s) <= 50 ->
  has_alias id a (game_aliases s) ->
  existsb (fun row => Nat.eqb (Alias.gameId row) id) (firstn 50 (by_alias a s)) = true.
Proof.
  intros Hlen (row & Hin & Hid & Ha). rewrite by_alias_short by exact Hlen.
  apply existsb_exists. exists row. split.
  - apply filter_In. split; [exact Hin |]. apply String.eqb_eq, Ha.
  - apply Nat.eqb_eq, Hid.
Qed.

Lemma has_alias_app id a rows more :
  has_alias id a rows -> has_alias id a (rows ++ more).
Proof.
  intros (row & Hin & H). exists row. split; [apply in_or_app; left; exact Hin | exact H].
Qed.

Lemma upsert_loop_spec args g al n s :
  exists added s',
    for_of_acc al n (upsert_alias args g) s = Ok (n + List.length added, s')
    /\ alias_effect (fun rows => rows ++ added) (List.length added) s s'
    /\ map Alias._id added = seq (next_id s) (List.length added)
    /\ (forall row, In row added ->
          Alias.gameId row = Game._id g
          /\ Alias.notes row = (UpsertArgs.notes args ?? None)
          /\ In (Alias.alias row) (normalized_aliases al))
    /\ (forall a, In a (normalized_aliases al) ->
          has_alias (Game._id g) a (game_aliases s')).
Proof.
  revert n s. induction al as [| a al IH]; intros n s.
  - exists [], s. simpl. rewrite Nat.add_0_r. split; [reflexivity |].
    split; [| split; [reflexivity | split; [intros row [] | intros a []]]].
    split; [lia |]. split; [reflexivity |]. split; [reflexivity |].
    rewrite app_nil_r. reflexivity.
  - cbn [for_of_acc]. unfold bind at 1. rewrite upsert_alias_step.
    rewrite normalized_aliases_cons.
    destruct (toLowerCase (trim a)) as [| c rest] eqn:E.
    + exact (IH n s).
    + destruct (existsb _ _) eqn:Ex.
      * destruct (IH n s) as (added & s' & Hrun & Heff & Hids & Hrows & Hcov).
        exists added, s'. split; [exact Hrun |]. split; [exact Heff |].
        split; [exact Hids |]. split.
        -- intros row Hin. destruct (Hrows row Hin) as (H1 & H2 & H3).
           split; [exact H1 |]. split; [exact H2 | right; exact H3].
        -- intros a' [<- | Hin]; [| apply Hcov, Hin].
           destruct Heff as (_ & _ & _ & Ha). rewrite Ha.
           apply has_alias_app, has_alias_seen, Ex.
      * match goal with
        | |- context [for_of_acc al (n + 1) _ ?s1] =>
            destruct (IH (n + 1) s1) as (added & s' & Hrun & Heff & Hids & Hrows & Hcov)
        end.
        destruct Heff as (Hn & Hg & Hj & Ha). cbn [next_id games joins game_aliases] in *.
        eexists (_ :: added), s'.
        split; [rewrite Hrun; cbn [List.length];
                replace (n + S (List.length added)) with (n + 1 + List.length added) by lia;
                reflexivity |].
        split; [split; [cbn [List.length]; lia |];
                split; [exact Hg |]; split; [exact Hj |];
                rewrite Ha, <- app_assoc; reflexivity |].
        split; [cbn [map List.length seq Alias._id]; rewrite Hids; reflexivity |].
        split.
        -- intros row [<- | Hin].
           ++ cbn [Alias.gameId Alias.notes Alias.alias].
              split; [reflexivity |]. split; [reflexivity | left; reflexivity].
           ++ destruct (Hrows row Hin) as (H1 & H2 & H3).
              split; [exact H1 |]. split; [exact H2 | right; exact H3].
        -- intros a' [<- | Hin]; [| apply Hcov, Hin].
           rewrite Ha. apply has_alias_app.
           eexists. split; [apply in_or_app; right; left; reflexivity |].
           split; reflexivity.
Qed.

Lemma upsert_loop_noop args g al n s :
  List.length (game_aliases s) <= 50 ->
  (forall a, In a (normalized_aliases al) -> has_alias (Game._id g) a (game_aliases s)) ->
  for_of_acc al n (upsert_alias args g) s = Ok (n, s).
Proof.
  intros Hlen. revert n. induction al as [| a al IH]; intros n Hcov; [reflexivity |].
  cbn [for_of_acc]. unfold bind at 1. rewrite upsert_alias_step.
  rewrite normalized_aliases_cons in Hcov.
  destruct (toLowerCase (trim a)) as [| c rest] eqn:E.
  - apply IH, Hcov.
  - rewrite (seen_has_alias _ _ _ Hlen (Hcov _ (or_introl eq_refl))).
    apply IH. intros a' Hin. apply Hcov. right. exact Hin.
Qed.

Lemma NoDup_last {A : Type} (l : list A) (x : A) :
  NoDup l -> ~ In x l -> NoDup (l ++ [x]).
Proof.
  intros Hl Hx. induction l as [| y l IH]; simpl.
  - constructor; [intros [] | constructor].
  - inversion Hl as [| y' l' Hy Hl']; subst. constructor.
    + intros Hin. apply in_app_iff in Hin. destruct Hin as [Hin | [-> | []]].
      * exact (Hy Hin).
      * apply Hx. left. reflexivity.
    + apply IH; [exact Hl' |]. intros Hin. apply Hx. right. exact Hin.
Qed.

Lemma upsert_loop_keys args g al n s r s' :
  List.length (game_aliases s) + List.length al <= 50 ->
  NoDup (map alias_key (game_aliases s)) ->
  for_of_acc al n (upsert_alias args g) s = Ok (r, s') ->
  NoDup (map alias_key (game_aliases s')).
Proof.
  revert n s. induction al as [| a al IH]; intros n s Hlen Hnd Hrun.
  - injection Hrun as _ <-. exact Hnd.
  - cbn [for_of_acc] in Hrun. unfold bind at 1 in Hrun. rewrite upsert_alias_step in Hrun.
    cbn [List.length] in Hlen.
    destruct (toLowerCase (trim a)) as [| c rest] eqn:E.
    + apply (IH n s); [lia | exact Hnd | exact Hrun].
    + destruct (existsb _ _) eqn:Ex.
      * apply (IH n s); [lia | exact Hnd | exact Hrun].
      * refine (IH _ _ _ _ Hrun); cbn [game_aliases].
        -- rewrite length_app. cbn [List.length]. lia.
        -- rewrite map_app. apply NoDup_last; [exact Hnd |].
           cbn [map alias_key Alias.gameId Alias.alias].
           intros Hin. apply in_map_iff in Hin. destruct Hin as (row & Hkey & Hin).
           injection Hkey as Hid Ha.
           assert (Hseen : has_alias (Game._id g) (String c rest) (game_aliases s))
             by (exists row; split; [exact Hin | split; assumption]).
           apply seen_has_alias in Hseen; [| lia].
           rewrite Hseen in Ex. discriminate.
Qed.

(** X14. [upsertAliases] only appends alias rows: it leaves the
    entities and the attribute tables as they are, [upserted] counts
    the rows it appended, and each of them carries the entity the call
    returns, a normalized, non-empty alias of the arguments and the
    notes of the arguments ([undefined] for null or absent notes).
    When it returns an entity, every normalized non-empty alias of the
    arguments has a row for that entity afterwards; when it returns
    null, it appended nothing. *)
Theorem upsertAliases_appends full_text args s r s' :
  upsertAliases full_text args s = Ok (r, s') ->
  games s' = games s
  /\ joins s' = joins s
  /\ exists added,
       game_aliases s' = game_aliases s ++ added
       /\ UpsertResult.upserted r = List.length added
       /\ next_id s' = next_id s + List.length added
       /\ map Alias._id added = seq (next_id s) (List.length added)
       /\ (forall row, In row added ->
             UpsertResult._id r = Some (Alias.gameId row)
             /\ Alias.notes row = (UpsertArgs.notes args ?? None)
             /\ In (Alias.alias row) (normalized_aliases (UpsertArgs.aliases args)))
       /\ (forall id a,
             UpsertResult._id r = Some id ->
             In a (normalized_aliases (UpsertArgs.aliases args)) ->
             has_alias id a (game_aliases s'))
       /\ (UpsertResult._id r = None -> added = []).
Proof.
  intros Hrun. rewrite upsertAliases_run in Hrun.
  destruct (title_target _ _ _) as [[g |] | e]; [| | discriminate].
  - destruct (upsert_loop_spec args g (UpsertArgs.aliases args) 0 s)
      as (added & s1 & Hloop & (Hn & Hg & Hj & Ha) & Hids & Hrows & Hcov).
    unfold bind in Hrun. rewrite Hloop in Hrun. cbn [ret] in Hrun.
    injection Hrun as <- <-. cbn [UpsertResult._id UpsertResult.upserted].
    split; [exact Hg |]. split; [exact Hj |]. exists added.
    split; [exact Ha |]. split; [reflexivity |]. split; [exact Hn |].
    split; [exact Hids |]. split; [| split].
    + intros row Hin. destruct (Hrows row Hin) as (H1 & H2 & H3).
      split; [rewrite H1; reflexivity |]. split; [exact H2 | exact H3].
    + intros id a Hid Hin. injection Hid as <-. apply Hcov, Hin.
    + discriminate.
  - injection Hrun as <- <-. split; [reflexivity |]. split; [reflexivity |].
    exists []. rewrite app_nil_r, Nat.add_0_r.
    repeat (split; [reflexivity |]).
    split; [intros row [] |]. split; [discriminate | reflexivity].
Qed.

Lemma upsertAliases_appends_witness :
  exists r s',
    upsertAliases prefix_search p2_aliases store_portal2 = Ok (r, s')
    /\ UpsertResult.upserted r = 1
    /\ games s' = games store_portal2
    /\ map alias_payload (game_aliases s') = [(0, "p2", Some "fan name")].
Proof.
  pose (run := upsertAliases prefix_search p2_aliases store_portal2).
  pose (s' := state_after run store_portal2).
  exists {| UpsertResult._id := Some 0; UpsertResult.upserted := 1 |}, s'.
  assert (Hrun : run = Ok ({| UpsertResult._id := Some 0; UpsertResult.upserted := 1 |}, s'))
    by reflexivity.
  destruct (upsertAliases_appends prefix_search p2_aliases store_portal2 _ s' Hrun)
    as (Hg & _).
  split; [exact Hrun |]. split; [reflexivity |]. split; [exact Hg | reflexivity].
Defined.

(** X15. A second [upsertAliases] with the same arguments changes
    nothing, as long as the alias table holds at most 50 rows after the
    first call (the look-up reads the first 50 rows of an alias): it
    returns the same entity and [upserted: 0], and leaves the store as
    it is. *)
Theorem upsertAliases_twice full_text args s r s' :
  upsertAliases full_text args s = Ok (r, s') ->
  List.length (game_aliases s') <= 50 ->
  upsertAliases full_text args s'
  = Ok ({| UpsertResult._id := UpsertResult._id r; UpsertResult.upserted := 0 |}, s').
Proof.
  intros Hrun Hlen. rewrite upsertAliases_run in Hrun. rewrite upsertAliases_run.
  destruct (title_target full_text (UpsertArgs.title args) (games s))
    as [[g |] | e] eqn:Ht; [| | discriminate].
  - destruct (upsert_loop_spec args g (UpsertArgs.aliases args) 0 s)
      as (added & s1 & Hloop & (Hn & Hg & Hj & Ha) & Hids & Hrows & Hcov).
    unfold bind in Hrun. rewrite Hloop in Hrun. cbn [ret] in Hrun.
    injection Hrun as <- <-. rewrite Hg, Ht.
    unfold bind. rewrite (upsert_loop_noop args g _ 0 s1 Hlen Hcov). reflexivity.
  - injection Hrun as <- <-. rewrite Ht. reflexivity.
Qed.

Lemma upsertAliases_twice_witness :
  let s' :=
    state_after (upsertAliases prefix_search p2_aliases store_portal2) store_portal2 in
  List.length (game_aliases s') <= 50
  /\ upsertAliases prefix_search p2_aliases s'
     = Ok ({| UpsertResult._id := Some 0; UpsertResult.upserted := 0 |}, s').
Proof.
  intros s'.
  assert (Hlen : List.length (game_aliases s') <= 50) by (vm_compute; lia).
  split; [exact Hlen |].
  exact (upsertAliases_twice prefix_search p2_aliases store_portal2
           {| UpsertResult._id := Some 0; UpsertResult.upserted := 1 |} s'
           eq_refl Hlen).
Defined.

(** X16. [upsertAliases] never stores the same alias twice for one
    entity, while the alias table stays within the 50 rows its look-up
    reads: if no two alias rows share entity and alias before the call,
    none do after it, also when the arguments repeat an alias or spell
    it in another letter case. *)
Theorem upsertAliases_keeps_keys_distinct full_text args s r s' :
  List.length (game_aliases s) + List.length (UpsertArgs.aliases args) <= 50 ->
  NoDup (map alias_key (game_aliases s)) ->
  upsertAliases full_text args s = Ok (r, s') ->
  NoDup (map alias_key (game_aliases s')).
Proof.
  intros Hlen Hnd Hrun. rewrite upsertAliases_run in Hrun.
  destruct (title_target _ _ _) as [[g |] | e]; [| | discriminate].
  - unfold bind in Hrun.
    destruct (for_of_acc _ _ _ s) as [[n s1] | e] eqn:Hloop; [| discriminate].
    cbn [ret] in Hrun. injection Hrun as _ <-.
    exact (upsert_loop_keys args g _ 0 s n s1 Hlen Hnd Hloop).
  - injection Hrun as _ <-. exact Hnd.
Qed.

Lemma upsertAliases_keeps_keys_distinct_witness :
  let s' :=
    state_after (upsertAliases prefix_search p2_aliases store_portal2) store_portal2 in
  map alias_key (game_aliases s') = [(0, "p2")]
  /\ NoDup (map alias_key (game_aliases s')).
Proof.
  intros s'. split; [reflexivity |].
  apply (upsertAliases_keeps_keys_distinct prefix_search p2_aliases store_portal2
           {| UpsertResult._id := Some 0; UpsertResult.upserted := 1 |} s').
  - vm_compute. lia.
  - simpl. constructor.
  - reflexivity.
Defined.

Lemma upsertAliases_target full_text args s r s' :
  upsertAliases full_text args s = Ok (r, s') ->
  exists target,
    title_target full_text (UpsertArgs.title args) (games s) = Ok target
    /\ UpsertResult._id r = option_map Game._id target
    /\ (target = None -> s' = s /\ UpsertResult.upserted r = 0).
Proof.
  intros Hrun. rewrite upsertAliases_run in Hrun.
  destruct (title_target _ _ _) as [[g |] | e]; [| | discriminate].
  - exists (Some g). split; [reflexivity |].
    unfold bind in Hrun.
    destruct (for_of_acc _ _ _ s) as [[n s1] | e] eqn:Hloop; [| discriminate].
    cbn [ret] in Hrun. injection Hrun as <- _. split; [reflexivity | discriminate].
  - exists None. injection Hrun as <- <-. split; [reflexivity |].
    split; [reflexivity |]. intros _. split; reflexivity.
Qed.

(** X17. The entity [upsertAliases] attaches to.  A single entity whose
    normalized_name is the title as given wins, whatever the search
    finds; with no such entity, a single entity whose normalized_name
    is the normalized title (if that is not empty and differs from the
    title); with neither, the first hit of the display_name search on
    the title.  When the call returns null it has left the store as it
    was and reports no upsert. *)
Theorem upsertAliases_resolves_title full_text args s r s' :
  upsertAliases full_text args s = Ok (r, s') ->
  let title := UpsertArgs.title args in
  let candidate := toLowerCase (trim title) in
  (forall g, by_normalized_name title s = [g] ->
     UpsertResult._id r = Some (Game._id g))
  /\ (forall g,
        by_normalized_name title s = [] ->
        candidate <> EmptyString -> candidate <> title ->
        by_normalized_name candidate s = [g] ->
        UpsertResult._id r = Some (Game._id g))
  /\ (by_normalized_name title s = [] ->
      by_normalized_name candidate s = [] ->
      UpsertResult._id r
      = option_map Game._id
          (hd_error (full_text search_display_name title (games s))))
  /\ (UpsertResult._id r = None -> s' = s /\ UpsertResult.upserted r = 0).
Proof.
  intros Hrun title candidate.
  destruct (upsertAliases_target _ _ _ _ _ Hrun) as (target & Ht & Hid & Hnone).
  unfold title_target, named in Ht. cbv zeta in Ht.
  fold title candidate in Ht.
  change (filter (fun g => String.eqb (Game.normalized_name g) title) (games s))
    with (by_normalized_name title s) in Ht.
  change (filter (fun g => String.eqb (Game.normalized_name g) candidate) (games s))
    with (by_normalized_name candidate s) in Ht.
  split; [| split; [| split]].
  - intros g Hone. rewrite Hone in Ht. injection Ht as <-. exact Hid.
  - intros g H0 Hne Hnt Hone. rewrite H0 in Ht.
    apply String.eqb_neq in Hne, Hnt. rewrite Hne, Hnt, Hone in Ht.
    injection Ht as <-. exact Hid.
  - intros H0 Hc0. rewrite H0, Hc0 in Ht.
    destruct (_ || _) in Ht; injection Ht as <-; exact Hid.
  - intros Hr. apply Hnone. destruct target; [rewrite Hid in Hr; discriminate | reflexivity].
Qed.

Lemma upsertAliases_resolves_title_witness :
  exists r s',
    upsertAliases prefix_search p2_aliases store_portal2 = Ok (r, s')
    /\ by_normalized_name "Portal 2" store_portal2 = [portal2_row]
    /\ UpsertResult._id r = Some 0.
Proof.
  pose (run := upsertAliases prefix_search p2_aliases store_portal2).
  exists {| UpsertResult._id := Some 0; UpsertResult.upserted := 1 |},
         (state_after run store_portal2).
  assert (Hrun : run = Ok ({| UpsertResult._id := Some 0; UpsertResult.upserted := 1 |},
                           state_after run store_portal2)) by reflexivity.
  split; [exact Hrun |]. split; [reflexivity |].
  exact (proj1 (upsertAliases_resolves_title _ _ _ _ _ Hrun) portal2_row eq_refl).
Defined.

(** ** Attribute listings *)

Lemma sublist_In {A : Type} (l1 l2 : list A) (x : A) :
  sublist l1 l2 -> In x l1 -> In x l2.
Proof.
  revert l1. induction l2 as [| y l2 IH]; intros [| z l1]; simpl; try tauto.
  intros [(-> & Hs) | Hs] [-> | Hin].
  - left. reflexivity.
  - right. exact (IH l1 Hs Hin).
  - right. apply (IH (x :: l1) Hs). left. reflexivity.
  - right. apply (IH (z :: l1) Hs). right. exact Hin.
Qed.

Lemma sublist_firstn {A : Type} (n : nat) (l : list A) : sublist (firstn n l) l.
Proof.
  revert n. induction l as [| x l IH]; intros [| n]; simpl; try exact I.
  left. split; [reflexivity | apply IH].
Qed.

Lemma one_join_page_of_range : join_pages_of_range one_join_page.
Proof.
  intros rows n [c |]; simpl.
  - split; [destruct rows; exact I | lia].
  - split; [apply sublist_firstn | apply firstn_le_length].
Qed.

Lemma dereference_In g rows s :
  In g (dereference rows s) ->
  exists r, In r rows /\ get_game (Join.gameId r) s = Some g.
Proof.
  induction rows as [| r rows IH]; simpl; [intros [] |].
  destruct (get_game (Join.gameId r) s) as [h |] eqn:E.
  - intros [<- | Hin].
    + exists r. split; [left; reflexivity | exact E].
    + destruct (IH Hin) as (r' & Hr' & E'). exists r'. split; [right; exact Hr' | exact E'].
  - intros Hin. destruct (IH Hin) as (r' & Hr' & E'). exists r'.
    split; [right; exact Hr' | exact E'].
Qed.

Lemma In_dereference g r rows s :
  In r rows -> get_game (Join.gameId r) s = Some g -> In g (dereference rows s).
Proof.
  intros Hin E. induction rows as [| r' rows IH]; simpl; [destruct Hin |].
  destruct Hin as [-> | Hin].
  - rewrite E. left. reflexivity.
  - destruct (get_game (Join.gameId r') s); [right |]; apply IH, Hin.
Qed.

Lemma dereference_length rows s : List.length (dereference rows s) <= List.length rows.
Proof.
  induction rows as [| r rows IH]; simpl; [lia |].
  destruct (get_game (Join.gameId r) s); simpl; lia.
Qed.

Lemma dereference_all rows s :
  (forall r, In r rows -> exists g, In g (games s) /\ Game._id g = Join.gameId r) ->
  List.length (dereference rows s) = List.length rows.
Proof.
  induction rows as [| r rows IH]; intros H; simpl; [reflexivity |].
  destruct (get_game (Join.gameId r) s) as [g |] eqn:E.
  - simpl. rewrite IH; [reflexivity |]. intros r' Hr'. apply H. right. exact Hr'.
  - exfalso. destruct (H r (or_introl eq_refl)) as (g & Hin & Hid).
    apply get_game_None in E. apply E. rewrite <- Hid. apply in_map. exact Hin.
Qed.

(** X18. What [listGamesByPlatform], [listGamesByGenre] and
    [listGamesByTag] answer with, for a paginator that serves rows of
    the range it is given, at most the number asked for: at most
    [limit] entities, [limit] between 1 and 100; each of them is stored
    and has a row in the attribute table with the value asked for, and
    with the decade asked for when one is given.  The cursor and the
    end marker are those of the page of rows. *)
Theorem list_by_attribute_sound paginate_join tbl value decade cursor limit s :
  join_pages_of_range paginate_join ->
  let answer := list_by_attribute paginate_join tbl value decade cursor limit s in
  List.length (Page.page answer) <= clamp_limit limit 25 100 <= 100
  /\ (forall g, In g (Page.page answer) ->
        In g (games s)
        /\ exists r,
             In r (joins s tbl)
             /\ Join.gameId r = Game._id g
             /\ Join.value r = value
             /\ forall d, decade = Some d -> Join.release_decade r = Some (Num d))
  /\ (listGamesByPlatform paginate_join value decade cursor limit s
      = list_by_attribute paginate_join game_platforms value decade cursor limit s)
  /\ (listGamesByGenre paginate_join value decade cursor limit s
      = list_by_attribute paginate_join game_genres value decade cursor limit s)
  /\ (listGamesByTag paginate_join value decade cursor limit s
      = list_by_attribute paginate_join game_tags value decade cursor limit s).
Proof.
  intros Hpage answer. unfold answer, list_by_attribute. cbv zeta. cbn [Page.page].
  set (range := match decade with
                | Some d => by_value_decade tbl value d s
                | None => by_value tbl value s
                end).
  destruct (Hpage range (clamp_limit limit 25 100) cursor) as (Hsub & Hlen).
  pose proof (clamp_limit_bounds limit 25 100 ltac:(lia)) as Hclamp.
  split; [| split; [| split; [reflexivity | split; reflexivity]]].
  - pose proof (dereference_length
                  (JoinPage.page (paginate_join range (clamp_limit limit 25 100) cursor)) s).
    lia.
  - intros g Hin. apply dereference_In in Hin. destruct Hin as (r & Hr & Hget).
    apply get_game_some in Hget. destruct Hget as (Hg & Hid).
    split; [exact Hg |]. exists r.
    pose proof (sublist_In _ _ _ Hsub Hr) as Hrange. unfold range in Hrange.
    destruct decade as [d |].
    + apply filter_In in Hrange. destruct Hrange as (Hrows & Hp).
      apply andb_prop in Hp. destruct Hp as (Hv & Hd).
      split; [exact Hrows |]. split; [symmetry; exact Hid |].
      split; [apply String.eqb_eq, Hv |].
      intros d' Hd'. injection Hd' as <-. unfold number_is in Hd.
      destruct (Join.release_decade r) as [[| z] |]; try discriminate.
      apply Z.eqb_eq in Hd. subst z. reflexivity.
    + apply filter_In in Hrange. destruct Hrange as (Hrows & Hv).
      split; [exact Hrows |]. split; [symmetry; exact Hid |].
      split; [apply String.eqb_eq, Hv | discriminate].
Qed.

Lemma list_by_attribute_sound_witness :
  join_pages_of_range one_join_page
  /\ Page.page (listGamesByTag one_join_page "rpg" None None None store_rpg_indie)
     = [rpg_indie_row]
  /\ List.length
       (Page.page (list_by_attribute one_join_page game_tags "rpg" None None None
                     store_rpg_indie))
     <= 25.
Proof.
  split; [exact one_join_page_of_range |]. split; [reflexivity |].
  exact (proj1 (proj1 (list_by_attribute_sound one_join_page game_tags "rpg" None None None
                         store_rpg_indie one_join_page_of_range))).
Defined.

Lemma first_page_reaches {A : Type} (p : A -> bool) (rows news : list A) (n : nat) :
  List.length (filter p rows) < n ->
  (exists r, In r news /\ p r = true) ->
  exists r, In r (firstn n (filter p (rows ++ news))) /\ In r news.
Proof.
  intros Hlen (r & Hin & Hp).
  assert (Hne : In r (filter p news)) by (apply filter_In; split; assumption).
  destruct (filter p news) as [| r0 rest] eqn:E; [destruct Hne |].
  assert (H0 : In r0 (filter p news)) by (rewrite E; left; reflexivity).
  apply filter_In in H0. exists r0. split; [| exact (proj1 H0)].
  rewrite filter_app, firstn_app, E. apply in_or_app. right.
  destruct (n - List.length (filter p rows)) as [| k] eqn:Ek; [lia |].
  left. reflexivity.
Qed.

Lemma new_join_rows_In base id ry rd vs r :
  In r (new_join_rows base id ry rd vs) ->
  Join.gameId r = id /\ In (Join.value r) vs
  /\ Join.release_year r = ry /\ Join.release_decade r = rd.
Proof.
  revert base. induction vs as [| v vs IH]; intros base; simpl; [intros [] |].
  intros [<- | Hin]; simpl.
  - repeat split. left. reflexivity.
  - destruct (IH _ Hin) as (H1 & H2 & H3 & H4). repeat split; try assumption.
    right. exact H2.
Qed.

Lemma In_new_join_rows base id ry rd vs v :
  In v vs ->
  exists r, In r (new_join_rows base id ry rd vs)
            /\ Join.value r = v /\ Join.release_decade r = rd.
Proof.
  revert base. induction vs as [| w vs IH]; intros base; simpl; [intros [] |].
  intros [-> | Hin].
  - eexists. split; [left; reflexivity |]. split; reflexivity.
  - destruct (IH (S base) Hin) as (r & Hr & H). exists r. split; [right; exact Hr | exact H].
Qed.

(** X19. Create, then list.  After [addGame] inserted an entity with
    the value [v] among its platforms, genres or tags, the listing of
    that attribute at [v] shows the entity on its first page, provided
    fewer than [limit] rows with that value were there before; so does
    the listing narrowed to the decade of the entity's year. *)
Theorem addGame_then_listed paginate_join now args s r s' tbl v limit :
  well_formed s ->
  first_page_in_order paginate_join ->
  addGame now args s = Ok (r, s') ->
  AddResult.inserted r = true ->
  In v (elements (add_attribute_arg tbl args)) ->
  List.length (by_value tbl v s) < clamp_limit limit 25 100 ->
  exists g,
    getGameById (AddResult._id r) s' = Some g
    /\ In g (Page.page (list_by_attribute paginate_join tbl v None None limit s'))
    /\ forall d,
         computeDecade (AddArgs.release_year args ?? None) = Some (Num d) ->
         In g (Page.page (list_by_attribute paginate_join tbl v (Some d) None limit s')).
Proof.
  intros Hwf Hfirst Hrun Hins Hv Hlen.
  destruct (partial_det _ _ _ _ _ (addGame_spec now args s) Hrun) as [H | H];
    [| destruct H as (g & _ & -> & _); discriminate Hins].
  destruct H as (_ & -> & (parent & Hg) & Hj & _).
  destruct (Hj tbl) as (base & _ & Hrows).
  set (ry := AddArgs.release_year args ?? None) in *.
  set (doc := addGame_document now args (addGame_normalizedName args) ry
                (computeDecade ry) parent (next_id s)) in *.
  assert (Hget : forall r0, Join.gameId r0 = next_id s ->
                            get_game (Join.gameId r0) s' = Some doc).
  { intros r0 ->. unfold get_game. rewrite Hg.
    apply get_game_fresh; [apply Hwf | reflexivity]. }
  destruct (In_new_join_rows base (next_id s) ry (computeDecade ry) _ v Hv)
    as (r1 & Hr1 & Hv1 & Hd1).
  exists doc. cbn [AddResult._id]. split; [| split].
  - unfold getGameById, get_game. rewrite Hg.
    apply get_game_fresh; [apply Hwf | reflexivity].
  - unfold list_by_attribute. cbv zeta. cbn [Page.page]. rewrite Hfirst.
    unfold by_value. rewrite Hrows.
    destruct (first_page_reaches (fun r => String.eqb (Join.value r) v)
                (joins s tbl)
                (new_join_rows base (next_id s) ry (computeDecade ry)
                   (elements (add_attribute_arg tbl args)))
                (clamp_limit limit 25 100) Hlen) as (r0 & Hpage & Hnew).
    { exists r1. split; [exact Hr1 | apply String.eqb_eq, Hv1]. }
    apply (In_dereference doc r0); [exact Hpage |].
    apply Hget. apply (new_join_rows_In _ _ _ _ _ _ Hnew).
  - intros d Hd. unfold list_by_attribute. cbv zeta. cbn [Page.page]. rewrite Hfirst.
    unfold by_value_decade. rewrite Hrows.
    destruct (first_page_reaches
                (fun r => String.eqb (Join.value r) v
                          && number_is d (Join.release_decade r))
                (joins s tbl)
                (new_join_rows base (next_id s) ry (computeDecade ry)
                   (elements (add_attribute_arg tbl args)))
                (clamp_limit limit 25 100)) as (r0 & Hpage & Hnew).
    { unfold by_value in Hlen.
      pose proof (filter_length_le (fun r => number_is d (Join.release_decade r))
                    (filter (fun r => String.eqb (Join.value r) v) (joins s tbl))) as Hle.
      rewrite filter_filter_and in Hle. lia. }
    { exists r1. split; [exact Hr1 |]. apply andb_true_intro. split.
      - apply String.eqb_eq, Hv1.
      - rewrite Hd1, Hd. simpl. apply Z.eqb_refl. }
    apply (In_dereference doc r0); [exact Hpage |].
    apply Hget. apply (new_join_rows_In _ _ _ _ _ _ Hnew).
Qed.

Lemma one_join_page_in_order : first_page_in_order one_join_page.
Proof. intros rows n. reflexivity. Qed.

Lemma addGame_then_listed_witness :
  well_formed empty_store
  /\ addGame 1000 portal2_rpg_indie empty_store
     = Ok ({| AddResult._id := 0; AddResult.inserted := true |}, store_rpg_indie)
  /\ exists g,
       getGameById 0 store_rpg_indie = Some g
       /\ In g (Page.page (list_by_attribute one_join_page game_tags "indie" None None None
                             store_rpg_indie)).
Proof.
  split; [exact empty_store_well_formed |]. split; [reflexivity |].
  destruct (addGame_then_listed one_join_page 1000 portal2_rpg_indie empty_store
              {| AddResult._id := 0; AddResult.inserted := true |} store_rpg_indie
              game_tags "indie" None
              empty_store_well_formed one_join_page_in_order eq_refl eq_refl
              (or_intror (or_introl eq_refl)) ltac:(vm_compute; lia))
    as (g & Hget & Hin & _).
  exists g. split; [exact Hget | exact Hin].
Defined.

(** ** Listings by decade and by year *)

Lemma one_page_of_range : pages_of_range one_page.
Proof.
  intros rows n [c |]; simpl.
  - split; [destruct rows; exact I | lia].
  - split; [apply sublist_firstn | apply firstn_le_length].
Qed.

Lemma number_is_true z stored_number :
  number_is z stored_number = true -> stored_number = Some (Num z).
Proof.
  unfold number_is. destruct stored_number as [[| d] |]; try discriminate.
  intros H. apply Z.eqb_eq in H. subst d. reflexivity.
Qed.

(** X20. What [listGamesByDecade] and [listGamesByYear] answer with,
    for a paginator that serves rows of its range, on a store in which
    every entity holds the decade of its year (as every store built by
    the mutations does) and every stored year is a safe integer: at
    most 100 stored entities; by decade, each has a year from the
    decade up to nine years later, and a decade that is not a multiple
    of ten lists nothing; by year, each has that year and the decade
    below it. *)
Theorem listGamesByDecade_sound paginate decade year cursor limit s :
  pages_of_range paginate ->
  decades_consistent s ->
  safe_years s ->
  let by_decade := Page.page (listGamesByDecade paginate decade cursor limit s) in
  let by_year := Page.page (listGamesByYear paginate year cursor limit s) in
  List.length by_decade <= 100
  /\ List.length by_year <= 100
  /\ (forall g, In g by_decade ->
        In g (games s)
        /\ exists y, Game.release_year g = Some (Num y)
                     /\ (decade <= y < decade + 10)%Z)
  /\ ((decade mod 10 <> 0)%Z -> by_decade = [])
  /\ (forall g, In g by_year ->
        In g (games s)
        /\ Game.release_year g = Some (Num year)
        /\ Game.release_decade g = Some (Num (year / 10 * 10))).
Proof.
  intros Hpage (Hdec & _) _ by_decade by_year.
  pose proof (clamp_limit_bounds limit 25 100 ltac:(lia)) as Hclamp.
  assert (Hd : forall g, In g by_decade ->
             In g (games s)
             /\ exists y, Game.release_year g = Some (Num y)
                          /\ (y / 10 * 10)%Z = decade).
  { intros g Hin. unfold by_decade, listGamesByDecade in Hin. cbv zeta in Hin.
    apply (sublist_In _ _ _ (proj1 (Hpage _ _ _))) in Hin.
    apply filter_In in Hin. destruct Hin as (Hg & Hnum).
    split; [exact Hg |]. apply number_is_true in Hnum.
    rewrite (Hdec g Hg) in Hnum.
    destruct (Game.release_year g) as [[| y] |]; try discriminate.
    exists y. split; [reflexivity |]. simpl in Hnum. congruence. }
  split; [| split; [| split; [| split]]].
  - unfold by_decade, listGamesByDecade. cbv zeta.
    pose proof (proj2 (Hpage (by_release_decade decade s) (clamp_limit limit 25 100) cursor)).
    lia.
  - unfold by_year, listGamesByYear. cbv zeta.
    pose proof (proj2 (Hpage (by_release_year year s) (clamp_limit limit 25 100) cursor)).
    lia.
  - intros g Hin. destruct (Hd g Hin) as (Hg & y & Hy & Hdiv).
    split; [exact Hg |]. exists y. split; [exact Hy |].
    pose proof (Z.div_mod y 10 ltac:(lia)) as Hy10.
    pose proof (Z.mod_pos_bound y 10 ltac:(lia)) as Hr10. lia.
  - intros Hmod. destruct by_decade as [| g rest]; [reflexivity |]. exfalso.
    destruct (Hd g (or_introl eq_refl)) as (_ & y & _ & Hdiv).
    apply Hmod. rewrite <- Hdiv. apply Z.mod_mul. lia.
  - intros g Hin. unfold by_year, listGamesByYear in Hin. cbv zeta in Hin.
    apply (sublist_In _ _ _ (proj1 (Hpage _ _ _))) in Hin.
    apply filter_In in Hin. destruct Hin as (Hg & Hnum).
    apply number_is_true in Hnum.
    split; [exact Hg |]. split; [exact Hnum |].
    rewrite (Hdec g Hg), Hnum. reflexivity.
Qed.

Lemma listGamesByDecade_sound_witness :
  pages_of_range one_page
  /\ decades_consistent store_peer_review
  /\ safe_years store_peer_review
  /\ List.length (Page.page (listGamesByDecade one_page 2010 None None store_peer_review))
     = 1
  /\ Page.page (listGamesByDecade one_page 2011 None None store_peer_review) = [].
Proof.
  pose proof (reachable_decades _ store_peer_review_reachable) as Hdec.
  assert (Hsafe : safe_years store_peer_review).
  { intros g Hin. vm_compute in Hin.
    destruct Hin as [<- | [<- | []]]; vm_compute; reflexivity. }
  split; [exact one_page_of_range |]. split; [exact Hdec |]. split; [exact Hsafe |].
  split; [reflexivity |].
  destruct (listGamesByDecade_sound one_page 2011 2011 None None store_peer_review
              one_page_of_range Hdec Hsafe) as (_ & _ & _ & Hnone & _).
  apply Hnone. discriminate.
Defined.

(** ** References from the attribute tables *)

Lemma reconcile_rows_In id ry rd v base rows r :
  In r (reconcile_rows id ry rd v base rows) -> In r rows \/ Join.gameId r = id.
Proof.
  unfold reconcile_rows. destruct v as [| | vs]; try (intros H; left; exact H).
  intros H. apply in_app_iff in H. destruct H as [H | H].
  - left. unfold without_ids in H. apply filter_In in H. exact (proj1 H).
  - right. exact (proj1 (new_join_rows_In _ _ _ _ _ _ H)).
Qed.

Lemma addGame_references now args : preserves references_ok (addGame now args).
Proof.
  intros s Href. unfold partial.
  destruct (addGame now args s) as [[r s'] | e] eqn:Hrun; [| exact I].
  destruct (partial_det _ _ _ _ _ (addGame_spec now args s) Hrun) as [H | H].
  - destruct H as (_ & _ & (parent & Hg) & Hj & _).
    intros tbl row Hin. destruct (Hj tbl) as (base & _ & Hrows).
    rewrite Hrows in Hin. rewrite Hg. apply in_app_iff in Hin. destruct Hin as [Hin | Hin].
    + destruct (Href tbl row Hin) as (g & Hgin & Hid).
      exists g. split; [apply in_or_app; left; exact Hgin | exact Hid].
    + eexists. split; [apply in_or_app; right; left; reflexivity |].
      symmetry. exact (proj1 (new_join_rows_In _ _ _ _ _ _ Hin)).
  - destruct H as (g & _ & _ & Hg & Hj & _).
    intros tbl row. rewrite Hj, Hg. apply Href.
Qed.

Lemma updateGame_references now args : preserves references_ok (updateGame now args).
Proof.
  intros s Href. unfold partial.
  destruct (updateGame now args s) as [[r s'] | e] eqn:Hrun; [| exact I].
  destruct (get_game (UpdateArgs.id args) s) as [existing |] eqn:Hget.
  - destruct (returns_det _ _ _ _ _
              (updateGame_existing now args s existing Hget
                 (updateGame_returned now args s existing r s' Hget Hrun)) Hrun)
      as (_ & Hg & Hj & _).
    assert (Hkeep : forall g, In g (games s) ->
              exists g', In g' (games s') /\ Game._id g' = Game._id g).
    { intros g Hin. rewrite Hg.
      exists (if Nat.eqb (Game._id g) (UpdateArgs.id args)
              then updated_game now args existing g else g).
      split; [apply in_map_iff; exists g; split; [reflexivity | exact Hin] |].
      destruct (Nat.eqb _ _); reflexivity. }
    intros tbl row Hin. destruct (Hj tbl) as (base & _ & Hrows).
    rewrite Hrows in Hin. apply reconcile_rows_In in Hin. destruct Hin as [Hin | Hid].
    + destruct (Href tbl row Hin) as (g & Hgin & Hgid).
      destruct (Hkeep g Hgin) as (g' & Hg' & Hid'). exists g'.
      split; [exact Hg' | congruence].
    + apply get_game_some in Hget. destruct Hget as (Hein & Heid).
      destruct (Hkeep existing Hein) as (g' & Hg' & Hid'). exists g'.
      split; [exact Hg' | congruence].
  - unfold updateGame, bind, db_get, query in Hrun. rewrite Hget in Hrun.
    injection Hrun as _ <-. exact Href.
Qed.

Lemma upsertAliases_references full_text args :
  preserves references_ok (upsertAliases full_text args).
Proof.
  intros s Href. unfold partial.
  destruct (upsertAliases full_text args s) as [[r s'] | e] eqn:Hrun; [| exact I].
  rewrite upsertAliases_run in Hrun.
  destruct (title_target _ _ _) as [[g |] | e]; [| | discriminate].
  - destruct (upsert_loop_spec args g (UpsertArgs.aliases args) 0 s)
      as (added & s1 & Hloop & (_ & Hg & Hj & _) & _).
    unfold bind in Hrun. rewrite Hloop in Hrun. cbn [ret] in Hrun.
    injection Hrun as _ <-. intros tbl row. rewrite Hj, Hg. apply Href.
  - injection Hrun as _ <-. exact Href.
Qed.

Lemma reachable_references s : reachable s -> references_ok s.
Proof.
  induction 1 as [| now args s r s' _ IH Hrun | now args s r s' _ IH Hrun
                  | full_text args s r s' _ IH Hrun].
  - intros tbl row [].
  - exact (partial_det _ _ _ _ _ (addGame_references now args s IH) Hrun).
  - exact (partial_det _ _ _ _ _ (updateGame_references now args s IH) Hrun).
  - exact (partial_det _ _ _ _ _ (upsertAliases_references full_text args s IH) Hrun).
Qed.

(** X21. No dangling reference.  In every store built from the empty
    one by [addGame], [updateGame] and [upsertAliases], each row of an
    attribute table refers to a stored entity; so the
    [filter(Boolean)] of the attribute listings drops nothing there,
    and a listing answers with exactly as many entities as its page of
    rows has rows. *)
Theorem listing_drops_nothing paginate_join tbl value decade cursor limit s :
  reachable s ->
  join_pages_of_range paginate_join ->
  references_ok s
  /\ List.length
       (Page.page (list_by_attribute paginate_join tbl value decade cursor limit s))
     = List.length
         (JoinPage.page
            (paginate_join
               match decade with
               | Some d => by_value_decade tbl value d s
               | None => by_value tbl value s
               end
               (clamp_limit limit 25 100) cursor)).
Proof.
  intros Hreach Hpage. pose proof (reachable_references s Hreach) as Href.
  split; [exact Href |].
  unfold list_by_attribute. cbv zeta. cbn [Page.page].
  apply dereference_all. intros r Hr. apply (Href tbl).
  apply (sublist_In _ _ _ (proj1 (Hpage _ _ _))) in Hr.
  destruct decade; apply filter_In in Hr; exact (proj1 Hr).
Qed.

Lemma store_rpg_indie_reachable : reachable store_rpg_indie.
Proof.
  apply (reachable_addGame 1000 portal2_rpg_indie empty_store
           {| AddResult._id := 0; AddResult.inserted := true |});
    [apply reachable_empty | reflexivity].
Qed.

Lemma listing_drops_nothing_witness :
  reachable store_rpg_indie
  /\ join_pages_of_range one_join_page
  /\ List.length
       (Page.page (list_by_attribute one_join_page game_tags "rpg" None None None
                     store_rpg_indie))
     = 1.
Proof.
  split; [exact store_rpg_indie_reachable |]. split; [exact one_join_page_of_range |].
  exact (proj2 (listing_drops_nothing one_join_page game_tags "rpg" None None None
                  store_rpg_indie store_rpg_indie_reachable one_join_page_of_range)).
Defined.

(** ** The HTTP action *)

Lemma extends_refl s : extends s s.
Proof.
  split; [exists []; symmetry; apply app_nil_r |].
  split; [intros tbl |]; exists []; symmetry; apply app_nil_r.
Qed.

Lemma extends_trans s1 s2 s3 : extends s1 s2 -> extends s2 s3 -> extends s1 s3.
Proof.
  intros ((g1 & Hg1) & Hj1 & (a1 & Ha1)) ((g2 & Hg2) & Hj2 & (a2 & Ha2)).
  split; [exists (g1 ++ g2); rewrite Hg2, Hg1, app_assoc; reflexivity |]. split.
  - intros tbl. destruct (Hj1 tbl) as (r1 & Hr1). destruct (Hj2 tbl) as (r2 & Hr2).
    exists (r1 ++ r2). rewrite Hr2, Hr1, app_assoc. reflexivity.
  - exists (a1 ++ a2). rewrite Ha2, Ha1, app_assoc. reflexivity.
Qed.

Lemma addGame_extends now args s r s' :
  addGame now args s = Ok (r, s') ->
  extends s s'
  /\ List.length (games s')
     = List.length (games s) + (if AddResult.inserted r then 1 else 0).
Proof.
  intros Hrun.
  destruct (partial_det _ _ _ _ _ (addGame_spec now args s) Hrun) as [H | H].
  - destruct H as (_ & -> & (parent & Hg) & Hj & (abase & _ & Ha) & _).
    split; [| rewrite Hg, length_app; reflexivity].
    split; [eexists; exact Hg |]. split; [| eexists; exact Ha].
    intros tbl. destruct (Hj tbl) as (base & _ & Hrows). eexists. exact Hrows.
  - destruct H as (g & _ & -> & Hg & Hj & Ha & _).
    split; [| rewrite Hg; simpl; lia].
    split; [exists []; rewrite Hg, app_nil_r; reflexivity |].
    split; [| eexists; exact Ha].
    intros tbl. exists []. rewrite Hj, app_nil_r. reflexivity.
Qed.

Lemma upsertAliases_extends full_text args s r s' :
  upsertAliases full_text args s = Ok (r, s') ->
  games s' = games s /\ joins s' = joins s
  /\ exists added, game_aliases s' = game_aliases s ++ added.
Proof.
  intros Hrun. rewrite upsertAliases_run in Hrun.
  destruct (title_target _ _ _) as [[g |] | e]; [| | discriminate].
  - destruct (upsert_loop_spec args g (UpsertArgs.aliases args) 0 s)
      as (added & s1 & Hloop & (_ & Hg & Hj & Ha) & _).
    unfold bind in Hrun. rewrite Hloop in Hrun. cbn [ret] in Hrun.
    injection Hrun as _ <-. split; [exact Hg |]. split; [exact Hj |].
    exists added. exact Ha.
  - injection Hrun as _ <-. split; [reflexivity |]. split; [reflexivity |].
    exists []. symmetry. apply app_nil_r.
Qed.

Section HttpRules.

Variable JSON_parse : string -> option json.
Variable full_text : search_index -> string -> list Game.t -> list Game.t.
Variable clock : nat -> Z.

Lemma ingest_line_cases k line st :
  let st' := ingest_line JSON_parse full_text clock k line st in
  st' = st
  \/ (exists obj args res,
        JSON_parse line = Some obj
        /\ alias_shaped obj = true
        /\ upsertAliases_args obj = Some args
        /\ upsertAliases full_text args (Progress.db st) = Ok (res, Progress.db st')
        /\ Progress.inserted st'
           = Progress.inserted st + (if Nat.ltb 0 (UpsertResult.upserted res) then 1 else 0)
        /\ Progress.skipped st'
           = Progress.skipped st + (if Nat.ltb 0 (UpsertResult.upserted res) then 0 else 1))
  \/ (exists obj args res,
        JSON_parse line = Some obj
        /\ alias_shaped obj = false
        /\ addGame_args obj = Some args
        /\ addGame (clock k) args (Progress.db st) = Ok (res, Progress.db st')
        /\ Progress.inserted st'
           = Progress.inserted st + (if AddResult.inserted res then 1 else 0)
        /\ Progress.skipped st'
           = Progress.skipped st + (if AddResult.inserted res then 0 else 1)).
Proof.
  unfold ingest_line.
  destruct (JSON_parse line) as [obj |] eqn:Eparse; [| left; reflexivity].
  destruct (alias_shaped obj) eqn:Eshape.
  - destruct (upsertAliases_args obj) as [args |] eqn:Eargs; [| left; reflexivity].
    destruct (upsertAliases full_text args (Progress.db st)) as [[res s'] | e] eqn:Hrun;
      [| left; reflexivity].
    right. left. exists obj, args, res.
    destruct (Nat.ltb 0 (UpsertResult.upserted res));
      cbn [Progress.inserted Progress.skipped Progress.db];
      repeat (split; [first [reflexivity | assumption | lia] |]); lia.
  - destruct (addGame_args obj) as [args |] eqn:Eargs; [| left; reflexivity].
    destruct (addGame (clock k) args (Progress.db st)) as [[res s'] | e] eqn:Hrun;
      [| left; reflexivity].
    right. right. exists obj, args, res.
    destruct (AddResult.inserted res);
      cbn [Progress.inserted Progress.skipped Progress.db];
      repeat (split; [first [reflexivity | assumption | lia] |]); lia.
Qed.

Lemma ingest_line_effect k line st :
  let st' := ingest_line JSON_parse full_text clock k line st in
  Progress.inserted st <= Progress.inserted st'
  /\ Progress.skipped st <= Progress.skipped st'
  /\ Progress.inserted st' + Progress.skipped st'
     <= Progress.inserted st + Progress.skipped st + 1
  /\ extends (Progress.db st) (Progress.db st')
  /\ List.length (games (Progress.db st')) + Progress.inserted st
     <= List.length (games (Progress.db st)) + Progress.inserted st'.
Proof.
  intros st'. destruct (ingest_line_cases k line st) as [H | [H | H]]; fold st' in H.
  - rewrite H. repeat (split; [lia |]). split; [apply extends_refl | lia].
  - destruct H as (obj & args & res & _ & _ & _ & Hrun & Hi & Hs).
    destruct (upsertAliases_extends _ _ _ _ _ Hrun) as (Hg & Hj & Ha).
    destruct (Nat.ltb 0 (UpsertResult.upserted res));
      (repeat (split; [lia |]); split;
       [split; [exists []; rewrite Hg, app_nil_r; reflexivity |];
        split; [intros tbl; exists []; rewrite Hj, app_nil_r; reflexivity | exact Ha]
       | rewrite Hg; lia]).
  - destruct H as (obj & args & res & _ & _ & _ & Hrun & Hi & Hs).
    destruct (addGame_extends _ _ _ _ _ Hrun) as (Hext & Hlen).
    destruct (AddResult.inserted res);
      (repeat (split; [lia |]); split; [exact Hext | lia]).
Qed.

Lemma ingest_lines_effect k lines st :
  let st' := ingest_lines JSON_parse full_text clock k lines st in
  Progress.inserted st <= Progress.inserted st'
  /\ Progress.skipped st <= Progress.skipped st'
  /\ Progress.inserted st' + Progress.skipped st'
     <= Progress.inserted st + Progress.skipped st + List.length lines
  /\ extends (Progress.db st) (Progress.db st')
  /\ List.length (games (Progress.db st')) + Progress.inserted st
     <= List.length (games (Progress.db st)) + Progress.inserted st'.
Proof.
  revert k st. induction lines as [| line lines IH]; intros k st; cbn [ingest_lines].
  - cbn [List.length]. repeat (split; [lia |]). split; [apply extends_refl | lia].
  - destruct (ingest_line_effect k line st) as (H1 & H2 & H3 & H4 & H5).
    destruct (IH (S k) (ingest_line JSON_parse full_text clock k line st))
      as (I1 & I2 & I3 & I4 & I5).
    cbn [List.length]. repeat (split; [lia |]).
    split; [exact (extends_trans _ _ _ H4 I4) | lia].
Qed.

End HttpRules.

Lemma prefix_append (sub rest : string) : prefix sub (append sub rest) = true.
Proof.
  induction sub as [| c sub IH]; simpl; [destruct rest; reflexivity |].
  destruct (ascii_dec c c) as [_ | Hne]; [exact IH | contradiction].
Qed.

Lemma includes_append (before sub rest : string) :
  includes (append before (append sub rest)) sub = true.
Proof.
  induction before as [| c before IH].
  - change (append EmptyString (append sub rest)) with (append sub rest).
    pose proof (prefix_append sub rest) as H.
    destruct (append sub rest); cbn [includes]; rewrite H; reflexivity.
  - change (append (String c before) (append sub rest))
      with (String c (append before (append sub rest))).
    cbn [includes]. rewrite IH. apply orb_true_r.
Qed.

(** X22. The gate of [ingestNdjson].  A request is processed (status
    200) exactly when its method is POST and its content-type header
    contains application/x-ndjson or application/jsonl somewhere, with
    parameters or other text around it.  Any other method is answered
    405, a POST with another or no content type 415, in both cases with
    a plain text and with the database as it was. *)
Theorem ingestNdjson_gate JSON_parse full_text clock request s :
  let out := ingestNdjson JSON_parse full_text clock request s in
  (Response.status (fst out) = 200 <-> accepted request = true)
  /\ (Request.method request <> "POST" ->
      out = ({| Response.body_of := Plain "Method Not Allowed";
                Response.status := 405;
                Response.headers := [] |}, s))
  /\ (Request.method request = "POST" -> accepted request = false ->
      out = ({| Response.body_of := Plain "Unsupported Media Type";
                Response.status := 415;
                Response.headers := [] |}, s))
  /\ (forall media before rest,
        media = "application/x-ndjson" \/ media = "application/jsonl" ->
        Request.method request = "POST" ->
        Request.content_type request = Some (append before (append media rest)) ->
        Response.status (fst out) = 200).
Proof.
  intros out. unfold out, ingestNdjson, accepted.
  destruct (String.eqb (Request.method request) "POST") eqn:Em; cbn [negb andb].
  - apply String.eqb_eq in Em.
    split; [| split; [intros H; contradiction | split]].
    + destruct (Request.content_type request) as [c |].
      * destruct (includes c "application/x-ndjson"), (includes c "application/jsonl");
          cbn; split; intros H; try reflexivity; discriminate H.
      * cbn. split; intros H; discriminate H.
    + intros _ Hno. destruct (Request.content_type request) as [c |].
      * apply orb_false_elim in Hno. destruct Hno as (-> & ->). reflexivity.
      * reflexivity.
    + intros media before rest Hmedia _ ->.
      pose proof (includes_append before media rest) as Hin.
      destruct Hmedia as [-> | ->]; rewrite Hin; cbn [negb andb];
        [| rewrite andb_false_r]; reflexivity.
  - apply String.eqb_neq in Em. cbn.
    split; [split; intros H; discriminate H |].
    split; [reflexivity |]. split; [intros H; contradiction |].
    intros media before rest _ H. contradiction.
Qed.

Lemma ingestNdjson_gate_witness :
  accepted post_portal2 = true
  /\ Response.status
       (fst (ingestNdjson two_lines_parse prefix_search (fun _ => 1000%Z) post_portal2
               empty_store))
     = 200.
Proof.
  split; [reflexivity |].
  apply (proj2 (proj1 (ingestNdjson_gate two_lines_parse prefix_search (fun _ => 1000%Z)
                         post_portal2 empty_store))).
  reflexivity.
Defined.

(** X23. The counts of [ingestNdjson].  A processed request is answered
    200 with two counts whose sum is at most the number of non-blank
    lines of the body.  The call only appends rows: every table
    afterwards starts with the rows it had, and the number of entities
    grew by at most [inserted].  A request that is refused is answered
    with a text and another status, and leaves the database as it
    was. *)
Theorem ingestNdjson_accounting JSON_parse full_text clock request s :
  let out := ingestNdjson JSON_parse full_text clock request s in
  extends s (snd out)
  /\ match Response.body_of (fst out) with
     | Counts inserted skipped =>
         Response.status (fst out) = 200
         /\ inserted + skipped <= List.length (nonblank_lines (Request.text request))
         /\ List.length (games (snd out)) <= List.length (games s) + inserted
     | Plain _ => snd out = s /\ Response.status (fst out) <> 200
     end.
Proof.
  intros out. unfold out, ingestNdjson.
  destruct (negb (String.eqb (Request.method request) "POST"));
    [cbn; split; [apply extends_refl | split; [reflexivity | discriminate]] |].
  cbv zeta.
  destruct (negb (includes _ "application/x-ndjson") && negb (includes _ "application/jsonl"));
    [cbn; split; [apply extends_refl | split; [reflexivity | discriminate]] |].
  cbn [fst snd Response.body_of Response.status].
  destruct (ingest_lines_effect JSON_parse full_text clock 0
              (nonblank_lines (Request.text request))
              {| Progress.inserted := 0; Progress.skipped := 0; Progress.db := s |})
    as (_ & _ & Hsum & Hext & Hgames).
  cbn [Progress.inserted Progress.skipped Progress.db] in *.
  split; [exact Hext |]. split; [reflexivity |]. split; lia.
Qed.

(** The sample request: the game line and the alias line are counted as
    inserted, the blank line is dropped and the line that is not JSON
    is counted as neither. *)
Lemma ingestNdjson_post_portal2 :
  let out :=
    ingestNdjson two_lines_parse prefix_search (fun _ => 1000%Z) post_portal2 empty_store in
  List.length (nonblank_lines (Request.text post_portal2)) = 3
  /\ Response.body_of (fst out) = Counts 2 0
  /\ map Game.display_name (games (snd out)) = ["Portal 2"]
  /\ map alias_payload (game_aliases (snd out)) = [(0, "p2", None)].
Proof. vm_compute. repeat split. Qed.

(** ** Posting a body again *)

Lemma settled_games args s s' :
  (exists rows, games s' = games s ++ rows) -> settled args s -> settled args s'.
Proof.
  intros (rows & Hg) [Hkey | (parentRaw & Hp & Hlen)].
  - left. unfold by_normalized_name in *. rewrite Hg, filter_app.
    intros H. apply app_eq_nil in H. exact (Hkey (proj1 H)).
  - right. exists parentRaw. split; [exact Hp |].
    unfold by_normalized_name in *. rewrite Hg, filter_app, length_app. lia.
Qed.

Lemma addGame_settles now args s : settled args (state_after (addGame now args s) s).
Proof.
  destruct (addGame now args s) as [[r s'] | e] eqn:Hrun; cbn [state_after].
  - left. destruct (partial_det _ _ _ _ _ (addGame_spec now args s) Hrun) as [H | H].
    + destruct H as (_ & _ & (parent & Hg) & _).
      unfold by_normalized_name. rewrite Hg, filter_app.
      cbn [filter addGame_document Game.normalized_name]. rewrite String.eqb_refl.
      intros H. apply app_eq_nil in H. destruct H as (_ & H). discriminate H.
    + destruct H as (g & Hone & _ & Hg & _).
      rewrite (by_normalized_name_games _ _ _ Hg), Hone. discriminate.
  - destruct (by_normalized_name (addGame_normalizedName args) s) as [| g rows] eqn:Ek;
      [| left; rewrite Ek; discriminate].
    destruct (AddArgs.parent_game args) as [| | parentRaw] eqn:Hp.
    1-2: exfalso;
      destruct (addGame_returns_when now args s) as (r & s' & Hret);
      [rewrite Ek; simpl; lia | intros _ raw E; rewrite Hp in E; discriminate E | congruence].
    right. exists parentRaw. split; [exact Hp |].
    destruct (le_lt_dec (List.length (by_normalized_name parentRaw s)) 1) as [Hp1 | Hp1];
      [| lia].
    exfalso. destruct (addGame_returns_when now args s) as (r & s' & Hret).
    + rewrite Ek. simpl. lia.
    + intros _ raw E. rewrite Hp in E. injection E as <-. exact Hp1.
    + congruence.
Qed.

Lemma addGame_settled_keeps now args s r s' :
  settled args s ->
  addGame now args s = Ok (r, s') ->
  games s' = games s /\ joins s' = joins s /\ AddResult.inserted r = false.
Proof.
  intros Hset Hrun.
  destruct (partial_det _ _ _ _ _ (addGame_spec now args s) Hrun) as [H | H].
  - exfalso. destruct H as (Hnone & _). destruct Hset as [Hkey | (parentRaw & Hp & Hlen)].
    + exact (Hkey Hnone).
    + unfold addGame, bind, query in Hrun. rewrite Hnone in Hrun. simpl in Hrun.
      rewrite Hp in Hrun.
      destruct (by_normalized_name parentRaw s) as [| g [| g' rows]];
        simpl in Hlen; try lia. discriminate Hrun.
  - destruct H as (g & _ & -> & Hg & Hj & _).
    split; [exact Hg |]. split; [exact Hj | reflexivity].
Qed.

Section Repost.

Variable JSON_parse : string -> option json.
Variable full_text : search_index -> string -> list Game.t -> list Game.t.
Variable clock : nat -> Z.

Lemma ingest_line_settles k line st obj args :
  JSON_parse line = Some obj ->
  alias_shaped obj = false ->
  addGame_args obj = Some args ->
  settled args (Progress.db (ingest_line JSON_parse full_text clock k line st)).
Proof.
  intros Hparse Hshape Hargs. unfold ingest_line. rewrite Hparse, Hshape, Hargs.
  pose proof (addGame_settles (clock k) args (Progress.db st)) as H.
  destruct (addGame (clock k) args (Progress.db st)) as [[res s'] | e];
    cbn [state_after] in H; [| exact H].
  destruct (AddResult.inserted res); exact H.
Qed.

Lemma ingest_lines_settle k lines st :
  lines_settled JSON_parse lines
    (Progress.db (ingest_lines JSON_parse full_text clock k lines st)).
Proof.
  revert k st. induction lines as [| line lines IH]; intros k st; cbn [ingest_lines].
  - intros l obj args [].
  - intros l obj args [<- | Hin] Hparse Hshape Hargs.
    + apply (settled_games args
               (Progress.db (ingest_line JSON_parse full_text clock k line st))).
      * exact (proj1 (proj1 (proj2 (proj2 (proj2
                 (ingest_lines_effect JSON_parse full_text clock (S k) lines _)))))).
      * exact (ingest_line_settles k line st obj args Hparse Hshape Hargs).
    + exact (IH (S k) _ l obj args Hin Hparse Hshape Hargs).
Qed.

Lemma ingest_line_keeps k line st :
  (forall obj args,
      JSON_parse line = Some obj -> alias_shaped obj = false ->
      addGame_args obj = Some args -> settled args (Progress.db st)) ->
  let st' := ingest_line JSON_parse full_text clock k line st in
  games (Progress.db st') = games (Progress.db st)
  /\ joins (Progress.db st') = joins (Progress.db st)
  /\ Progress.inserted st'
     <= Progress.inserted st + (if is_alias_line JSON_parse line then 1 else 0).
Proof.
  intros Hset st'. destruct (ingest_line_cases JSON_parse full_text clock k line st)
    as [H | [H | H]]; fold st' in H.
  - rewrite H. split; [reflexivity |]. split; [reflexivity | lia].
  - destruct H as (obj & args & res & Hparse & Hshape & _ & Hrun & Hi & _).
    destruct (upsertAliases_extends _ _ _ _ _ Hrun) as (Hg & Hj & _).
    split; [exact Hg |]. split; [exact Hj |].
    unfold is_alias_line. rewrite Hparse, Hshape.
    destruct (Nat.ltb 0 (UpsertResult.upserted res)); lia.
  - destruct H as (obj & args & res & Hparse & Hshape & Hargs & Hrun & Hi & _).
    destruct (addGame_settled_keeps _ _ _ _ _ (Hset obj args Hparse Hshape Hargs) Hrun)
      as (Hg & Hj & Hins).
    split; [exact Hg |]. split; [exact Hj |]. rewrite Hins in Hi. lia.
Qed.

Lemma ingest_lines_keep k lines st :
  lines_settled JSON_parse lines (Progress.db st) ->
  let st' := ingest_lines JSON_parse full_text clock k lines st in
  games (Progress.db st') = games (Progress.db st)
  /\ joins (Progress.db st') = joins (Progress.db st)
  /\ Progress.inserted st'
     <= Progress.inserted st + List.length (filter (is_alias_line JSON_parse) lines).
Proof.
  revert k st. induction lines as [| line lines IH]; intros k st Hset; cbn [ingest_lines].
  - split; [reflexivity |]. split; [reflexivity | simpl; lia].
  - destruct (ingest_line_keeps k line st) as (Hg & Hj & Hi).
    { intros obj args. apply Hset. left. reflexivity. }
    destruct (IH (S k) (ingest_line JSON_parse full_text clock k line st))
      as (Hg' & Hj' & Hi').
    { intros l obj args Hin Hparse Hshape Hargs.
      apply (settled_games args (Progress.db st)).
      - exists []. rewrite Hg, app_nil_r. reflexivity.
      - apply (Hset l obj args); [right; exact Hin | assumption ..]. }
    split; [congruence |]. split; [congruence |].
    cbn [filter]. destruct (is_alias_line JSON_parse line); cbn [List.length]; lia.
Qed.

End Repost.

(** X24. Posting a body again adds no entity.  After [ingestNdjson]
    has processed a body, a second call with the same body leaves the
    entities and every attribute table as the first call left them,
    whatever the clock and the search answer the second time: each game
    line then finds its key taken, or fails as it failed before.  Only
    alias lines can be counted as inserted by the second call. *)
Theorem ingestNdjson_repost JSON_parse full_text1 full_text2 clock1 clock2 request s :
  let first := ingestNdjson JSON_parse full_text1 clock1 request s in
  let second := ingestNdjson JSON_parse full_text2 clock2 request (snd first) in
  games (snd second) = games (snd first)
  /\ joins (snd second) = joins (snd first)
  /\ forall inserted skipped,
       Response.body_of (fst second) = Counts inserted skipped ->
       inserted
       <= List.length (filter (is_alias_line JSON_parse)
                         (nonblank_lines (Request.text request))).
Proof.
  intros first second. unfold second, first, ingestNdjson.
  destruct (negb (String.eqb (Request.method request) "POST"));
    [cbn; split; [reflexivity | split; [reflexivity | discriminate]] |].
  cbv zeta.
  destruct (negb (includes _ "application/x-ndjson") && negb (includes _ "application/jsonl"));
    [cbn; split; [reflexivity | split; [reflexivity | discriminate]] |].
  cbn [fst snd Response.body_of].
  set (lines := nonblank_lines (Request.text request)).
  set (st1 := ingest_lines JSON_parse full_text1 clock1 0 lines
                {| Progress.inserted := 0; Progress.skipped := 0; Progress.db := s |}).
  destruct (ingest_lines_keep JSON_parse full_text2 clock2 0 lines
              {| Progress.inserted := 0; Progress.skipped := 0;
                 Progress.db := Progress.db st1 |}) as (Hg & Hj & Hi).
  { cbn [Progress.db]. apply ingest_lines_settle. }
  cbn [Progress.db Progress.inserted] in *.
  split; [exact Hg |]. split; [exact Hj |].
  intros inserted skipped E. injection E as <- _. exact Hi.
Qed.

(** The sample body posted twice: the second answer counts both lines
    as skipped. *)
Lemma ingestNdjson_repost_portal2 :
  let first :=
    ingestNdjson two_lines_parse prefix_search (fun _ => 1000%Z) post_portal2 empty_store in
  let second :=
    ingestNdjson two_lines_parse prefix_search (fun _ => 2000%Z) post_portal2 (snd first) in
  Response.body_of (fst second) = Counts 0 2
  /\ snd second = snd first.
Proof. vm_compute. split; reflexivity. Qed.

(** ** Routing of the parsed objects *)

Lemma title_not_game_field (fields : list (string * json)) kv :
  find (fun kv => String.eqb (fst kv) "title") fields = Some kv ->
  forallb (fun kv => existsb (String.eqb (fst kv)) addGame_fields) fields = false.
Proof.
  intros H. apply find_some in H. destruct H as (Hin & Heq). apply String.eqb_eq in Heq.
  destruct (forallb _ fields) eqn:E; [| reflexivity].
  rewrite forallb_forall in E. specialize (E kv Hin). rewrite Heq in E.
  vm_compute in E. discriminate E.
Qed.

Lemma titled_not_a_game obj v : property obj "title" = Some v -> addGame_args obj = None.
Proof.
  destruct obj as [| b | n | t | items | fields]; try discriminate.
  unfold property. intros H.
  destruct (find _ fields) as [kv |] eqn:Ef; [| discriminate H].
  unfold addGame_args. rewrite (title_not_game_field _ _ Ef). reflexivity.
Qed.

(** X25. The routing of [ingestNdjson] by shape loses no game.  An
    object routed to [upsertAliases] would not be accepted by [addGame]
    (it has a title, which is no field of a game).  The only objects
    [upsertAliases] would accept that are not routed to it are those
    with an empty title; they are passed to [addGame], which refuses
    them, so such a line is counted as neither inserted nor skipped and
    changes nothing. *)
Theorem alias_routing obj :
  (alias_shaped obj = true -> addGame_args obj = None)
  /\ (forall args,
        alias_shaped obj = false ->
        upsertAliases_args obj = Some args ->
        UpsertArgs.title args = EmptyString
        /\ addGame_args obj = None
        /\ forall JSON_parse full_text clock k line st,
             JSON_parse line = Some obj ->
             ingest_line JSON_parse full_text clock k line st = st).
Proof.
  split.
  - intros H. unfold alias_shaped in H.
    destruct (property obj "title") as [v |] eqn:Et.
    + exact (titled_not_a_game obj v Et).
    + cbn [truthy] in H. rewrite !andb_false_r in H. discriminate H.
  - intros args Hshape Hargs. unfold upsertAliases_args in Hargs.
    destruct (property obj "title") as [v |] eqn:Et; [| discriminate Hargs].
    assert (Hgame : addGame_args obj = None) by exact (titled_not_a_game obj v Et).
    destruct v as [| b | n | t | items | fields]; try discriminate Hargs.
    cbn [required v_string] in Hargs.
    destruct (property obj "aliases") as [[| b | n | a | items | fields] |] eqn:Ea;
      try discriminate Hargs.
    cbn [required v_array_string] in Hargs.
    destruct (v_strings items) as [al |]; [| discriminate Hargs].
    destruct (optional_or_null v_string _) as [notes |]; [| discriminate Hargs].
    injection Hargs as <-. cbn [UpsertArgs.title].
    unfold alias_shaped in Hshape. rewrite Et, Ea in Hshape.
    destruct obj as [| b | n | x | xs | fields]; try discriminate Et.
    cbn in Hshape. rewrite !andb_true_r in Hshape.
    apply negb_false_iff, String.eqb_eq in Hshape.
    split; [exact Hshape |]. split; [exact Hgame |].
    intros JSON_parse full_text clock k line st Hparse.
    unfold ingest_line. rewrite Hparse.
    assert (Hno : alias_shaped (JObject fields) = false).
    { unfold alias_shaped. rewrite Et, Ea, Hshape. reflexivity. }
    rewrite Hno, Hgame. reflexivity.
Qed.

(** ** Rows of other entities *)

Lemma new_alias_rows_other base id id' notes al :
  id' <> id ->
  filter (fun r => Nat.eqb (Alias.gameId r) id') (new_alias_rows base id notes al) = [].
Proof.
  intros Hne. revert base. induction al as [| a al IH]; intros base; simpl; [reflexivity |].
  destruct (Nat.eqb id id') eqn:E; [apply Nat.eqb_eq in E; congruence | apply IH].
Qed.

Lemma reconcile_aliases_other id id' v base rows :
  distinct_ids Alias._id rows ->
  id' <> id ->
  filter (fun r => Nat.eqb (Alias.gameId r) id') (reconcile_aliases id v base rows)
  = filter (fun r => Nat.eqb (Alias.gameId r) id') rows.
Proof.
  intros Hd Hne. unfold reconcile_aliases. destruct v as [| | al]; try reflexivity.
  rewrite (without_first Alias._id 1000 _ rows Hd).
  rewrite filter_app, new_alias_rows_other, app_nil_r by exact Hne.
  apply filter_drop_first_other.
  intros r Hr. apply Nat.eqb_eq in Hr. apply Nat.eqb_neq. congruence.
Qed.

(** X26. An update touches the rows of its own entity only: after
    [updateGame] on an existing entity, every other entity has the join
    rows it had, in every attribute table, and the alias rows it had,
    whatever arrays the update supplies. *)
Theorem updateGame_other_rows_untouched now args s existing r s' other :
  well_formed s ->
  get_game (UpdateArgs.id args) s = Some existing ->
  updateGame now args s = Ok (r, s') ->
  other <> UpdateArgs.id args ->
  (forall tbl, join_by_game tbl other s' = join_by_game tbl other s)
  /\ alias_by_game other s' = alias_by_game other s.
Proof.
  intros (_ & Hjoins & Haliases) Hget Hrun Hother.
  destruct (returns_det _ _ _ _ _
              (updateGame_existing now args s existing Hget
                 (updateGame_returned now args s existing r s' Hget Hrun)) Hrun)
    as (_ & _ & Hj & (abase & _ & Ha) & _).
  split.
  - intros tbl. destruct (Hj tbl) as (base & _ & Hrows).
    unfold join_by_game. rewrite Hrows.
    destruct (attribute_arg tbl args) as [| | vs]; try reflexivity.
    apply reconcile_rows_other; [apply Hjoins | exact Hother].
  - unfold alias_by_game. rewrite Ha.
    apply reconcile_aliases_other; [apply Haliases | exact Hother].
Qed.

Lemma updateGame_other_rows_untouched_witness :
  let args := update_of 1 None Absent (Val ["dlc"]) (Val ["Peer Review"]) in
  let s' := state_after (updateGame 3000 args store_peer_review) store_peer_review in
  well_formed store_peer_review
  /\ map join_payload (join_by_game game_tags 1 s') = [(1, "dlc", Some (Num 2011), Some (Num 2010))]
  /\ (forall tbl, join_by_game tbl 0 s' = join_by_game tbl 0 store_peer_review)
  /\ alias_by_game 0 s' = alias_by_game 0 store_peer_review.
Proof.
  intros args s'.
  pose proof (reachable_well_formed _ store_peer_review_reachable) as Hwf.
  split; [exact Hwf |]. split; [reflexivity |].
  assert (Hget : exists existing, get_game 1 store_peer_review = Some existing)
    by (eexists; reflexivity).
  destruct Hget as (existing & Hget).
  exact (updateGame_other_rows_untouched 3000 args store_peer_review existing
           {| UpdateResult._id := 1; UpdateResult.updated := true |} s' 0
           Hwf Hget eq_refl ltac:(discriminate)).
Defined.
